(** * Football-data polling engine: a shallow embedding of
      [lib/constants.js], [lib/FootballAPI.js] (rate limiter) and
      [lib/MatchManager.js] (scheduler, diff/event detector).

    Conventions of the embedding.
    - Instants ([Date.now()], [new Date(s).getTime()]) are integer
      milliseconds in [Z].  A date string that does not parse is
      [None]; JavaScript then computes with [NaN], and every comparison
      with [NaN] is false.
    - Durations in minutes or hours are exact rationals ([Q]): the
      source divides a millisecond difference by [1000], [60] (and
      [60] again).
    - Statuses are the strings the remote API sends.
    - [Map]s keyed by match or team id are [gmap]s; team ids are the
      numeric ids ([String]/[Number] conversions of the source are the
      identity on them).
    - [this.emit] appends to an event log that every operation
      returns. *)

From Stdlib Require Import ZArith QArith List Bool Lia Sorted.
From stdpp Require Import base decidable option list gmap strings pretty.

Open Scope Z_scope.
Open Scope string_scope.
Open Scope list_scope.

(** ** constants.js *)

Definition RATE_LIMIT : Z := 10.
Definition RATE_LIMIT_BUFFER : Z := 2.

Module MATCH_STATUS.
Definition SCHEDULED : string := "SCHEDULED".
Definition TIMED : string := "TIMED".
Definition IN_PLAY : string := "IN_PLAY".
Definition PAUSED : string := "PAUSED".
Definition FINISHED : string := "FINISHED".
Definition SUSPENDED : string := "SUSPENDED".
Definition POSTPONED : string := "POSTPONED".
Definition CANCELLED : string := "CANCELLED".
Definition AWARDED : string := "AWARDED".
End MATCH_STATUS.

Definition LIVE_STATUSES : list string := ["IN_PLAY"; "PAUSED"].
Definition UPCOMING_STATUSES : list string := ["SCHEDULED"; "TIMED"].
Definition COMPLETED_STATUSES : list string := ["FINISHED"; "AWARDED"].

(** [POLLING_STATE]: the five values [pollingState] ever holds. *)
Inductive POLLING_STATE : Type :=
  | IDLE | PRE_MATCH | LIVE | PAUSED | POST_MATCH.

#[global] Instance POLLING_STATE_eq_dec : EqDecision POLLING_STATE.
Proof. solve_decision. Defined.

(** [POLLING_INTERVALS], in milliseconds. *)
Definition POLLING_INTERVALS (s : POLLING_STATE) : Z :=
  match s with
  | IDLE => 15 * 60 * 1000
  | PRE_MATCH => 5 * 60 * 1000
  | LIVE => 30 * 1000
  | PAUSED => 2 * 60 * 1000
  | POST_MATCH => 5 * 60 * 1000
  end.

Definition MATCH_SOON_THRESHOLDS : list Z := [15; 30; 60; 120].

Inductive EVENTS : Type :=
  | TEAM_SCORED | TEAM_CONCEDED | MATCH_KICKOFF | HALFTIME_STARTED
  | SECOND_HALF_STARTED | EXTRA_TIME_STARTED | MATCH_FINISHED
  | TEAM_WON | TEAM_LOST | TEAM_DREW | MATCH_STARTS_SOON
  | MATCH_RESULT_CHANGED.

#[global] Instance EVENTS_eq_dec : EqDecision EVENTS.
Proof. solve_decision. Defined.

(** ** Records the API returns *)

Record Team : Type := mkTeam {
  team_id : Z;
  team_name : string;
  team_shortName : option string;
}.

(** A match as fetched.  [match_utcDate] is the parsed [utcDate];
    [match_home]/[match_away] are [score?.fullTime?.home/away]
    ([None] when the chain is undefined or null). *)
Record Match : Type := mkMatch {
  match_id : Z;
  match_status : string;
  match_utcDate : option Z;
  match_home : option Z;
  match_away : option Z;
  homeTeam : Team;
  awayTeam : Team;
  match_minute : option Z;
  match_competition : option string;
}.

(** [xs.includes(s)] on a list of strings. *)
Definition includes (xs : list string) (s : string) : bool :=
  existsb (fun x => bool_decide (x = s)) xs.

(** [x ?? 0] *)
Definition orZero (x : option Z) : Z := default 0 x.

(** ** Time arithmetic of the source, on exact rationals *)

Definition Qltb (a b : Q) : bool := negb (Qle_bool b a).

(** [(a - b) / 1000 / 60] *)
Definition minutesBetween (a b : Z) : Q :=
  (inject_Z (a - b) / inject_Z 1000 / inject_Z 60)%Q.

(** [(a - b) / 1000 / 60 / 60] *)
Definition hoursBetween (a b : Z) : Q :=
  (inject_Z (a - b) / inject_Z 1000 / inject_Z 60 / inject_Z 60)%Q.

(** ** MatchManager.determinePollingState *)

Definition hasProbablyLive (now : Z) (m : Match) : bool :=
  if negb (includes UPCOMING_STATUSES (match_status m)) then false
  else match match_utcDate m with
       | None => false
       | Some matchDate =>
           let minutesSinceKickoff := minutesBetween now matchDate in
           Qltb 0 minutesSinceKickoff
           && Qltb minutesSinceKickoff (inject_Z 120)
       end.

Definition hasRecentlyFinished (now : Z) (m : Match) : bool :=
  if negb (includes COMPLETED_STATUSES (match_status m)) then false
  else match match_utcDate m with
       | None => false
       | Some matchDate =>
           let estimatedEnd := matchDate + 2 * 60 * 60 * 1000 in
           let minutesSinceEnd := minutesBetween now estimatedEnd in
           Qle_bool 0 minutesSinceEnd
           && Qltb minutesSinceEnd (inject_Z 15)
       end.

Definition hasUpcoming (now : Z) (m : Match) : bool :=
  if negb (includes UPCOMING_STATUSES (match_status m)) then false
  else match match_utcDate m with
       | None => false
       | Some matchDate =>
           let hoursUntil := hoursBetween matchDate now in
           Qle_bool hoursUntil (inject_Z 2) && Qltb 0 hoursUntil
       end.

Definition determinePollingState (now : Z) (matches : list Match)
  : POLLING_STATE :=
  if existsb (fun m => bool_decide (match_status m = MATCH_STATUS.IN_PLAY))
       matches
  then LIVE
  else if existsb
            (fun m => bool_decide (match_status m = MATCH_STATUS.PAUSED))
            matches
  then PAUSED
  else if existsb (hasProbablyLive now) matches then LIVE
  else if existsb (hasRecentlyFinished now) matches then POST_MATCH
  else if existsb (hasUpcoming now) matches then PRE_MATCH
  else IDLE.


(** ** Events published on the emitter *)

Inductive ResultState : Type := winning | losing | drawing.

#[global] Instance ResultState_eq_dec : EqDecision ResultState.
Proof. solve_decision. Defined.

(** The payload next to [match] and [teamId] in the emitted object. *)
Inductive Payload : Type :=
  | OnlyMatch
  | NewScore (home away : Z)
  | ScoringTeam (scoringTeam : Team) (home away : Z)
  | Minutes (minutes : Z)
  | ResultChange (state : ResultState) (score : Z * Z)
      (opponent : string) (minute : Z) (teamGoals opponentGoals : Z).

Record Event : Type := mkEvent {
  ev_name : EVENTS;
  ev_teamId : Z;
  ev_match : Match;
  ev_payload : Payload;
}.

(** ** The snapshot cache *)

Record Markers : Type := mkMarkers {
  kickoffTriggered : bool;
  halftimeTriggered : bool;
  secondHalfTriggered : bool;
  extraTimeTriggered : bool;
  finishedTriggered : bool;
}.

Record MatchState : Type := mkMatchState {
  st_id : Z;
  st_status : string;
  st_utcDate : option Z;
  homeScore : Z;
  awayScore : Z;
  homeTeamId : Z;
  awayTeamId : Z;
  homeTeamName : string;
  awayTeamName : string;
  homeTeamShortName : string;
  awayTeamShortName : string;
  st_minute : Z;
  st_competition : string;
  events : Markers;
}.

(** [a || b] on a possibly missing or empty string. *)
Definition orName (a : option string) (b : string) : string :=
  match a with
  | Some s => if bool_decide (s = "") then b else s
  | None => b
  end.

Definition noMarkers : Markers := mkMarkers false false false false false.

Definition createMatchState (m : Match) (existingEvents : option Markers)
  : MatchState :=
  {| st_id := match_id m;
     st_status := match_status m;
     st_utcDate := match_utcDate m;
     homeScore := orZero (match_home m);
     awayScore := orZero (match_away m);
     homeTeamId := team_id (homeTeam m);
     awayTeamId := team_id (awayTeam m);
     homeTeamName := team_name (homeTeam m);
     awayTeamName := team_name (awayTeam m);
     homeTeamShortName :=
       orName (team_shortName (homeTeam m)) (team_name (homeTeam m));
     awayTeamShortName :=
       orName (team_shortName (awayTeam m)) (team_name (awayTeam m));
     st_minute := orZero (match_minute m);
     st_competition := orName (match_competition m) "";
     events := default noMarkers existingEvents |}.

Definition setKickoff (e : Markers) : Markers :=
  mkMarkers true (halftimeTriggered e) (secondHalfTriggered e)
    (extraTimeTriggered e) (finishedTriggered e).
Definition setHalftime (e : Markers) : Markers :=
  mkMarkers (kickoffTriggered e) true (secondHalfTriggered e)
    (extraTimeTriggered e) (finishedTriggered e).
Definition setSecondHalf (e : Markers) : Markers :=
  mkMarkers (kickoffTriggered e) (halftimeTriggered e) true
    (extraTimeTriggered e) (finishedTriggered e).
Definition setFinished (e : Markers) : Markers :=
  mkMarkers (kickoffTriggered e) (halftimeTriggered e)
    (secondHalfTriggered e) (extraTimeTriggered e) true.

Definition withEvents (c : MatchState) (e : Markers) : MatchState :=
  {| st_id := st_id c; st_status := st_status c; st_utcDate := st_utcDate c;
     homeScore := homeScore c; awayScore := awayScore c;
     homeTeamId := homeTeamId c; awayTeamId := awayTeamId c;
     homeTeamName := homeTeamName c; awayTeamName := awayTeamName c;
     homeTeamShortName := homeTeamShortName c;
     awayTeamShortName := awayTeamShortName c;
     st_minute := st_minute c; st_competition := st_competition c;
     events := e |}.

(** ** Emission: only for teams that have a registered device *)

Definition emitForTeam (trackedTeams : gmap Z (gset nat)) (teamId : Z)
    (eventName : EVENTS) (m : Match) (data : Payload) : list Event :=
  if bool_decide (is_Some (trackedTeams !! teamId))
  then [mkEvent eventName teamId m data]
  else [].

Definition emitForTeams (trackedTeams : gmap Z (gset nat))
    (teamIds : list Z) (eventName : EVENTS) (m : Match) (data : Payload)
  : list Event :=
  flat_map (fun teamId => emitForTeam trackedTeams teamId eventName m data)
    teamIds.

Definition emitMatchResult (trackedTeams : gmap Z (gset nat)) (m : Match)
  : list Event :=
  let homeScore := orZero (match_home m) in
  let awayScore := orZero (match_away m) in
  let homeTeamId := team_id (homeTeam m) in
  let awayTeamId := team_id (awayTeam m) in
  if bool_decide (homeScore > awayScore) then
    emitForTeam trackedTeams homeTeamId TEAM_WON m OnlyMatch
    ++ emitForTeam trackedTeams awayTeamId TEAM_LOST m OnlyMatch
  else if bool_decide (awayScore > homeScore) then
    emitForTeam trackedTeams awayTeamId TEAM_WON m OnlyMatch
    ++ emitForTeam trackedTeams homeTeamId TEAM_LOST m OnlyMatch
  else
    emitForTeams trackedTeams [homeTeamId; awayTeamId] TEAM_DREW m OnlyMatch.

(** ** handleStatusChange: returns the mutated [cached.events] and the
    events emitted *)

Definition handleStatusChange (trackedTeams : gmap Z (gset nat))
    (m : Match) (cached : MatchState) : Markers * list Event :=
  let homeTeamId := team_id (homeTeam m) in
  let awayTeamId := team_id (awayTeam m) in
  let ev := events cached in
  if bool_decide (match_status m = MATCH_STATUS.IN_PLAY) then
    if includes UPCOMING_STATUSES (st_status cached) then
      if negb (kickoffTriggered ev) then
        (setKickoff ev,
         emitForTeams trackedTeams [homeTeamId; awayTeamId]
           MATCH_KICKOFF m OnlyMatch)
      else (ev, [])
    else if bool_decide (st_status cached = MATCH_STATUS.PAUSED) then
      if negb (secondHalfTriggered ev) then
        (setSecondHalf ev,
         emitForTeams trackedTeams [homeTeamId; awayTeamId]
           SECOND_HALF_STARTED m OnlyMatch)
      else (ev, [])
    else (ev, [])
  else if bool_decide (match_status m = MATCH_STATUS.PAUSED) then
    if negb (halftimeTriggered ev) then
      (setHalftime ev,
       emitForTeams trackedTeams [homeTeamId; awayTeamId]
         HALFTIME_STARTED m OnlyMatch)
    else (ev, [])
  else if bool_decide (match_status m = MATCH_STATUS.FINISHED)
          || bool_decide (match_status m = MATCH_STATUS.AWARDED) then
    if negb (finishedTriggered ev) then
      (setFinished ev,
       emitForTeams trackedTeams [homeTeamId; awayTeamId]
         MATCH_FINISHED m OnlyMatch
       ++ emitMatchResult trackedTeams m)
    else (ev, [])
  else (ev, []).

(** ** handleScoreChange and the result state *)

Definition getResultState (teamScore opponentScore : Z) : ResultState :=
  if bool_decide (teamScore > opponentScore) then winning
  else if bool_decide (teamScore < opponentScore) then losing
  else drawing.

Definition emitResultStateChange (trackedTeams : gmap Z (gset nat))
    (m : Match) (teamId : Z) (oldState newState : ResultState)
    (homeScore awayScore : Z) (isHomeTeam : bool) : list Event :=
  if bool_decide (oldState = newState) then []
  else
    let opponent := if isHomeTeam then awayTeam m else homeTeam m in
    let teamGoals := if isHomeTeam then homeScore else awayScore in
    let opponentGoals := if isHomeTeam then awayScore else homeScore in
    emitForTeam trackedTeams teamId MATCH_RESULT_CHANGED m
      (ResultChange newState (homeScore, awayScore)
         (orName (team_shortName opponent) (team_name opponent))
         (orZero (match_minute m)) teamGoals opponentGoals).

Definition handleScoreChange (trackedTeams : gmap Z (gset nat))
    (m : Match) (cached : MatchState) (newHome newAway : Z) : list Event :=
  let homeTeamId := team_id (homeTeam m) in
  let awayTeamId := team_id (awayTeam m) in
  let oldHomeState := getResultState (homeScore cached) (awayScore cached) in
  let oldAwayState := getResultState (awayScore cached) (homeScore cached) in
  let newHomeState := getResultState newHome newAway in
  let newAwayState := getResultState newAway newHome in
  (if bool_decide (newHome > homeScore cached) then
     emitForTeam trackedTeams homeTeamId TEAM_SCORED m
       (NewScore newHome newAway)
     ++ emitForTeam trackedTeams awayTeamId TEAM_CONCEDED m
          (ScoringTeam (homeTeam m) newHome newAway)
   else [])
  ++ (if bool_decide (newAway > awayScore cached) then
        emitForTeam trackedTeams awayTeamId TEAM_SCORED m
          (NewScore newHome newAway)
        ++ emitForTeam trackedTeams homeTeamId TEAM_CONCEDED m
             (ScoringTeam (awayTeam m) newHome newAway)
      else [])
  ++ emitResultStateChange trackedTeams m homeTeamId oldHomeState
       newHomeState newHome newAway true
  ++ emitResultStateChange trackedTeams m awayTeamId oldAwayState
       newAwayState newHome newAway false.

(** ** processMatchUpdates *)

(** A match seen for the first time.  The source stores [newState] in the
    cache and then sets markers on [newState.events]; the cache holds the
    same object, so the stored entry carries the markers set here. *)
Definition discoverMatch (trackedTeams : gmap Z (gset nat)) (m : Match)
  : MatchState * list Event :=
  let newState := createMatchState m None in
  let teams := [team_id (homeTeam m); team_id (awayTeam m)] in
  let '(e1, ev1) :=
    if bool_decide (match_status m = MATCH_STATUS.IN_PLAY)
    then (setKickoff (events newState),
          emitForTeams trackedTeams teams MATCH_KICKOFF m OnlyMatch)
    else (events newState, []) in
  let '(e2, ev2) :=
    if bool_decide (match_status m = MATCH_STATUS.PAUSED)
    then (setHalftime e1,
          emitForTeams trackedTeams teams HALFTIME_STARTED m OnlyMatch)
    else (e1, []) in
  let '(e3, ev3) :=
    if bool_decide (match_status m = MATCH_STATUS.FINISHED)
       || bool_decide (match_status m = MATCH_STATUS.AWARDED)
    then (setFinished e2,
          emitForTeams trackedTeams teams MATCH_FINISHED m OnlyMatch
          ++ emitMatchResult trackedTeams m)
    else (e2, []) in
  (withEvents newState e3, ev1 ++ ev2 ++ ev3).

(** A match that has a cache entry. *)
Definition updateMatch (trackedTeams : gmap Z (gset nat)) (m : Match)
    (cached : MatchState) : MatchState * list Event :=
  let '(ev, out1) :=
    if negb (bool_decide (st_status cached = match_status m))
    then handleStatusChange trackedTeams m cached
    else (events cached, []) in
  let out2 :=
    if includes LIVE_STATUSES (match_status m) then
      let currentHome := orZero (match_home m) in
      let currentAway := orZero (match_away m) in
      if negb (bool_decide (currentHome = homeScore cached))
         || negb (bool_decide (currentAway = awayScore cached))
      then handleScoreChange trackedTeams m cached currentHome currentAway
      else []
    else [] in
  (createMatchState m (Some ev), out1 ++ out2).

(** One iteration of the loop over [matches]. *)
Definition processMatch (trackedTeams : gmap Z (gset nat)) (m : Match)
    (matchCache : gmap Z MatchState) : gmap Z MatchState * list Event :=
  match matchCache !! match_id m with
  | None =>
      let '(newState, out) := discoverMatch trackedTeams m in
      (<[match_id m := newState]> matchCache, out)
  | Some cached =>
      let '(newState, out) := updateMatch trackedTeams m cached in
      (<[match_id m := newState]> matchCache, out)
  end.

Fixpoint processMatchUpdates (trackedTeams : gmap Z (gset nat))
    (matches : list Match) (matchCache : gmap Z MatchState)
  : gmap Z MatchState * list Event :=
  match matches with
  | [] => (matchCache, [])
  | m :: rest =>
      let '(cache1, out1) := processMatch trackedTeams m matchCache in
      let '(cache2, out2) := processMatchUpdates trackedTeams rest cache1 in
      (cache2, out1 ++ out2)
  end.

(** ** checkMatchStartsSoon *)

Fixpoint checkThresholds (trackedTeams : gmap Z (gset nat)) (m : Match)
    (minutesUntil : Q) (thresholds : list Z)
    (triggered : gmap Z (gset Z)) : gmap Z (gset Z) * list Event :=
  match thresholds with
  | [] => (triggered, [])
  | threshold :: rest =>
      let '(triggered1, out1) :=
        if Qle_bool minutesUntil (inject_Z threshold) && Qltb 0 minutesUntil
        then
          let triggeredSet := default ∅ (triggered !! match_id m) in
          if negb (bool_decide (threshold ∈ triggeredSet)) then
            (<[match_id m := {[threshold]} ∪ triggeredSet]> triggered,
             emitForTeams trackedTeams
               [team_id (homeTeam m); team_id (awayTeam m)]
               MATCH_STARTS_SOON m (Minutes threshold))
          else (triggered, [])
        else (triggered, []) in
      let '(triggered2, out2) :=
        checkThresholds trackedTeams m minutesUntil rest triggered1 in
      (triggered2, out1 ++ out2)
  end.

(** One iteration of the loop over [matches]. *)
Definition checkMatch (now : Z) (trackedTeams : gmap Z (gset nat))
    (m : Match) (triggered : gmap Z (gset Z))
  : gmap Z (gset Z) * list Event :=
  if negb (includes UPCOMING_STATUSES (match_status m)) then (triggered, [])
  else match match_utcDate m with
       | None => (triggered, [])
       | Some matchDate =>
           checkThresholds trackedTeams m (minutesBetween matchDate now)
             MATCH_SOON_THRESHOLDS triggered
       end.

Fixpoint checkMatchStartsSoon (now : Z) (trackedTeams : gmap Z (gset nat))
    (matches : list Match) (triggered : gmap Z (gset Z))
  : gmap Z (gset Z) * list Event :=
  match matches with
  | [] => (triggered, [])
  | m :: rest =>
      let '(t1, out1) := checkMatch now trackedTeams m triggered in
      let '(t2, out2) := checkMatchStartsSoon now trackedTeams rest t1 in
      (t2, out1 ++ out2)
  end.

(** ** cleanupOldMatches *)

Definition staleEntry (now : Z) (cached : MatchState) : bool :=
  let twoHoursAgo := now - 2 * 60 * 60 * 1000 in
  if includes COMPLETED_STATUSES (st_status cached) then
    match st_utcDate cached with
    | None => false
    | Some matchDate =>
        let estimatedEnd := matchDate + 2 * 60 * 60 * 1000 in
        bool_decide (estimatedEnd < twoHoursAgo)
    end
  else false.

(** First loop: drop the threshold records of matches that are not in
    the current list. *)
Definition cleanupTriggered (currentMatches : list Match)
    (triggered : gmap Z (gset Z)) : gmap Z (gset Z) :=
  let currentMatchIds := map match_id currentMatches in
  filter (fun kv => fst kv ∈ currentMatchIds) triggered.

(** Second loop: drop the cache entries of completed matches whose
    estimated end is more than two hours ago. *)
Definition cleanupCache (now : Z) (matchCache : gmap Z MatchState)
  : gmap Z MatchState :=
  filter (fun kv => staleEntry now (snd kv) = false) matchCache.

Definition cleanupOldMatches (now : Z) (currentMatches : list Match)
    (triggered : gmap Z (gset Z)) (matchCache : gmap Z MatchState)
  : gmap Z (gset Z) * gmap Z MatchState :=
  (cleanupTriggered currentMatches triggered, cleanupCache now matchCache).

(** ** The host's timers and the manager's state *)

(** Pending timeouts of the host ([homey.setTimeout]): handle -> delay in
    milliseconds.  A handle leaves the table when it fires or is
    cleared. *)
Record Homey : Type := mkHomey {
  timeouts : gmap nat Z;
  nextTimeout : nat;
}.

Definition setTimeout (delay : Z) (h : Homey) : nat * Homey :=
  (nextTimeout h,
   mkHomey (<[nextTimeout h := delay]> (timeouts h)) (S (nextTimeout h))).

Definition clearTimeout (t : nat) (h : Homey) : Homey :=
  mkHomey (delete t (timeouts h)) (nextTimeout h).

Record MatchManager : Type := mkManager {
  trackedTeams : gmap Z (gset nat);
  matchCache : gmap Z MatchState;
  pollingState : POLLING_STATE;
  pollTimer : option nat;
  matchStartsSoonTriggered : gmap Z (gset Z);
}.

(** A poll suspended at [await this.api.getTodayMatches(...)]: its
    local [trackedTeamIds] and the priority it asked for. *)
Record Fetch : Type := mkFetch {
  fetch_trackedTeamIds : list Z;
  fetch_highPriority : bool;
}.

Record World : Type := mkWorld {
  manager : MatchManager;
  homey : Homey;
  inflight : list Fetch;
  emitted : list Event;
}.

(** The constructor's state. *)
Definition newManager : MatchManager :=
  mkManager ∅ ∅ IDLE None ∅.

Definition newWorld : World :=
  mkWorld newManager (mkHomey ∅ 0) [] [].

Definition getTrackedTeamIds (mm : MatchManager) : list Z :=
  elements (dom (trackedTeams mm)).

(** [POLLING_INTERVALS[this.pollingState] || POLLING_INTERVALS.IDLE];
    every state has a non-zero entry, so the right operand is never
    taken. *)
Definition getPollingInterval (mm : MatchManager) : Z :=
  POLLING_INTERVALS (pollingState mm).

Definition withTimer (mm : MatchManager) (t : option nat) : MatchManager :=
  mkManager (trackedTeams mm) (matchCache mm) (pollingState mm) t
    (matchStartsSoonTriggered mm).

Definition scheduleNextPoll (w : World) : World :=
  let h1 := match pollTimer (manager w) with
            | Some t => clearTimeout t (homey w)
            | None => homey w
            end in
  let interval := getPollingInterval (manager w) in
  let '(t, h2) := setTimeout interval h1 in
  mkWorld (withTimer (manager w) (Some t)) h2 (inflight w) (emitted w).

Definition stopPolling (w : World) : World :=
  match pollTimer (manager w) with
  | Some t =>
      mkWorld (withTimer (manager w) None) (clearTimeout t (homey w))
        (inflight w) (emitted w)
  | None => w
  end.

(** [poll], up to its [await]: either the zero-team branch runs to its
    [return], or the fetch is issued and the cycle is suspended. *)
Definition pollStart (w : World) : World :=
  let trackedTeamIds := getTrackedTeamIds (manager w) in
  if bool_decide (length trackedTeamIds = 0%nat) then scheduleNextPoll w
  else
    mkWorld (manager w) (homey w)
      (inflight w ++
         [mkFetch trackedTeamIds
            (bool_decide (pollingState (manager w) = LIVE))])
      (emitted w).

Definition relevantMatches (trackedTeamIds : list Z)
    (allMatches : list Match) : list Match :=
  List.filter
    (fun m => bool_decide (team_id (homeTeam m) ∈ trackedTeamIds)
              || bool_decide (team_id (awayTeam m) ∈ trackedTeamIds))
    allMatches.

(** [poll], from the [await] on.  [result] is [None] when the awaited
    fetch rejects (the [catch] branch), [Some allMatches] otherwise;
    [now] is the clock read by this part of the cycle. *)
Definition pollResume (f : Fetch) (result : option (list Match)) (now : Z)
    (w : World) : World :=
  match result with
  | Some allMatches =>
      let mm := manager w in
      let relevant := relevantMatches (fetch_trackedTeamIds f) allMatches in
      let '(cache1, out1) :=
        processMatchUpdates (trackedTeams mm) relevant (matchCache mm) in
      let '(trig1, out2) :=
        checkMatchStartsSoon now (trackedTeams mm) relevant
          (matchStartsSoonTriggered mm) in
      let '(trig2, cache2) := cleanupOldMatches now relevant trig1 cache1 in
      let newState := determinePollingState now relevant in
      let state2 :=
        if negb (bool_decide (newState = pollingState mm)) then newState
        else pollingState mm in
      scheduleNextPoll
        (mkWorld
           (mkManager (trackedTeams mm) cache2 state2 (pollTimer mm) trig2)
           (homey w) (inflight w) (emitted w ++ out1 ++ out2))
  | None =>
      let '(t, h) := setTimeout 60000 (homey w) in
      mkWorld (withTimer (manager w) (Some t)) h (inflight w) (emitted w)
  end.

Definition startPolling (w : World) : World :=
  match pollTimer (manager w) with
  | Some _ => w
  | None => pollStart w
  end.

Definition withTracked (mm : MatchManager) (tt : gmap Z (gset nat))
  : MatchManager :=
  mkManager tt (matchCache mm) (pollingState mm) (pollTimer mm)
    (matchStartsSoonTriggered mm).

Definition registerDevice (teamId : Z) (device : nat) (w : World) : World :=
  let mm := manager w in
  let tt1 := match trackedTeams mm !! teamId with
             | Some _ => trackedTeams mm
             | None => <[teamId := ∅]> (trackedTeams mm)
             end in
  let tt2 := <[teamId := {[device]} ∪ default ∅ (tt1 !! teamId)]> tt1 in
  let w1 := mkWorld (withTracked mm tt2) (homey w) (inflight w) (emitted w) in
  if bool_decide (size tt2 = 1%nat)
     && negb (bool_decide (is_Some (pollTimer mm)))
  then startPolling w1
  else w1.

Definition unregisterDevice (teamId : Z) (device : nat) (w : World) : World :=
  let mm := manager w in
  let tt1 := match trackedTeams mm !! teamId with
             | Some devices =>
                 let devices1 := devices ∖ {[device]} in
                 if bool_decide (size devices1 = 0%nat)
                 then delete teamId (trackedTeams mm)
                 else <[teamId := devices1]> (trackedTeams mm)
             | None => trackedTeams mm
             end in
  let w1 := mkWorld (withTracked mm tt1) (homey w) (inflight w) (emitted w) in
  if bool_decide (size tt1 = 0%nat) then stopPolling w1 else w1.

(** What can happen to the manager, one synchronous step at a time. *)
Inductive Action : Type :=
  | Register (teamId : Z) (device : nat)
  | Unregister (teamId : Z) (device : nat)
  | TimerFires (t : nat)
  | FetchSettles (k : nat) (result : option (list Match)) (now : Z).

Definition act (a : Action) (w : World) : World :=
  match a with
  | Register teamId device => registerDevice teamId device w
  | Unregister teamId device => unregisterDevice teamId device w
  | TimerFires t =>
      match timeouts (homey w) !! t with
      | Some _ =>
          pollStart
            (mkWorld (manager w)
               (mkHomey (delete t (timeouts (homey w)))
                  (nextTimeout (homey w)))
               (inflight w) (emitted w))
      | None => w
      end
  | FetchSettles k result now =>
      match inflight w !! k with
      | Some f =>
          pollResume f result now
            (mkWorld (manager w) (homey w) (delete k (inflight w))
               (emitted w))
      | None => w
      end
  end.

Definition run (actions : list Action) (w : World) : World :=
  fold_left (fun w a => act a w) actions w.

(** ** FootballAPI: the sliding-window rate limiter *)

Definition cleanExpiredTimestamps (now : Z) (requestTimestamps : list Z)
  : list Z :=
  let oneMinuteAgo := now - 60000 in
  List.filter (fun ts => bool_decide (ts > oneMinuteAgo)) requestTimestamps.

(** Returns the answer and the cleaned [requestTimestamps]. *)
Definition canMakeRequest (now : Z) (highPriority : bool)
    (requestTimestamps : list Z) : bool * list Z :=
  let ts := cleanExpiredTimestamps now requestTimestamps in
  let limit :=
    if highPriority then RATE_LIMIT else RATE_LIMIT - RATE_LIMIT_BUFFER in
  (bool_decide (Z.of_nat (length ts) < limit), ts).

(** Where a call of [request] stands between two synchronous runs. *)
Inductive Caller : Type :=
  | Rejected
  | Sleeping (highPriority : bool) (wakeAt : Z)
  | Fetching (highPriority : bool) (sentAt : Z)
  | Returned (highPriority : bool) (sentAt : Z)
  | Threw (highPriority : bool) (sentAt : Z).

(** The [while (!this.canMakeRequest(highPriority))] loop and the push
    after it, run at clock reading [now] until the call suspends:
    either at [await this.sleep(waitTime)] or at [await fetch(...)].
    [requestTimestamps[0]] of an empty array is [undefined]; [waitTime]
    is then [NaN] and the sleep is skipped. *)
Fixpoint requestLoop (fuel : nat) (now : Z) (highPriority : bool)
    (requestTimestamps : list Z) : option (Caller * list Z) :=
  match fuel with
  | O => None
  | S fuel' =>
      let '(ok, ts) := canMakeRequest now highPriority requestTimestamps in
      if ok then Some (Fetching highPriority now, ts ++ [now])
      else
        match head ts with
        | Some oldestTimestamp =>
            let waitTime := oldestTimestamp + 60000 - now + 100 in
            if bool_decide (waitTime > 0)
            then Some (Sleeping highPriority (now + waitTime), ts)
            else requestLoop fuel' now highPriority
                   (cleanExpiredTimestamps now ts)
        | None =>
            requestLoop fuel' now highPriority
              (cleanExpiredTimestamps now ts)
        end
  end.

Record FootballAPI : Type := mkAPI {
  apiKey : option string;
  requestTimestamps : list Z;
  clock : Z;
  callers : list Caller;
  transmitted : list (Z * bool);
}.

Definition newAPI (key : option string) (start : Z) : FootballAPI :=
  mkAPI key [] start [] [].

(** The requests handed to [fetch]: instant and priority. *)
Definition sends (c : Caller) : list (Z * bool) :=
  match c with
  | Fetching hp t => [(t, hp)]
  | _ => []
  end.

(** The negation of [!this.apiKey]: a missing key and the empty string
    are both falsy. *)
Definition configured (key : option string) : bool :=
  match key with
  | Some k => negb (bool_decide (k = ""))
  | None => false
  end.

(** [request(path, options, highPriority)] from its first line to its
    first suspension. *)
Definition request (fuel : nat) (highPriority : bool) (api : FootballAPI)
  : option FootballAPI :=
  if negb (configured (apiKey api)) then
    Some (mkAPI (apiKey api) (requestTimestamps api) (clock api)
            (callers api ++ [Rejected]) (transmitted api))
  else
    match requestLoop fuel (clock api) highPriority
            (requestTimestamps api) with
    | Some (c, ts) =>
        Some (mkAPI (apiKey api) ts (clock api) (callers api ++ [c])
                (transmitted api ++ sends c))
    | None => None
    end.

(** The sleep of caller [i] ends: [cleanExpiredTimestamps], then the
    loop condition again.  The timer cannot fire before [wakeAt]. *)
Definition wake (fuel : nat) (i : nat) (api : FootballAPI)
  : option FootballAPI :=
  match callers api !! i with
  | Some (Sleeping highPriority wakeAt) =>
      if bool_decide (wakeAt <= clock api) then
        match requestLoop fuel (clock api) highPriority
                (cleanExpiredTimestamps (clock api)
                   (requestTimestamps api)) with
        | Some (c, ts) =>
            Some (mkAPI (apiKey api) ts (clock api)
                    (<[i := c]> (callers api))
                    (transmitted api ++ sends c))
        | None => None
        end
      else Some api
  | _ => Some api
  end.

(** The [fetch] of caller [i] settles; [ok = false] covers a rejected
    fetch and a non-2xx response, which [request] rethrows. *)
Definition settle (i : nat) (ok : bool) (api : FootballAPI) : FootballAPI :=
  match callers api !! i with
  | Some (Fetching highPriority sentAt) =>
      mkAPI (apiKey api) (requestTimestamps api) (clock api)
        (<[i := if ok then Returned highPriority sentAt
                else Threw highPriority sentAt]> (callers api))
        (transmitted api)
  | _ => api
  end.

Inductive ApiStep : Type :=
  | Call (highPriority : bool)
  | Wake (i : nat)
  | Settle (i : nat) (ok : bool)
  | Elapse (ms : nat)
  | SetApiKey (key : option string).

Definition apiStep (fuel : nat) (s : ApiStep) (api : FootballAPI)
  : option FootballAPI :=
  match s with
  | Call highPriority => request fuel highPriority api
  | Wake i => wake fuel i api
  | Settle i ok => Some (settle i ok api)
  | Elapse ms =>
      Some (mkAPI (apiKey api) (requestTimestamps api)
              (clock api + Z.of_nat ms) (callers api) (transmitted api))
  | SetApiKey key =>
      Some (mkAPI key (requestTimestamps api) (clock api) (callers api)
              (transmitted api))
  end.

Fixpoint apiRun (fuel : nat) (steps : list ApiStep) (api : FootballAPI)
  : option FootballAPI :=
  match steps with
  | [] => Some api
  | s :: rest =>
      match apiStep fuel s api with
      | Some api1 => apiRun fuel rest api1
      | None => None
      end
  end.

(** Requests sent in the window [(T - 60000, T]]. *)
Definition inWindow (T : Z) (sent : Z * bool) : bool :=
  bool_decide (T - 60000 < fst sent) && bool_decide (fst sent <= T).

Definition requestsInWindow (T : Z) (log : list (Z * bool)) : nat :=
  length (List.filter (inWindow T) log).

Definition lowPriorityInWindow (T : Z) (log : list (Z * bool)) : nat :=
  length (List.filter (fun s => inWindow T s && negb (snd s)) log).

(** ** The buckets of the scheduler, as propositions *)

Definition upcomingStatus (m : Match) : Prop :=
  match_status m = MATCH_STATUS.SCHEDULED
  \/ match_status m = MATCH_STATUS.TIMED.

Definition completedStatus (m : Match) : Prop :=
  match_status m = MATCH_STATUS.FINISHED
  \/ match_status m = MATCH_STATUS.AWARDED.

(** Upcoming status, kickoff strictly between 0 and 120 minutes ago. *)
Definition delayedKickoff (now : Z) (m : Match) : Prop :=
  upcomingStatus m /\
  exists kickoff, match_utcDate m = Some kickoff
    /\ 0 < now - kickoff /\ now - kickoff < 120 * 60000.

(** Terminal status, kickoff + 2 h within the last 15 minutes. *)
Definition recentlyFinished (now : Z) (m : Match) : Prop :=
  completedStatus m /\
  exists kickoff, match_utcDate m = Some kickoff
    /\ 0 <= now - (kickoff + 7200000)
    /\ now - (kickoff + 7200000) < 15 * 60000.

(** Upcoming status, kickoff within the next two hours. *)
Definition kickoffSoon (now : Z) (m : Match) : Prop :=
  upcomingStatus m /\
  exists kickoff, match_utcDate m = Some kickoff
    /\ 0 < kickoff - now /\ kickoff - now <= 2 * 3600000.

Definition some (P : Match -> Prop) (matches : list Match) : Prop :=
  exists m, In m matches /\ P m.

Definition inPlay (m : Match) : Prop :=
  match_status m = MATCH_STATUS.IN_PLAY.

Definition paused (m : Match) : Prop :=
  match_status m = MATCH_STATUS.PAUSED.

(** ** Sample data *)

Definition arsenal : Team := mkTeam 57 "Arsenal FC" (Some "Arsenal").
Definition chelsea : Team := mkTeam 61 "Chelsea FC" (Some "Chelsea").
Definition everton : Team := mkTeam 62 "Everton FC" (Some "Everton").
Definition fulham : Team := mkTeam 63 "Fulham FC" (Some "Fulham").

(** Match 1: Arsenal v Chelsea, kickoff at [kickoff]. *)
Definition match1 (status : string) (kickoff : Z) (home away : Z) : Match :=
  mkMatch 1 status (Some kickoff) (Some home) (Some away) arsenal chelsea
    None (Some "Premier League").

(** Match 2: Everton v Fulham. *)
Definition match2 (status : string) (kickoff : Z) (home away : Z) : Match :=
  mkMatch 2 status (Some kickoff) (Some home) (Some away) everton fulham
    None (Some "Premier League").

(** At instant 6000000 ms: match 1 is at half time, match 2 kicked off
    ten minutes ago and is still reported as TIMED. *)
Definition halftimeAndDelayed : list Match :=
  [match1 "PAUSED" 3000000 1 0; match2 "TIMED" 5400000 0 0].

(** ** What the rate limiter maintains *)

Definition countAfter (L : Z) (l : list Z) : nat :=
  length (List.filter (fun ts => bool_decide (ts > L)) l).

(** Every request sent is in the past; inside the current window the
    array [requestTimestamps] holds exactly the requests sent; no window
    holds more than the quotas. *)
Definition apiInvariant (api : FootballAPI) : Prop :=
  Forall (fun s => fst s <= clock api) (transmitted api)
  /\ (forall L, clock api - 60000 <= L ->
        countAfter L (map fst (transmitted api))
        = countAfter L (requestTimestamps api))
  /\ (forall T,
        (requestsInWindow T (transmitted api)
         <= Z.to_nat RATE_LIMIT)%nat
        /\ (lowPriorityInWindow T (transmitted api)
            <= Z.to_nat (RATE_LIMIT - RATE_LIMIT_BUFFER))%nat).

(** Eight low-priority requests sent at instants 1..8. *)
Definition eightSent : list Z := [1; 2; 3; 4; 5; 6; 7; 8].

(** ** The one-shot markers and the events they guard *)

Inductive OneShot : Type := Kickoff | Halftime | SecondHalf | Finished.

Definition marker (k : OneShot) (e : Markers) : bool :=
  match k with
  | Kickoff => kickoffTriggered e
  | Halftime => halftimeTriggered e
  | SecondHalf => secondHalfTriggered e
  | Finished => finishedTriggered e
  end.

Definition guardedEvents (k : OneShot) : list EVENTS :=
  match k with
  | Kickoff => [MATCH_KICKOFF]
  | Halftime => [HALFTIME_STARTED]
  | SecondHalf => [SECOND_HALF_STARTED]
  | Finished => [MATCH_FINISHED; TEAM_WON; TEAM_LOST; TEAM_DREW]
  end.

(** Successive runs of the detector, each with the teams tracked at that
    time and the matches fetched, over one cache. *)
Fixpoint detectorRuns (runs : list (gmap Z (gset nat) * list Match))
    (matchCache : gmap Z MatchState) : gmap Z MatchState * list Event :=
  match runs with
  | [] => (matchCache, [])
  | (trackedTeams, matches) :: rest =>
      let '(cache1, out1) :=
        processMatchUpdates trackedTeams matches matchCache in
      let '(cache2, out2) := detectorRuns rest cache1 in
      (cache2, out1 ++ out2)
  end.

(** All events of [out] are about match [m] and named in [names]. *)
Definition namedIn (names : list EVENTS) (m : Match) (out : list Event)
  : Prop :=
  Forall (fun e => In (ev_name e) names /\ ev_match e = m) out.

Definition bothTracked : gmap Z (gset nat) :=
  {[ 57 := {[ 0%nat ]}; 61 := {[ 1%nat ]} ]}.

(** Marker [k] of match [id] is set in the cache. *)
Definition latched (id : Z) (k : OneShot) (matchCache : gmap Z MatchState)
  : Prop :=
  exists st, matchCache !! id = Some st /\ marker k (events st) = true.

(** [e] is not an event of match [id] guarded by marker [k]. *)
Definition silentFor (id : Z) (k : OneShot) (e : Event) : Prop :=
  match_id (ev_match e) = id -> ~ In (ev_name e) (guardedEvents k).

(** Whatever marker guards [e] is set for [e]'s match in the cache. *)
Definition latchedBy (matchCache : gmap Z MatchState) (e : Event) : Prop :=
  forall k, In (ev_name e) (guardedEvents k) ->
    latched (match_id (ev_match e)) k matchCache.

(** Match 1 seen for the first time while IN_PLAY at 0-0. *)
Definition liveSnapshot : Match := match1 "IN_PLAY" 3000000 0 0.

Definition cacheAfterKickoff : gmap Z MatchState :=
  (processMatchUpdates bothTracked [liveSnapshot] ∅).1.

(** ** Counting goal events against score increases *)

Definition isEvent (name : EVENTS) (teamId id : Z) (e : Event) : bool :=
  bool_decide (ev_name e = name) && bool_decide (ev_teamId e = teamId)
  && bool_decide (match_id (ev_match e) = id).

(** Events called [name] delivered for team [teamId] about match [id]. *)
Definition countEvents (name : EVENTS) (teamId id : Z) (out : list Event)
  : nat :=
  length (List.filter (isEvent name teamId id) out).

(** Sides of [m] played by [teamId] whose score is strictly above the
    cached one (0 or 1 when the two sides are different teams). *)
Definition sideIncreases (teamId : Z) (m : Match) (cached : MatchState)
  : nat :=
  (if bool_decide (team_id (homeTeam m) = teamId)
      && bool_decide (orZero (match_home m) > homeScore cached)
   then 1 else 0)
  + (if bool_decide (team_id (awayTeam m) = teamId)
        && bool_decide (orZero (match_away m) > awayScore cached)
     then 1 else 0).

(** The same for the side opposing [teamId]. *)
Definition opponentIncreases (teamId : Z) (m : Match) (cached : MatchState)
  : nat :=
  (if bool_decide (team_id (awayTeam m) = teamId)
      && bool_decide (orZero (match_home m) > homeScore cached)
   then 1 else 0)
  + (if bool_decide (team_id (homeTeam m) = teamId)
        && bool_decide (orZero (match_away m) > awayScore cached)
     then 1 else 0).

(** A strict increase versus the cached score, as the specification
    counts it: any snapshot of match [id] that has a cache entry. *)
Definition strictIncrease (count : Z -> Match -> MatchState -> nat)
    (teamId id : Z) (trackedTeams : gmap Z (gset nat)) (m : Match)
    (matchCache : gmap Z MatchState) : nat :=
  match matchCache !! match_id m with
  | Some cached =>
      if bool_decide (match_id m = id) then count teamId m cached else 0%nat
  | None => 0%nat
  end.

(** A strict increase the detector looks at: the fetched status is
    IN_PLAY or PAUSED, and [teamId] has a registered device. *)
Definition reportedIncrease (count : Z -> Match -> MatchState -> nat)
    (teamId id : Z) (trackedTeams : gmap Z (gset nat)) (m : Match)
    (matchCache : gmap Z MatchState) : nat :=
  match matchCache !! match_id m with
  | Some cached =>
      if bool_decide (match_id m = id)
         && includes LIVE_STATUSES (match_status m)
         && bool_decide (is_Some (trackedTeams !! teamId))
      then count teamId m cached else 0%nat
  | None => 0%nat
  end.

(** Sum of [f] over the snapshots of one run, each measured against the
    cache as the detector has left it so far. *)
Fixpoint sumOverMatches
    (f : gmap Z (gset nat) -> Match -> gmap Z MatchState -> nat)
    (trackedTeams : gmap Z (gset nat)) (matches : list Match)
    (matchCache : gmap Z MatchState) : nat :=
  match matches with
  | [] => 0%nat
  | m :: rest =>
      (f trackedTeams m matchCache
       + sumOverMatches f trackedTeams rest
           (processMatch trackedTeams m matchCache).1)%nat
  end.

Fixpoint sumOverRuns
    (f : gmap Z (gset nat) -> Match -> gmap Z MatchState -> nat)
    (runs : list (gmap Z (gset nat) * list Match))
    (matchCache : gmap Z MatchState) : nat :=
  match runs with
  | [] => 0%nat
  | (trackedTeams, matches) :: rest =>
      (sumOverMatches f trackedTeams matches matchCache
       + sumOverRuns f rest
           (processMatchUpdates trackedTeams matches matchCache).1)%nat
  end.

(** Match 1 cached IN_PLAY at 0-0; the next cycle fetches it FINISHED at
    1-0 (a goal in the last minutes). *)
Definition lateGoal : list (gmap Z (gset nat) * list Match) :=
  [(bothTracked, [match1 "FINISHED" 3000000 1 0])].

(** The events the status-change detection can emit. *)
Definition statusEvents : list EVENTS :=
  [MATCH_KICKOFF; HALFTIME_STARTED; SECOND_HALF_STARTED; MATCH_FINISHED;
   TEAM_WON; TEAM_LOST; TEAM_DREW].


(** ** A race between an in-flight cycle and the last unregistration *)

(** Team 57 registers its only device and the first cycle finds match 1
    IN_PLAY; the timer of the second cycle fires and its fetch is in
    flight when the device unregisters; then the fetch settles. *)
Definition unregisterDuringFetch : list Action :=
  [Register 57 0;
   FetchSettles 0 (Some [liveSnapshot]) 3600000;
   TimerFires 0;
   Unregister 57 0;
   FetchSettles 0 (Some [liveSnapshot]) 3630000].

Definition afterRace : World := run unregisterDuringFetch newWorld.

(** ** "Match starts soon": records, cycles and what the claims say *)

(** Thresholds already fired for match [id]. *)
Definition firedFor (triggered : gmap Z (gset Z)) (id : Z) : gset Z :=
  default ∅ (triggered !! id).

(** [minutesUntil <= threshold && minutesUntil > 0] *)
Definition inRange (minutesUntil : Q) (threshold : Z) : bool :=
  Qle_bool minutesUntil (inject_Z threshold) && Qltb 0 minutesUntil.

(** Minutes until kickoff lie in [(0, T]]. *)
Definition withinThreshold (now : Z) (m : Match) (T : Z) : Prop :=
  exists kickoff, match_utcDate m = Some kickoff
    /\ 0 < kickoff - now /\ kickoff - now <= T * 60000.

(** [e] is a [match_starts_soon] event of match [id] carrying [T]. *)
Definition isSoonEvent (id T : Z) (e : Event) : Prop :=
  ev_name e = MATCH_STARTS_SOON /\ match_id (ev_match e) = id
  /\ ev_payload e = Minutes T.

(** The part of a cycle that concerns the thresholds:
    [checkMatchStartsSoon], then the first loop of
    [cleanupOldMatches]. *)
Definition soonCycle (now : Z) (trackedTeams : gmap Z (gset nat))
    (matches : list Match) (triggered : gmap Z (gset Z))
  : gmap Z (gset Z) * list Event :=
  let '(t1, out) := checkMatchStartsSoon now trackedTeams matches triggered in
  (cleanupTriggered matches t1, out).

Fixpoint soonCycles (cycles : list (Z * gmap Z (gset nat) * list Match))
    (triggered : gmap Z (gset Z)) : gmap Z (gset Z) * list Event :=
  match cycles with
  | [] => (triggered, [])
  | (now, trackedTeams, matches) :: rest =>
      let '(t1, out1) := soonCycle now trackedTeams matches triggered in
      let '(t2, out2) := soonCycles rest t1 in
      (t2, out1 ++ out2)
  end.

(** Match [id] is in the list of every cycle. *)
Definition presentIn (id : Z)
    (cycles : list (Z * gmap Z (gset nat) * list Match)) : Prop :=
  Forall (fun c => In id (map match_id (snd c))) cycles.

(** Every configured threshold from [T1] upwards has fired for [id]. *)
Definition closedAbove (triggered : gmap Z (gset Z)) (id T1 : Z) : Prop :=
  forall T, In T MATCH_SOON_THRESHOLDS -> T1 <= T ->
    T ∈ firedFor triggered id.

(** The events [checkThresholds] emits when no threshold repeats. *)
Definition soonEvents (trackedTeams : gmap Z (gset nat)) (m : Match)
    (minutesUntil : Q) (fired : gset Z) (thresholds : list Z)
  : list Event :=
  flat_map
    (fun threshold =>
       if inRange minutesUntil threshold
          && negb (bool_decide (threshold ∈ fired))
       then emitForTeams trackedTeams
              [team_id (homeTeam m); team_id (awayTeam m)]
              MATCH_STARTS_SOON m (Minutes threshold)
       else [])
    thresholds.

Definition evertonTracked : gmap Z (gset nat) := {[ 62 := {[ 0%nat ]} ]}.

(** Match 2, TIMED, kicks off at 5400000; at instant 4200000 that is
    twenty minutes ahead. *)
Definition upcomingSnapshot : Match := match2 "TIMED" 5400000 0 0.

(** Match 1 cached at 2-1, then fetched IN_PLAY at 1-1: the second home
    goal was disallowed. *)
Definition cacheAtTwoOne : gmap Z MatchState :=
  (processMatchUpdates bothTracked [match1 "IN_PLAY" 3000000 2 1] ∅).1.

Definition disallowedGoal : Match := match1 "IN_PLAY" 3000000 1 1.

(** The [match_result_changed] event for one side of [m]. *)
Definition resultChanged (m : Match) (isHomeTeam : bool) : Event :=
  let newHome := orZero (match_home m) in
  let newAway := orZero (match_away m) in
  let team := if isHomeTeam then homeTeam m else awayTeam m in
  let opponent := if isHomeTeam then awayTeam m else homeTeam m in
  mkEvent MATCH_RESULT_CHANGED (team_id team) m
    (ResultChange
       (if isHomeTeam then getResultState newHome newAway
        else getResultState newAway newHome)
       (newHome, newAway)
       (orName (team_shortName opponent) (team_name opponent))
       (orZero (match_minute m))
       (if isHomeTeam then newHome else newAway)
       (if isHomeTeam then newAway else newHome)).

(** ** Invariants of the manager over every sequence of actions *)

(** Something will call [poll] again: a timer is pending or a cycle is
    suspended at its fetch. *)
Definition loopAlive (w : World) : Prop :=
  timeouts (homey w) <> ∅ \/ inflight w <> [].

Definition loopInvariant (w : World) : Prop :=
  (is_Some (pollTimer (manager w)) -> loopAlive w)
  /\ (trackedTeams (manager w) <> ∅ -> loopAlive w).

(** No team is tracked with an empty set of devices. *)
Definition devicesNonEmpty (tt : gmap Z (gset nat)) : Prop :=
  forall teamId devices, tt !! teamId = Some devices -> devices <> ∅.

(** Timer handles are handed out in increasing order. *)
Definition handlesFresh (w : World) : Prop :=
  (forall t, is_Some (timeouts (homey w) !! t) ->
     (t < nextTimeout (homey w))%nat)
  /\ (forall t, pollTimer (manager w) = Some t ->
        (t < nextTimeout (homey w))%nat).

(** An entry that [cleanupOldMatches] evicts: completed status and
    kickoff more than four hours before [now]. *)
Definition staleAt (now : Z) (cached : MatchState) : Prop :=
  (st_status cached = MATCH_STATUS.FINISHED
   \/ st_status cached = MATCH_STATUS.AWARDED)
  /\ exists kickoff, st_utcDate cached = Some kickoff
       /\ kickoff + 7200000 < now - 7200000.

(** Match 1 finished 2-1; kickoff was five hours before instant
    21000000. *)
Definition oldResult : Match := match1 "FINISHED" 3000000 2 1.

(** [e] is addressed to a team that has a registered device and plays in
    the match the event is about. *)
Definition deliveredTo (tt : gmap Z (gset nat)) (e : Event) : Prop :=
  is_Some (tt !! ev_teamId e)
  /\ (ev_teamId e = team_id (homeTeam (ev_match e))
      \/ ev_teamId e = team_id (awayTeam (ev_match e))).

(** What [handleStatusChange] reacts to. *)
Definition kickoffSeen (m : Match) (cached : MatchState) : Prop :=
  match_status m = MATCH_STATUS.IN_PLAY
  /\ includes UPCOMING_STATUSES (st_status cached) = true
  /\ kickoffTriggered (events cached) = false.

Definition secondHalfSeen (m : Match) (cached : MatchState) : Prop :=
  match_status m = MATCH_STATUS.IN_PLAY
  /\ includes UPCOMING_STATUSES (st_status cached) = false
  /\ st_status cached = MATCH_STATUS.PAUSED
  /\ secondHalfTriggered (events cached) = false.

Definition halftimeSeen (m : Match) (cached : MatchState) : Prop :=
  match_status m = MATCH_STATUS.PAUSED
  /\ halftimeTriggered (events cached) = false.

Definition finishSeen (m : Match) (cached : MatchState) : Prop :=
  (match_status m = MATCH_STATUS.FINISHED
   \/ match_status m = MATCH_STATUS.AWARDED)
  /\ finishedTriggered (events cached) = false.

(** The state a side is in once the other side's state is known. *)
Definition mirror (s : ResultState) : ResultState :=
  match s with
  | winning => losing
  | losing => winning
  | drawing => drawing
  end.

(** ** More on the rate limiter's state *)

(** [requestTimestamps] is in sending order and holds no instant of the
    future. *)
Definition timestampsOrdered (api : FootballAPI) : Prop :=
  StronglySorted Z.le (requestTimestamps api)
  /\ Forall (fun ts => ts <= clock api) (requestTimestamps api).

(** Calls whose request has been handed to [fetch]. *)
Definition hasSent (c : Caller) : bool :=
  match c with
  | Fetching _ _ | Returned _ _ | Threw _ _ => true
  | Rejected | Sleeping _ _ => false
  end.

Definition sentCount (cs : list Caller) : nat :=
  length (List.filter hasSent cs).

(** The quota a call of this priority is measured against. *)
Definition quota (highPriority : bool) : Z :=
  if highPriority then RATE_LIMIT else RATE_LIMIT - RATE_LIMIT_BUFFER.

Definition isCall (s : ApiStep) : bool :=
  match s with Call _ => true | _ => false end.

Definition setsKey (s : ApiStep) : bool :=
  match s with SetApiKey _ => true | _ => false end.

(** No key configured, nothing sent or recorded, every call rejected. *)
Definition keyless (api : FootballAPI) : Prop :=
  configured (apiKey api) = false
  /\ transmitted api = [] /\ requestTimestamps api = []
  /\ Forall (fun c => c = Rejected) (callers api).

(** ** MatchManager.getTeamNextMatch *)

(** The comparator [(a, b) => new Date(a.utcDate) - new Date(b.utcDate)];
    a difference with an unparsable date is [NaN], which [sort] treats
    as [+0]. *)
Definition compareKickoff (a b : Match) : Z :=
  match match_utcDate a, match_utcDate b with
  | Some x, Some y => x - y
  | _, _ => 0
  end.

(** [Array.prototype.sort] is stable; this is the stable sort by the
    comparator. *)
Fixpoint insertByKickoff (x : Match) (sorted : list Match) : list Match :=
  match sorted with
  | [] => [x]
  | y :: rest =>
      if bool_decide (compareKickoff x y <= 0) then x :: y :: rest
      else y :: insertByKickoff x rest
  end.

Definition sortByKickoff (matches : list Match) : list Match :=
  foldr insertByKickoff [] matches.

(** [getTeamNextMatch] once [getTeamMatches] has answered with
    [matches]: sort ascending, [matches[0] || null]. *)
Definition getTeamNextMatch (matches : list Match) : option Match :=
  head (sortByKickoff matches).

(** ** TeamDevice: the conditions of the flow cards *)

(** The part of [isWinning]/[isLosing]/[isDrawing] they share: [cached]
    is the answer of [getTeamLiveMatch], [today] that of
    [getTeamMatchToday]. *)
Definition matchToday (cached today : option MatchState)
  : option MatchState :=
  match cached with
  | Some c => Some c
  | None => today
  end.

Definition isLive (cached : option MatchState) (m : MatchState) (now : Z)
  : bool :=
  match cached with
  | Some _ => true
  | None =>
      match st_utcDate m with
      | Some kickoffTime =>
          let minutesSinceKickoff := minutesBetween now kickoffTime in
          Qltb 0 minutesSinceKickoff
          && Qltb minutesSinceKickoff (inject_Z 120)
      | None => false
      end
  end.

Definition isWinning (cached today : option MatchState) (now teamId : Z)
  : bool :=
  match matchToday cached today with
  | None => false
  | Some m =>
      if negb (isLive cached m now) then false
      else
        let isHome := bool_decide (homeTeamId m = teamId) in
        if isHome then bool_decide (homeScore m > awayScore m)
        else bool_decide (awayScore m > homeScore m)
  end.

Definition isLosing (cached today : option MatchState) (now teamId : Z)
  : bool :=
  match matchToday cached today with
  | None => false
  | Some m =>
      if negb (isLive cached m now) then false
      else
        let isHome := bool_decide (homeTeamId m = teamId) in
        if isHome then bool_decide (homeScore m < awayScore m)
        else bool_decide (awayScore m < homeScore m)
  end.

Definition isDrawing (cached today : option MatchState) (now teamId : Z)
  : bool :=
  match matchToday cached today with
  | None => false
  | Some m =>
      if negb (isLive cached m now) then false
      else bool_decide (homeScore m = awayScore m)
  end.

(** [isMyEvent] and [getOpponentInfo] of the device for team [teamId]. *)
Definition isMyEvent (teamId : Z) (e : Event) : bool :=
  bool_decide (ev_teamId e = teamId).

Definition getOpponentInfo (teamId : Z) (m : Match) : string * bool :=
  let isHome := bool_decide (team_id (homeTeam m) = teamId) in
  let opponent := if isHome then awayTeam m else homeTeam m in
  (orName (team_shortName opponent) (team_name opponent), isHome).

(** Two fixtures of Arsenal: at Everton on day 2, at home to Chelsea on
    day 1. *)
Definition laterFixture : Match :=
  mkMatch 11 "TIMED" (Some 172800000) None None everton arsenal None None.
Definition soonerFixture : Match :=
  mkMatch 12 "TIMED" (Some 86400000) None None arsenal chelsea None None.

(** ** TeamDevice: the result cards *)

Definition formatScore (home away : Z) : string :=
  pretty home +:+ "-" +:+ pretty away.

Record ResultTokens : Type := mkResultTokens {
  final_score : string;
  tok_opponent : string;
  tok_competition : string;
  team_goals : Z;
  opponent_goals : Z;
}.

(** The tokens [onTeamWon] and [onTeamLost] build from [data.match]. *)
Definition resultTokens (teamId : Z) (m : Match) : ResultTokens :=
  let '(opponent, isHome) := getOpponentInfo teamId m in
  let homeScore := orZero (match_home m) in
  let awayScore := orZero (match_away m) in
  let score := formatScore homeScore awayScore in
  let teamGoals := if isHome then homeScore else awayScore in
  let opponentGoals := if isHome then awayScore else homeScore in
  mkResultTokens score opponent (default "" (match_competition m))
    teamGoals opponentGoals.

(** The listeners of TEAM_WON and TEAM_LOST: the flow card triggered and
    its tokens, [None] when the handler returns at [isMyEvent]. *)
Definition onTeamWon (teamId : Z) (data : Event)
  : option (string * ResultTokens) :=
  if negb (isMyEvent teamId data) then None
  else Some ("team_won", resultTokens teamId (ev_match data)).

Definition onTeamLost (teamId : Z) (data : Event)
  : option (string * ResultTokens) :=
  if negb (isMyEvent teamId data) then None
  else Some ("team_lost", resultTokens teamId (ev_match data)).

(** ** FootballAPI: the team cache *)

Record Competition : Type := mkCompetition {
  comp_code : string;
  comp_name : string;
  comp_country : string;
}.

Definition FREE_TIER_COMPETITIONS : list Competition :=
  [ mkCompetition "PL" "Premier League" "England";
    mkCompetition "BL1" "Bundesliga" "Germany";
    mkCompetition "SA" "Serie A" "Italy";
    mkCompetition "PD" "La Liga" "Spain";
    mkCompetition "FL1" "Ligue 1" "France";
    mkCompetition "DED" "Eredivisie" "Netherlands";
    mkCompetition "PPL" "Primeira Liga" "Portugal";
    mkCompetition "ELC" "Championship" "England";
    mkCompetition "CL" "Champions League" "Europe";
    mkCompetition "EC" "European Championship" "Europe";
    mkCompetition "WC" "World Cup" "International" ].

(** A team of a [/competitions/{code}/teams] answer. *)
Record ApiTeam : Type := mkApiTeam {
  api_id : Z;
  api_name : string;
  api_shortName : option string;
  api_tla : option string;
  api_crest : option string;
}.

(** An entry of [teamCache]. *)
Record CachedTeam : Type := mkCachedTeam {
  ct_id : Z;
  ct_name : string;
  ct_shortName : option string;
  ct_tla : option string;
  ct_crest : option string;
  ct_competition : string;
  ct_competitionCode : string;
}.

(** How a [fetch] ends: a response with its status, its text and the
    [teams] of its JSON, or a rejection (also a body that does not
    parse) with the error's message. *)
Inductive FetchOutcome : Type :=
  | Responded (status : Z) (text : string) (teams : option (list ApiTeam))
  | FetchFailed (message : string).

(** [s.startsWith(needle)] and [s.includes(needle)]. *)
Fixpoint startsWith (s needle : string) : bool :=
  match needle with
  | EmptyString => true
  | String a needle' =>
      match s with
      | EmptyString => false
      | String b s' => bool_decide (a = b) && startsWith s' needle'
      end
  end.

Fixpoint stringIncludes (s needle : string) : bool :=
  startsWith s needle
  || match s with
     | EmptyString => false
     | String _ s' => stringIncludes s' needle
     end.

(** The error [request] throws for a response that is not [ok]. *)
Definition responseError (status : Z) (errorBody : string) : string :=
  if bool_decide (status = 429) then "Rate limit exceeded"
  else if bool_decide (status = 403)
       then "Invalid API key or access denied"
       else "API error " +:+ pretty status +:+ ": " +:+ errorBody.

(** [request] from [fetch] on: the message thrown, or the JSON. *)
Definition responseJson (o : FetchOutcome)
  : string + option (list ApiTeam) :=
  match o with
  | FetchFailed message => inl message
  | Responded status text teams =>
      if negb (bool_decide (200 <= status <= 299))
      then inl (responseError status text)
      else inr teams
  end.

(** [getCompetitionTeams(code)]: what it throws or returns, and the
    codes fetched.  [answer] is what the remote side does with the
    request for a competition. *)
Definition getCompetitionTeams (key : option string)
    (answer : string -> FetchOutcome) (competitionCode : string)
  : (string + list ApiTeam) * list string :=
  if negb (configured key) then (inl "API key not configured", [])
  else
    (match responseJson (answer competitionCode) with
     | inl message => inl message
     | inr teams => inr (default [] teams)
     end, [competitionCode]).

Definition cacheEntry (competition : Competition) (team : ApiTeam)
  : CachedTeam :=
  mkCachedTeam (api_id team) (api_name team) (api_shortName team)
    (api_tla team) (api_crest team) (comp_name competition)
    (comp_code competition).

(** [for (const team of response.teams) this.teamCache[team.id] = ...] *)
Definition cacheTeams (competition : Competition) (teams : list ApiTeam)
    (cache : gmap Z CachedTeam) : gmap Z CachedTeam :=
  foldl (fun c team => <[api_id team := cacheEntry competition team]> c)
    cache teams.

(** The loop of [doLoadTeamCache] over the competitions left. *)
Fixpoint loadCompetitions (key : option string)
    (answer : string -> FetchOutcome) (competitions : list Competition)
    (cache : gmap Z CachedTeam) (fetched : list string)
  : gmap Z CachedTeam * list string :=
  match competitions with
  | [] => (cache, fetched)
  | competition :: rest =>
      let '(result, sent) :=
        getCompetitionTeams key answer (comp_code competition) in
      match result with
      | inr teams =>
          loadCompetitions key answer rest
            (cacheTeams competition teams cache) (fetched ++ sent)
      | inl message =>
          if stringIncludes message "Rate limit"
          then (cache, fetched ++ sent)
          else loadCompetitions key answer rest cache (fetched ++ sent)
      end
  end.

Record TeamCache : Type := mkTeamCache {
  teamCache : option (gmap Z CachedTeam);
  teamCacheExpiry : option Z;
}.

Definition noTeamCache : TeamCache := mkTeamCache None None.

(** [doLoadTeamCache]; [finished] is the clock when the loop is left. *)
Definition doLoadTeamCache (key : option string)
    (answer : string -> FetchOutcome) (finished : Z)
  : TeamCache * gmap Z CachedTeam * list string :=
  let '(cache, fetched) :=
    loadCompetitions key answer FREE_TIER_COMPETITIONS ∅ [] in
  (mkTeamCache (Some cache) (Some (finished + 24 * 60 * 60 * 1000)),
   cache, fetched).

(** [loadTeamCache] called at [now] while no other load is under way. *)
Definition loadTeamCache (key : option string)
    (answer : string -> FetchOutcome) (now finished : Z) (api : TeamCache)
  : TeamCache * gmap Z CachedTeam * list string :=
  match teamCache api, teamCacheExpiry api with
  | Some cache, Some expiry =>
      if bool_decide (expiry <> 0) && bool_decide (now < expiry)
      then (api, cache, [])
      else doLoadTeamCache key answer finished
  | _, _ => doLoadTeamCache key answer finished
  end.

(** [getTeamFromCache(teamId)]: [cache[teamId] || null]. *)
Definition getTeamFromCache (key : option string)
    (answer : string -> FetchOutcome) (now finished : Z) (api : TeamCache)
    (teamId : Z) : TeamCache * option CachedTeam * list string :=
  let '(api', cache, fetched) := loadTeamCache key answer now finished api in
  (api', cache !! teamId, fetched).

(** The competitions a load asks for, in order, until a thrown message
    contains "Rate limit". *)
Definition thrown (key : option string) (answer : string -> FetchOutcome)
    (competition : Competition) : option string :=
  match fst (getCompetitionTeams key answer (comp_code competition)) with
  | inl message => Some message
  | inr _ => None
  end.

Definition rateLimited (key : option string)
    (answer : string -> FetchOutcome) (competition : Competition) : bool :=
  match thrown key answer competition with
  | Some message => stringIncludes message "Rate limit"
  | None => false
  end.

Definition teamsOf (key : option string) (answer : string -> FetchOutcome)
    (competition : Competition) : list ApiTeam :=
  match fst (getCompetitionTeams key answer (comp_code competition)) with
  | inl _ => []
  | inr teams => teams
  end.

(** A remote side that lists Arsenal in the Premier League and in the
    Champions League and answers 429 for the World Cup. *)
Definition arsenalApi : ApiTeam :=
  mkApiTeam 57 "Arsenal FC" (Some "Arsenal") (Some "ARS") None.

Definition sampleAnswer (code : string) : FetchOutcome :=
  if bool_decide (code = "PL") then Responded 200 "" (Some [arsenalApi])
  else if bool_decide (code = "CL") then Responded 200 "" (Some [arsenalApi])
  else if bool_decide (code = "WC") then Responded 429 "" None
  else Responded 200 "" None.

(** A remote side that answers 429 to everything. *)
Definition busyAnswer (code : string) : FetchOutcome :=
  Responded 429 "Too many requests" None.

(** The codes [request] hands to [fetch] for [competitions]. *)
Definition requestsFor (key : option string)
    (competitions : list Competition) : list string :=
  if configured key then map comp_code competitions else [].

(** The cache after the answers of [competitions] are all stored. *)
Definition cacheAll (key : option string) (answer : string -> FetchOutcome)
    (competitions : list Competition) (cache : gmap Z CachedTeam)
  : gmap Z CachedTeam :=
  foldl (fun c competition =>
           cacheTeams competition (teamsOf key answer competition) c)
    cache competitions.

(** ** MatchManager: lookups in the snapshot cache *)

(** [for (const [matchId, cached] of this.matchCache)]: the entries in
    the order the Map iterates them. *)
Fixpoint getTeamLiveMatch (entries : list (Z * MatchState)) (teamId : Z)
  : option MatchState :=
  match entries with
  | [] => None
  | (matchId, cached) :: rest =>
      if includes LIVE_STATUSES (st_status cached) then
        if bool_decide (homeTeamId cached = teamId)
           || bool_decide (awayTeamId cached = teamId)
        then Some cached
        else getTeamLiveMatch rest teamId
      else getTeamLiveMatch rest teamId
  end.

Fixpoint getTeamMatchToday (entries : list (Z * MatchState)) (teamId : Z)
  : option MatchState :=
  match entries with
  | [] => None
  | (matchId, cached) :: rest =>
      if bool_decide (homeTeamId cached = teamId)
         || bool_decide (awayTeamId cached = teamId)
      then Some cached
      else getTeamMatchToday rest teamId
  end.

Definition playsIn (teamId : Z) (cached : MatchState) : Prop :=
  homeTeamId cached = teamId \/ awayTeamId cached = teamId.

Definition liveStatus (cached : MatchState) : Prop :=
  st_status cached = MATCH_STATUS.IN_PLAY
  \/ st_status cached = MATCH_STATUS.PAUSED.

(** Arsenal's finished early match, cached before their live one. *)
Definition twoMatchesCached : list (Z * MatchState) :=
  [ (1, createMatchState (match1 "FINISHED" 0 0 1) None);
    (3, createMatchState
          (mkMatch 3 "IN_PLAY" (Some 40000000) (Some 2) (Some 0)
             arsenal everton None None) None) ].

(** A remote side that lists Arsenal in the Premier League, drops the
    connection for the Bundesliga, refuses Serie A with 403 and has no
    teams for the rest. *)
Definition patchyAnswer (code : string) : FetchOutcome :=
  if bool_decide (code = "PL") then Responded 200 "" (Some [arsenalApi])
  else if bool_decide (code = "BL1") then FetchFailed "socket hang up"
  else if bool_decide (code = "SA") then Responded 403 "" None
  else Responded 200 "" None.

(** ** Cycles and the one-shot markers *)

(** Team 57 registers; match 1 is fetched FINISHED five hours after its
    kickoff in three cycles in a row, fifteen minutes apart. *)
Definition staleResultRun : list Action :=
  [Register 57 0;
   FetchSettles 0 (Some [oldResult]) 21000000;
   TimerFires 0;
   FetchSettles 0 (Some [oldResult]) 21900000;
   TimerFires 1;
   FetchSettles 0 (Some [oldResult]) 22800000].

(** What successive cycles of [poll] do to the cache:
    [processMatchUpdates], then the second loop of [cleanupOldMatches]
    at the cycle's clock. *)
Fixpoint cacheCycles (cycles : list (Z * gmap Z (gset nat) * list Match))
    (matchCache : gmap Z MatchState) : gmap Z MatchState * list Event :=
  match cycles with
  | [] => (matchCache, [])
  | (now, trackedTeams, matches) :: rest =>
      let '(cache1, out1) :=
        processMatchUpdates trackedTeams matches matchCache in
      let '(cache2, out2) := cacheCycles rest (cleanupCache now cache1) in
      (cache2, out1 ++ out2)
  end.

(** No cycle evicts the entry of match [id]. *)
Fixpoint keptThrough (id : Z)
    (cycles : list (Z * gmap Z (gset nat) * list Match))
    (matchCache : gmap Z MatchState) : Prop :=
  match cycles with
  | [] => True
  | (now, trackedTeams, matches) :: rest =>
      let cache1 := (processMatchUpdates trackedTeams matches matchCache).1 in
      (forall st, cache1 !! id = Some st -> ~ staleAt now st)
      /\ keptThrough id rest (cleanupCache now cache1)
  end.

(** ** Threshold records that are discarded *)

(** Match 2, TIMED, kicks off at 12000000. *)
Definition lateKickoff : Match := match2 "TIMED" 12000000 0 0.

(** Team 57 keeps the loop running.  The device of team 62 is registered
    when the cycle at 6300000 (95 minutes before kickoff) runs,
    unregistered during the cycle at 6600000, and registered again for
    the cycle at 7500000 (75 minutes before kickoff). *)
Definition reRegisterRun : list Action :=
  [Register 57 0;
   Register 62 1;
   FetchSettles 0 (Some [lateKickoff]) 5400000;
   TimerFires 0;
   FetchSettles 0 (Some [lateKickoff]) 6300000;
   Unregister 62 1;
   TimerFires 1;
   FetchSettles 0 (Some [lateKickoff]) 6600000;
   Register 62 1;
   TimerFires 2;
   FetchSettles 0 (Some [lateKickoff]) 7500000].

(** The fetch of the second cycle answers an empty list. *)
Definition gapRun : list Action :=
  [Register 62 0;
   FetchSettles 0 (Some [lateKickoff]) 5400000;
   TimerFires 0;
   FetchSettles 0 (Some []) 5700000;
   TimerFires 1;
   FetchSettles 0 (Some [lateKickoff]) 6600000].

(** ** The first entry of the cache with a property *)

Definition firstWith (P : MatchState -> Prop)
    (entries : list (Z * MatchState)) (m : MatchState) : Prop :=
  exists before matchId after,
    entries = before ++ (matchId, m) :: after
    /\ P m
    /\ forall kv, In kv before -> ~ P (snd kv).
(** ** Bridging the rational comparisons to millisecond bounds *)

Lemma Qltb_lt (a b : Q) : Qltb a b = true <-> (a < b)%Q.
Proof.
  unfold Qltb. rewrite negb_true_iff.
  split.
  - intros H. apply Qnot_le_lt. intros Hle.
    apply Qle_bool_iff in Hle. congruence.
  - intros H. destruct (Qle_bool b a) eqn:E; [|reflexivity].
    apply Qle_bool_iff in E. exfalso. exact (Qlt_not_le _ _ H E).
Qed.

Lemma minutesBetween_lt (a b k : Z) :
  (minutesBetween a b < inject_Z k)%Q <-> a - b < k * 60000.
Proof.
  unfold minutesBetween, Qlt, Qdiv, Qmult, Qinv, inject_Z. simpl. lia.
Qed.

Lemma minutesBetween_le (a b k : Z) :
  (minutesBetween a b <= inject_Z k)%Q <-> a - b <= k * 60000.
Proof.
  unfold minutesBetween, Qle, Qdiv, Qmult, Qinv, inject_Z. simpl. lia.
Qed.

Lemma minutesBetween_gt (a b k : Z) :
  (inject_Z k < minutesBetween a b)%Q <-> k * 60000 < a - b.
Proof.
  unfold minutesBetween, Qlt, Qdiv, Qmult, Qinv, inject_Z. simpl. lia.
Qed.

Lemma minutesBetween_ge (a b k : Z) :
  (inject_Z k <= minutesBetween a b)%Q <-> k * 60000 <= a - b.
Proof.
  unfold minutesBetween, Qle, Qdiv, Qmult, Qinv, inject_Z. simpl. lia.
Qed.

Lemma hoursBetween_le (a b k : Z) :
  (hoursBetween a b <= inject_Z k)%Q <-> a - b <= k * 3600000.
Proof.
  unfold hoursBetween, Qle, Qdiv, Qmult, Qinv, inject_Z. simpl. lia.
Qed.

Lemma hoursBetween_gt (a b k : Z) :
  (inject_Z k < hoursBetween a b)%Q <-> k * 3600000 < a - b.
Proof.
  unfold hoursBetween, Qlt, Qdiv, Qmult, Qinv, inject_Z. simpl. lia.
Qed.

(** ** determinePollingState *)

Lemma includes_upcoming (m : Match) :
  includes UPCOMING_STATUSES (match_status m) = true <-> upcomingStatus m.
Proof.
  unfold includes, upcomingStatus, UPCOMING_STATUSES. simpl.
  rewrite !orb_true_iff, !bool_decide_eq_true.
  unfold MATCH_STATUS.SCHEDULED, MATCH_STATUS.TIMED.
  intuition (try discriminate; auto).
Qed.

Lemma includes_completed (m : Match) :
  includes COMPLETED_STATUSES (match_status m) = true <-> completedStatus m.
Proof.
  unfold includes, completedStatus, COMPLETED_STATUSES. simpl.
  rewrite !orb_true_iff, !bool_decide_eq_true.
  unfold MATCH_STATUS.FINISHED, MATCH_STATUS.AWARDED.
  intuition (try discriminate; auto).
Qed.

Lemma hasProbablyLive_spec (now : Z) (m : Match) :
  hasProbablyLive now m = true <-> delayedKickoff now m.
Proof.
  unfold hasProbablyLive, delayedKickoff.
  rewrite <- includes_upcoming.
  destruct (includes UPCOMING_STATUSES (match_status m)); simpl.
  - destruct (match_utcDate m) as [d|].
    + rewrite andb_true_iff, !Qltb_lt.
      rewrite (minutesBetween_gt now d 0), (minutesBetween_lt now d 120).
      split.
      * intros [H1 H2]. split; [reflexivity|]. exists d. repeat split; lia.
      * intros [_ (k & Hk & H1 & H2)]. inversion Hk; subst. lia.
    + split; [discriminate|]. intros [_ (k & Hk & _)]. discriminate.
  - split; [discriminate|]. intros [H _]. discriminate.
Qed.

Lemma hasRecentlyFinished_spec (now : Z) (m : Match) :
  hasRecentlyFinished now m = true <-> recentlyFinished now m.
Proof.
  unfold hasRecentlyFinished, recentlyFinished.
  rewrite <- includes_completed.
  destruct (includes COMPLETED_STATUSES (match_status m)); simpl.
  - destruct (match_utcDate m) as [d|].
    + rewrite andb_true_iff, Qltb_lt, Qle_bool_iff.
      rewrite (minutesBetween_ge now _ 0), (minutesBetween_lt now _ 15).
      split.
      * intros [H1 H2]. split; [reflexivity|]. exists d. repeat split; lia.
      * intros [_ (k & Hk & H1 & H2)]. inversion Hk; subst. lia.
    + split; [discriminate|]. intros [_ (k & Hk & _)]. discriminate.
  - split; [discriminate|]. intros [H _]. discriminate.
Qed.

Lemma hasUpcoming_spec (now : Z) (m : Match) :
  hasUpcoming now m = true <-> kickoffSoon now m.
Proof.
  unfold hasUpcoming, kickoffSoon.
  rewrite <- includes_upcoming.
  destruct (includes UPCOMING_STATUSES (match_status m)); simpl.
  - destruct (match_utcDate m) as [d|].
    + rewrite andb_true_iff, Qltb_lt, Qle_bool_iff.
      rewrite (hoursBetween_le d now 2), (hoursBetween_gt d now 0).
      split.
      * intros [H1 H2]. split; [reflexivity|]. exists d. repeat split; lia.
      * intros [_ (k & Hk & H1 & H2)]. inversion Hk; subst. lia.
    + split; [discriminate|]. intros [_ (k & Hk & _)]. discriminate.
  - split; [discriminate|]. intros [H _]. discriminate.
Qed.

Lemma existsb_some (f : Match -> bool) (P : Match -> Prop)
    (matches : list Match) :
  (forall m, f m = true <-> P m) ->
  existsb f matches = true <-> some P matches.
Proof.
  intros Hf. unfold some. rewrite existsb_exists.
  split; intros (m & Hin & Hm); exists m; split; auto; apply Hf; auto.
Qed.

Lemma inPlay_spec (m : Match) :
  bool_decide (match_status m = MATCH_STATUS.IN_PLAY) = true <-> inPlay m.
Proof. apply bool_decide_eq_true. Qed.

Lemma paused_spec (m : Match) :
  bool_decide (match_status m = MATCH_STATUS.PAUSED) = true <-> paused m.
Proof. apply bool_decide_eq_true. Qed.

(** C1 (as the code has it).  [determinePollingState] returns the first
    bucket that is not empty in the order: LIVE for a match IN_PLAY,
    PAUSED for a match PAUSED, LIVE for an upcoming-status match whose
    kickoff lies strictly between 0 and 120 minutes in the past,
    POST_MATCH, PRE_MATCH, IDLE.  A delayed kickoff therefore yields
    LIVE only when no match is PAUSED (or some match is IN_PLAY). *)
Theorem determinePollingState_buckets (now : Z) (matches : list Match) :
  let state := determinePollingState now matches in
  (state = LIVE <->
     some inPlay matches
     \/ (~ some paused matches /\ some (delayedKickoff now) matches))
  /\ (state = PAUSED <->
        ~ some inPlay matches /\ some paused matches)
  /\ (state = POST_MATCH <->
        ~ some inPlay matches /\ ~ some paused matches
        /\ ~ some (delayedKickoff now) matches
        /\ some (recentlyFinished now) matches)
  /\ (state = PRE_MATCH <->
        ~ some inPlay matches /\ ~ some paused matches
        /\ ~ some (delayedKickoff now) matches
        /\ ~ some (recentlyFinished now) matches
        /\ some (kickoffSoon now) matches)
  /\ (state = IDLE <->
        ~ some inPlay matches /\ ~ some paused matches
        /\ ~ some (delayedKickoff now) matches
        /\ ~ some (recentlyFinished now) matches
        /\ ~ some (kickoffSoon now) matches).
Proof.
  unfold determinePollingState.
  pose proof (existsb_some _ _ matches inPlay_spec) as A1.
  pose proof (existsb_some _ _ matches paused_spec) as A2.
  pose proof (existsb_some _ _ matches (hasProbablyLive_spec now)) as A3.
  pose proof (existsb_some _ _ matches (hasRecentlyFinished_spec now)) as A4.
  pose proof (existsb_some _ _ matches (hasUpcoming_spec now)) as A5.
  destruct (existsb _ matches);
    [| destruct (existsb _ matches);
       [| destruct (existsb (hasProbablyLive now) matches);
          [| destruct (existsb (hasRecentlyFinished now) matches);
             [| destruct (existsb (hasUpcoming now) matches)]]]];
    cbv zeta;
    repeat split; intros; try discriminate; try tauto;
    intuition (try discriminate; try congruence; auto).
Qed.

(** C1, counterexample: a PAUSED match together with a TIMED match whose
    kickoff was ten minutes ago gives PAUSED, not LIVE. *)
Lemma determinePollingState_paused_before_delayed :
  some paused halftimeAndDelayed
  /\ some (delayedKickoff 6000000) halftimeAndDelayed
  /\ determinePollingState 6000000 halftimeAndDelayed = PAUSED
  /\ determinePollingState 6000000 halftimeAndDelayed <> LIVE.
Proof.
  split; [|split; [|split]].
  - exists (match1 "PAUSED" 3000000 1 0). split; [left; reflexivity|].
    reflexivity.
  - exists (match2 "TIMED" 5400000 0 0).
    split; [right; left; reflexivity|].
    split; [right; reflexivity|].
    exists 5400000. repeat split; lia.
  - vm_compute. reflexivity.
  - vm_compute. discriminate.
Qed.

(** ** FootballAPI: the rate limiter *)

Lemma cleanExpiredTimestamps_idem (now : Z) (ts : list Z) :
  cleanExpiredTimestamps now (cleanExpiredTimestamps now ts)
  = cleanExpiredTimestamps now ts.
Proof.
  unfold cleanExpiredTimestamps. induction ts as [|t ts IH]; simpl; auto.
  destruct (bool_decide (t > now - 60000)) eqn:E; simpl; auto.
  rewrite E. f_equal. exact IH.
Qed.

Lemma cleanExpiredTimestamps_In (now t : Z) (ts : list Z) :
  In t (cleanExpiredTimestamps now ts) <-> In t ts /\ now - 60000 < t.
Proof.
  unfold cleanExpiredTimestamps. rewrite filter_In, bool_decide_eq_true.
  intuition lia.
Qed.

Lemma countAfter_app (L : Z) (l1 l2 : list Z) :
  countAfter L (l1 ++ l2) = (countAfter L l1 + countAfter L l2)%nat.
Proof. unfold countAfter. rewrite List.filter_app, length_app. reflexivity. Qed.

Lemma countAfter_clean (now L : Z) (ts : list Z) :
  now - 60000 <= L ->
  countAfter L (cleanExpiredTimestamps now ts) = countAfter L ts.
Proof.
  intros HL. unfold countAfter, cleanExpiredTimestamps.
  induction ts as [|t ts IH]; simpl; auto.
  destruct (bool_decide (t > now - 60000)) eqn:E1;
    destruct (bool_decide (t > L)) eqn:E2; simpl; rewrite ?E2; simpl; auto.
  apply bool_decide_eq_true in E2. apply bool_decide_eq_false in E1. lia.
Qed.

Lemma countAfter_mono (L1 L2 : Z) (ts : list Z) :
  L1 <= L2 -> (countAfter L2 ts <= countAfter L1 ts)%nat.
Proof.
  intros HL. unfold countAfter. induction ts as [|t ts IH]; simpl; auto.
  destruct (bool_decide (t > L2)) eqn:E2;
    destruct (bool_decide (t > L1)) eqn:E1; simpl; try lia.
  apply bool_decide_eq_true in E2. apply bool_decide_eq_false in E1. lia.
Qed.

Lemma length_clean (now : Z) (ts : list Z) :
  length (cleanExpiredTimestamps now ts) = countAfter (now - 60000) ts.
Proof. reflexivity. Qed.

Lemma requestsInWindow_countAfter (T : Z) (log : list (Z * bool)) :
  (requestsInWindow T log <= countAfter (T - 60000) (map fst log))%nat.
Proof.
  unfold requestsInWindow, countAfter, inWindow.
  induction log as [|[t hp] log IH]; simpl; auto.
  destruct (bool_decide (T - 60000 < t)) eqn:E1;
    destruct (bool_decide (t > T - 60000)) eqn:E2;
    destruct (bool_decide (t <= T)); simpl; try lia.
  apply bool_decide_eq_true in E1. apply bool_decide_eq_false in E2. lia.
Qed.

Lemma lowPriority_le_requests (T : Z) (log : list (Z * bool)) :
  (lowPriorityInWindow T log <= requestsInWindow T log)%nat.
Proof.
  unfold lowPriorityInWindow, requestsInWindow.
  induction log as [|s log IH]; simpl; auto.
  destruct (inWindow T s); destruct (snd s); simpl; lia.
Qed.

(** What one synchronous run of the loop can end in. *)
Lemma requestLoop_spec (fuel : nat) (now : Z) (hp : bool) (ts : list Z)
    (c : Caller) (ts' : list Z) :
  requestLoop fuel now hp ts = Some (c, ts') ->
  let limit := if hp then RATE_LIMIT else RATE_LIMIT - RATE_LIMIT_BUFFER in
  let cleaned := cleanExpiredTimestamps now ts in
  (c = Fetching hp now /\ ts' = cleaned ++ [now]
   /\ Z.of_nat (length cleaned) < limit)
  \/ (exists oldest, head cleaned = Some oldest
      /\ c = Sleeping hp (oldest + 60000 + 100) /\ ts' = cleaned
      /\ limit <= Z.of_nat (length cleaned)).
Proof.
  revert ts. induction fuel as [|fuel IH]; intros ts; cbv zeta; simpl;
    [discriminate|].
  set (cleaned := cleanExpiredTimestamps now ts).
  destruct (bool_decide (Z.of_nat (length cleaned) < _)) eqn:Eok.
  - intros H. inversion H; subst. left.
    apply bool_decide_eq_true in Eok. auto.
  - apply bool_decide_eq_false in Eok.
    destruct (head cleaned) as [oldest|] eqn:Eh.
    + destruct (bool_decide (oldest + 60000 - now + 100 > 0)) eqn:Ew.
      * intros H. inversion H; subst. right. exists oldest.
        repeat split; auto; try lia. f_equal. lia.
      * intros H. apply IH in H. cbv zeta in H. unfold cleaned in H.
        rewrite !cleanExpiredTimestamps_idem in H. fold cleaned in H.
        rewrite Eh in H. exact H.
    + intros H. apply IH in H. cbv zeta in H. unfold cleaned in H.
      rewrite !cleanExpiredTimestamps_idem in H. fold cleaned in H.
      rewrite Eh in H. exact H.
Qed.

(** The loop never needs a second iteration at one clock reading: a
    refused caller always finds an oldest timestamp that is still in the
    window, so its wait is positive. *)
Lemma requestLoop_total (fuel : nat) (now : Z) (hp : bool) (ts : list Z) :
  exists c ts', requestLoop (S fuel) now hp ts = Some (c, ts').
Proof.
  simpl. set (cleaned := cleanExpiredTimestamps now ts).
  destruct (bool_decide (Z.of_nat (length cleaned) < _)) eqn:Eok;
    [eauto|].
  apply bool_decide_eq_false in Eok.
  destruct cleaned as [|oldest rest] eqn:Ec.
  - exfalso. apply Eok. destruct hp; reflexivity.
  - simpl.
    assert (Hin : In oldest (cleanExpiredTimestamps now ts)).
    { fold cleaned. rewrite Ec. left. reflexivity. }
    apply cleanExpiredTimestamps_In in Hin. destruct Hin as [_ Hfresh].
    rewrite bool_decide_eq_true_2 by lia. eauto.
Qed.

Lemma apiInvariant_new (key : option string) (start : Z) :
  apiInvariant (newAPI key start).
Proof.
  unfold apiInvariant, newAPI. simpl.
  split; [constructor|]. split; [reflexivity|].
  intros T. unfold requestsInWindow, lowPriorityInWindow. simpl.
  unfold RATE_LIMIT, RATE_LIMIT_BUFFER. lia.
Qed.

(** Running the loop at the current clock keeps the invariant. *)
Lemma apiInvariant_requestLoop (fuel : nat) (hp : bool) (api : FootballAPI)
    (ts0 : list Z) (c : Caller) (ts' : list Z) (cs : list Caller) :
  apiInvariant api ->
  cleanExpiredTimestamps (clock api) ts0
  = cleanExpiredTimestamps (clock api) (requestTimestamps api) ->
  requestLoop fuel (clock api) hp ts0 = Some (c, ts') ->
  apiInvariant
    (mkAPI (apiKey api) ts' (clock api) cs (transmitted api ++ sends c)).
Proof.
  intros (Hpast & Hwin & Hquota) Hts Hloop.
  apply requestLoop_spec in Hloop. cbv zeta in Hloop. rewrite Hts in Hloop.
  set (now := clock api) in *.
  set (cleaned := cleanExpiredTimestamps now (requestTimestamps api)) in *.
  destruct Hloop as [(-> & -> & Hlt) | (oldest & Hh & -> & -> & Hge)].
  - unfold apiInvariant. simpl. split; [|split].
    + apply Forall_app. split; [exact Hpast|].
      constructor; [simpl; lia | constructor].
    + intros L HL. rewrite map_app, !countAfter_app. simpl.
      unfold cleaned. rewrite countAfter_clean by exact HL.
      rewrite Hwin by exact HL. reflexivity.
    + intros T. destruct (Hquota T) as [Hall Hlow].
      unfold requestsInWindow, lowPriorityInWindow in *.
      rewrite !List.filter_app, !length_app. simpl.
      destruct (inWindow T (now, hp)) eqn:Ein; simpl.
      * assert (Hbound :
          (length (List.filter (inWindow T) (transmitted api))
           <= length cleaned)%nat).
        { unfold inWindow in Ein. simpl in Ein.
          apply andb_true_iff in Ein. destruct Ein as [E1 E2].
          apply bool_decide_eq_true in E1. apply bool_decide_eq_true in E2.
          etransitivity; [apply requestsInWindow_countAfter|].
          rewrite Hwin by (fold now; lia).
          unfold cleaned. rewrite length_clean.
          apply countAfter_mono. lia. }
        pose proof (lowPriority_le_requests T (transmitted api)) as Hle.
        unfold requestsInWindow, lowPriorityInWindow in Hle.
        unfold RATE_LIMIT, RATE_LIMIT_BUFFER in *.
        destruct hp; simpl; lia.
      * simpl. lia.
  - unfold apiInvariant. simpl. rewrite app_nil_r. split; [|split]; auto.
    intros L HL. unfold cleaned. rewrite countAfter_clean by exact HL.
    apply Hwin. exact HL.
Qed.

Lemma apiInvariant_step (fuel : nat) (s : ApiStep) (api api' : FootballAPI) :
  apiInvariant api -> apiStep fuel s api = Some api' -> apiInvariant api'.
Proof.
  intros Hinv. destruct s as [hp|i|i ok|ms|key]; simpl.
  - unfold request. destruct (configured (apiKey api)); cbn [negb].
    + destruct (requestLoop fuel (clock api) hp (requestTimestamps api))
        as [[c ts]|] eqn:El; [|discriminate].
      intros H. inversion H; subst.
      eapply apiInvariant_requestLoop; eauto.
    + intros H. inversion H; subst. exact Hinv.
  - unfold wake. destruct (callers api !! i) as [[|hp w|? ?|? ?|? ?]|];
      try (intros H; inversion H; subst; exact Hinv).
    destruct (bool_decide (w <= clock api));
      [|intros H; inversion H; subst; exact Hinv].
    destruct (requestLoop fuel (clock api) hp _) as [[c ts]|] eqn:El;
      [|discriminate].
    intros H. inversion H; subst.
    eapply apiInvariant_requestLoop; [exact Hinv| |exact El].
    apply cleanExpiredTimestamps_idem.
  - intros H. inversion H; subst. unfold settle.
    destruct (callers api !! i) as [[|? ?|? ?|? ?|? ?]|]; exact Hinv.
  - intros H. inversion H; subst.
    destruct Hinv as (Hpast & Hwin & Hquota).
    unfold apiInvariant. simpl. split; [|split]; auto.
    + eapply Forall_impl; [exact Hpast|]. simpl. intros. lia.
    + intros L HL. apply Hwin. lia.
  - intros H. inversion H; subst. exact Hinv.
Qed.

Lemma apiInvariant_run (fuel : nat) (steps : list ApiStep)
    (api api' : FootballAPI) :
  apiInvariant api -> apiRun fuel steps api = Some api' -> apiInvariant api'.
Proof.
  revert api. induction steps as [|s steps IH]; intros api Hinv; simpl.
  - intros H. inversion H; subst. exact Hinv.
  - destruct (apiStep fuel s api) as [api1|] eqn:Es; [|discriminate].
    intros H. eapply IH; [|exact H]. eapply apiInvariant_step; eauto.
Qed.

Lemma apiStep_total (fuel : nat) (s : ApiStep) (api : FootballAPI) :
  exists api', apiStep (S fuel) s api = Some api'.
Proof.
  destruct s as [hp|i|i ok|ms|key]; simpl; eauto.
  - unfold request. destruct (configured (apiKey api)); cbn [negb];
      [|eauto].
    destruct (requestLoop_total fuel (clock api) hp (requestTimestamps api))
      as (c & ts & ->). eauto.
  - unfold wake. destruct (callers api !! i) as [[|hp w|? ?|? ?|? ?]|]; eauto.
    destruct (bool_decide (w <= clock api)); eauto.
    destruct (requestLoop_total fuel (clock api) hp
                (cleanExpiredTimestamps (clock api) (requestTimestamps api)))
      as (c & ts & ->). eauto.
Qed.

Lemma apiRun_total (fuel : nat) (steps : list ApiStep) (api : FootballAPI) :
  exists api', apiRun (S fuel) steps api = Some api'.
Proof.
  revert api. induction steps as [|s steps IH]; intros api.
  - simpl. eauto.
  - cbn [apiRun]. destruct (apiStep_total fuel s api) as (api1 & ->).
    apply IH.
Qed.

(** C2.  For every sequence of calls to [request] (of either priority),
    wake-ups of sleeping callers, settled fetches and clock advances:
    the run completes, and in every window [(T - 60000, T]] at most
    [RATE_LIMIT - RATE_LIMIT_BUFFER = 8] requests were sent without
    [highPriority] and at most [RATE_LIMIT = 10] in total.  A caller
    refused by [canMakeRequest] sleeps until the oldest timestamp plus
    60000 ms plus a margin of 100 ms, when that timestamp has left the
    window; on waking it checks again, and either sends or sleeps again.
    The timestamp is pushed in the same synchronous run that starts the
    fetch, and the outcome of the fetch does not touch it. *)
Theorem rate_limit_window (fuel : nat) (steps : list ApiStep)
    (key : option string) (start : Z) :
  match apiRun (S fuel) steps (newAPI key start) with
  | None => False
  | Some api =>
      forall T,
        (lowPriorityInWindow T (transmitted api) <= 8)%nat
        /\ (requestsInWindow T (transmitted api) <= 10)%nat
  end
  /\ (forall now hp ts,
        fst (canMakeRequest now hp ts) = false ->
        exists oldestTimestamp,
          head (cleanExpiredTimestamps now ts) = Some oldestTimestamp
          /\ requestLoop (S fuel) now hp ts
             = Some (Sleeping hp (oldestTimestamp + 60000 + 100),
                     cleanExpiredTimestamps now ts)
          /\ now < oldestTimestamp + 60000 + 100
          /\ forall later, oldestTimestamp + 60000 + 100 <= later ->
               ~ In oldestTimestamp (cleanExpiredTimestamps later ts))
  /\ (forall api i hp wakeAt,
        callers api !! i = Some (Sleeping hp wakeAt) ->
        wakeAt <= clock api ->
        exists api', wake (S fuel) i api = Some api'
          /\ ((callers api' !! i = Some (Fetching hp (clock api))
               /\ requestTimestamps api'
                  = cleanExpiredTimestamps (clock api)
                      (requestTimestamps api) ++ [clock api]
               /\ transmitted api'
                  = transmitted api ++ [(clock api, hp)])
              \/ (exists wakeAt', clock api < wakeAt'
                  /\ callers api' !! i = Some (Sleeping hp wakeAt')
                  /\ transmitted api' = transmitted api)))
  /\ (forall now hp ts hp' sentAt ts',
        requestLoop (S fuel) now hp ts = Some (Fetching hp' sentAt, ts') ->
        sentAt = now /\ hp' = hp
        /\ ts' = cleanExpiredTimestamps now ts ++ [now])
  /\ (forall api i ok,
        requestTimestamps (settle i ok api) = requestTimestamps api
        /\ transmitted (settle i ok api) = transmitted api).
Proof.
  split; [|split; [|split; [|split]]].
  - destruct (apiRun_total fuel steps (newAPI key start)) as (api & Hrun).
    rewrite Hrun. intros T.
    pose proof (apiInvariant_run _ _ _ _ (apiInvariant_new key start) Hrun)
      as (_ & _ & Hquota).
    destruct (Hquota T) as [Hall Hlow].
    unfold RATE_LIMIT, RATE_LIMIT_BUFFER in *. simpl in *. lia.
  - intros now hp ts Hno.
    destruct (requestLoop_total fuel now hp ts) as (c & ts' & Hloop).
    pose proof (requestLoop_spec _ _ _ _ _ _ Hloop) as Hspec.
    cbv zeta in Hspec. unfold canMakeRequest in Hno. simpl in Hno.
    apply bool_decide_eq_false in Hno.
    destruct Hspec as [(_ & _ & Hlt) | (oldest & Hh & -> & -> & _)];
      [contradiction|].
    exists oldest. split; [exact Hh|]. split; [exact Hloop|].
    assert (Hin : In oldest (cleanExpiredTimestamps now ts)).
    { destruct (cleanExpiredTimestamps now ts); [discriminate|].
      simpl in Hh. inversion Hh. left. reflexivity. }
    apply cleanExpiredTimestamps_In in Hin. destruct Hin as [_ Hfresh].
    split; [lia|].
    intros later Hlater Hin. apply cleanExpiredTimestamps_In in Hin. lia.
  - intros api i hp wakeAt Hi Hw. unfold wake. rewrite Hi.
    rewrite bool_decide_eq_true_2 by exact Hw.
    destruct (requestLoop_total fuel (clock api) hp
                (cleanExpiredTimestamps (clock api) (requestTimestamps api)))
      as (c & ts' & Hloop).
    rewrite Hloop. eexists. split; [reflexivity|]. simpl.
    pose proof (requestLoop_spec _ _ _ _ _ _ Hloop) as Hspec.
    cbv zeta in Hspec. rewrite cleanExpiredTimestamps_idem in Hspec.
    assert (Hlen : (i < length (callers api))%nat).
    { eapply lookup_lt_Some. exact Hi. }
    destruct Hspec as [(-> & -> & _) | (oldest & Hh & -> & -> & _)].
    + left. rewrite list_lookup_insert_eq by exact Hlen. auto.
    + right. exists (oldest + 60000 + 100).
      assert (Hin : In oldest
                (cleanExpiredTimestamps (clock api) (requestTimestamps api))).
      { destruct (cleanExpiredTimestamps (clock api) (requestTimestamps api));
          [discriminate|].
        simpl in Hh. inversion Hh. left. reflexivity. }
      apply cleanExpiredTimestamps_In in Hin.
      rewrite list_lookup_insert_eq by exact Hlen.
      simpl. rewrite app_nil_r. repeat split; auto. lia.
  - intros now hp ts hp' sentAt ts' Hloop.
    apply requestLoop_spec in Hloop. cbv zeta in Hloop.
    destruct Hloop as [(Hc & -> & _) | (oldest & _ & Hc & _)];
      [|discriminate].
    inversion Hc; subst. auto.
  - intros api i ok. unfold settle.
    destruct (callers api !! i) as [[|? ?|? ?|? ?|? ?]|]; auto.
Qed.

(** A ninth low-priority call at instant 1000, after eight sent at
    instants 1..8, sleeps until 1 + 60000 + 100. *)
Lemma rate_limit_window_witness :
  fst (canMakeRequest 1000 false eightSent) = false
  /\ exists oldestTimestamp,
       head (cleanExpiredTimestamps 1000 eightSent) = Some oldestTimestamp
       /\ requestLoop 1 1000 false eightSent
          = Some (Sleeping false (oldestTimestamp + 60000 + 100),
                  cleanExpiredTimestamps 1000 eightSent).
Proof.
  split; [reflexivity|].
  destruct (rate_limit_window 0 [] None 0) as (_ & Hsleep & _).
  destruct (Hsleep 1000 false eightSent eq_refl) as (oldest & H1 & H2 & _).
  exists oldest. split; [exact H1 | exact H2].
Defined.

(** ** The detector: what is emitted, and about which match *)

Lemma namedIn_app (names : list EVENTS) (m : Match) (o1 o2 : list Event) :
  namedIn names m o1 -> namedIn names m o2 -> namedIn names m (o1 ++ o2).
Proof. intros H1 H2. apply Forall_app. split; assumption. Qed.

Lemma namedIn_incl (n1 n2 : list EVENTS) (m : Match) (out : list Event) :
  incl n1 n2 -> namedIn n1 m out -> namedIn n2 m out.
Proof.
  intros Hincl H. eapply Forall_impl; [exact H|].
  simpl. intros e [Hn Hm]. split; auto.
Qed.

Lemma namedIn_nil (names : list EVENTS) (m : Match) : namedIn names m [].
Proof. constructor. Qed.

Lemma emitForTeam_named tt (teamId : Z) (n : EVENTS) (m : Match)
    (d : Payload) :
  namedIn [n] m (emitForTeam tt teamId n m d).
Proof.
  unfold emitForTeam. destruct (bool_decide _); [|constructor].
  constructor; [|constructor]. simpl. auto.
Qed.

Lemma emitForTeams_named tt (teamIds : list Z) (n : EVENTS) (m : Match)
    (d : Payload) :
  namedIn [n] m (emitForTeams tt teamIds n m d).
Proof.
  unfold emitForTeams. induction teamIds as [|t ts IH]; simpl.
  - constructor.
  - apply namedIn_app; [apply emitForTeam_named | exact IH].
Qed.

Ltac named_leaf lem :=
  eapply namedIn_incl; [| apply lem];
  let x := fresh "x" in let Hx := fresh "Hx" in
  intros x Hx; simpl in *; intuition auto.

Ltac named :=
  repeat match goal with
         | |- namedIn _ _ [] => apply namedIn_nil
         | |- namedIn _ _ (_ ++ _) => apply namedIn_app
         | |- namedIn _ _ (emitForTeams _ _ _ _ _) =>
             named_leaf emitForTeams_named
         | |- namedIn _ _ (emitForTeam _ _ _ _ _) =>
             named_leaf emitForTeam_named
         | |- namedIn _ _ (if ?b then _ else _) => destruct b
         end.

Lemma emitMatchResult_named tt (m : Match) :
  namedIn [TEAM_WON; TEAM_LOST; TEAM_DREW] m (emitMatchResult tt m).
Proof. unfold emitMatchResult. named. Qed.

Lemma emitResultStateChange_named tt m teamId o n h a isHome :
  namedIn [MATCH_RESULT_CHANGED] m
    (emitResultStateChange tt m teamId o n h a isHome).
Proof. unfold emitResultStateChange. named. Qed.

Lemma handleScoreChange_named tt (m : Match) (cached : MatchState)
    (newHome newAway : Z) :
  namedIn [TEAM_SCORED; TEAM_CONCEDED; MATCH_RESULT_CHANGED] m
    (handleScoreChange tt m cached newHome newAway).
Proof.
  unfold handleScoreChange. named;
    named_leaf emitResultStateChange_named.
Qed.

Lemma marker_setKickoff k e :
  marker k e = true -> marker k (setKickoff e) = true.
Proof. destruct k; simpl; auto. Qed.
Lemma marker_setHalftime k e :
  marker k e = true -> marker k (setHalftime e) = true.
Proof. destruct k; simpl; auto. Qed.
Lemma marker_setSecondHalf k e :
  marker k e = true -> marker k (setSecondHalf e) = true.
Proof. destruct k; simpl; auto. Qed.
Lemma marker_setFinished k e :
  marker k e = true -> marker k (setFinished e) = true.
Proof. destruct k; simpl; auto. Qed.

(** An event guarded by marker [k] comes out of [handleStatusChange] only
    if [k] was clear in the cached entry, and [k] is set afterwards. *)
Definition guardedBy (before after : Markers) (m : Match) (e : Event)
  : Prop :=
  ev_match e = m
  /\ forall k, In (ev_name e) (guardedEvents k) ->
       marker k before = false /\ marker k after = true.

Lemma guardedBy_named (names : list EVENTS) (before after : Markers)
    (m : Match) (out : list Event) :
  namedIn names m out ->
  (forall n k, In n names -> In n (guardedEvents k) ->
     marker k before = false /\ marker k after = true) ->
  Forall (guardedBy before after m) out.
Proof.
  intros Hn Hk. eapply Forall_impl; [exact Hn|].
  simpl. intros e [Hin Hm]. split; [exact Hm|].
  intros k Hg. eapply Hk; eauto.
Qed.

Ltac split_conditions :=
  repeat match goal with
         | |- context [bool_decide ?P] =>
             destruct (bool_decide P); cbn [orb andb negb]
         | |- context [includes ?a ?b] =>
             destruct (includes a b); cbn [orb andb negb]
         | |- context [negb (?f (events ?c))] =>
             let E := fresh "E" in
             destruct (f (events c)) eqn:E; cbn [orb andb negb]
         end.

Lemma handleStatusChange_latch tt (m : Match) (cached : MatchState) :
  let '(after, out) := handleStatusChange tt m cached in
  (forall k, marker k (events cached) = true -> marker k after = true)
  /\ Forall (guardedBy (events cached) after m) out.
Proof.
  unfold handleStatusChange. cbv zeta.
  split_conditions.
  all: split.
  all: try tauto.
  all: try (intros k; first [ apply marker_setKickoff | apply marker_setHalftime
             | apply marker_setSecondHalf | apply marker_setFinished ]; fail).
  all: try (apply Forall_nil_2; fail).
  all: try (eapply guardedBy_named; [apply emitForTeams_named|];
            intros n k [<-|[]]; destruct k; simpl;
            intuition (try discriminate; auto); fail).
  all: eapply guardedBy_named;
    [ apply namedIn_app;
      [ eapply namedIn_incl; [|apply emitForTeams_named];
        instantiate (1 := [MATCH_FINISHED; TEAM_WON; TEAM_LOST; TEAM_DREW]);
        intros x [<-|[]]; simpl; auto
      | eapply namedIn_incl; [|apply emitMatchResult_named];
        intros x Hx; simpl in *; tauto ]
    | intros n k Hn; destruct k; simpl in *;
      intuition (subst; try discriminate; auto) ].
Qed.

Lemma guardedBy_unnamed (names : list EVENTS) (before after : Markers)
    (m : Match) (out : list Event) :
  namedIn names m out ->
  (forall n k, In n names -> ~ In n (guardedEvents k)) ->
  Forall (guardedBy before after m) out.
Proof.
  intros Hn Hk. eapply Forall_impl; [exact Hn|].
  simpl. intros e [Hin Hm]. split; [exact Hm|].
  intros k Hg. exfalso. eapply Hk; eauto.
Qed.

Lemma score_events_unguarded (n : EVENTS) (k : OneShot) :
  In n [TEAM_SCORED; TEAM_CONCEDED; MATCH_RESULT_CHANGED] ->
  ~ In n (guardedEvents k).
Proof.
  intros Hn Hk. destruct k; simpl in *;
    intuition (subst; discriminate).
Qed.

Lemma score_part_unguarded tt (m : Match) (cached : MatchState)
    (before after : Markers) (live changed : bool) :
  Forall (guardedBy before after m)
    (if live then
       if changed
       then handleScoreChange tt m cached (orZero (match_home m))
              (orZero (match_away m))
       else []
     else []).
Proof.
  destruct live; [|apply Forall_nil_2].
  destruct changed; [|apply Forall_nil_2].
  eapply guardedBy_unnamed;
    [apply handleScoreChange_named | apply score_events_unguarded].
Qed.

Lemma updateMatch_latch tt (m : Match) (cached : MatchState) :
  let '(st, out) := updateMatch tt m cached in
  (exists after, st = createMatchState m (Some after))
  /\ (forall k, marker k (events cached) = true ->
        marker k (events st) = true)
  /\ Forall (guardedBy (events cached) (events st) m) out.
Proof.
  unfold updateMatch.
  pose proof (handleStatusChange_latch tt m cached) as Hs.
  destruct (negb (bool_decide (st_status cached = match_status m))).
  - destruct (handleStatusChange tt m cached) as [after out1].
    destruct Hs as [Hmono Hout]. cbn [createMatchState events default].
    split; [eauto|]. split; [exact Hmono|].
    apply Forall_app. split; [exact Hout|].
    apply score_part_unguarded.
  - cbn [createMatchState events default].
    split; [eauto|]. split; [auto|].
    apply Forall_app. split; [apply Forall_nil_2|].
    apply score_part_unguarded.
Qed.

Ltac split_app :=
  repeat match goal with
         | |- Forall _ (_ ++ _) => apply Forall_app; split
         | |- Forall _ [] => apply Forall_nil_2
         end.

Lemma discoverMatch_latch tt (m : Match) :
  let '(st, out) := discoverMatch tt m in
  Forall (guardedBy noMarkers (events st) m) out.
Proof.
  unfold discoverMatch. cbv zeta.
  destruct (bool_decide (match_status m = MATCH_STATUS.IN_PLAY));
  destruct (bool_decide (match_status m = MATCH_STATUS.PAUSED));
  destruct (bool_decide (match_status m = MATCH_STATUS.FINISHED));
  destruct (bool_decide (match_status m = MATCH_STATUS.AWARDED));
  cbn [orb withEvents events createMatchState default];
  split_app.
  all: try (eapply guardedBy_named; [apply emitForTeams_named|];
            intros n k [<-|[]]; destruct k; simpl;
            intuition (try discriminate; auto); fail).
  all: try (eapply guardedBy_named; [apply emitMatchResult_named|];
            intros n k Hn; destruct k; simpl in *;
            intuition (subst; try discriminate; auto); fail).
Qed.

Lemma processMatch_other tt (m : Match) (cache : gmap Z MatchState)
    (id : Z) :
  id <> match_id m ->
  (processMatch tt m cache).1 !! id = cache !! id.
Proof.
  intros Hne. unfold processMatch.
  destruct (cache !! match_id m) as [cached|].
  - destruct (updateMatch tt m cached) as [st out]. simpl.
    apply lookup_insert_ne. congruence.
  - destruct (discoverMatch tt m) as [st out]. simpl.
    apply lookup_insert_ne. congruence.
Qed.

Lemma processMatch_about tt (m : Match) (cache : gmap Z MatchState) :
  Forall (fun e => ev_match e = m) (processMatch tt m cache).2.
Proof.
  unfold processMatch. destruct (cache !! match_id m) as [cached|].
  - pose proof (updateMatch_latch tt m cached) as H.
    destruct (updateMatch tt m cached) as [st out]. simpl.
    destruct H as (_ & _ & H). eapply Forall_impl; [exact H|].
    intros e [He _]. exact He.
  - pose proof (discoverMatch_latch tt m) as H.
    destruct (discoverMatch tt m) as [st out]. simpl.
    eapply Forall_impl; [exact H|]. intros e [He _]. exact He.
Qed.

(** A set marker stays set through one iteration, and nothing it guards
    is emitted for its match. *)
Lemma processMatch_keeps tt (m : Match) (cache : gmap Z MatchState)
    (id : Z) (k : OneShot) :
  latched id k cache ->
  latched id k (processMatch tt m cache).1
  /\ Forall (silentFor id k) (processMatch tt m cache).2.
Proof.
  intros (st0 & Hst0 & Hk).
  destruct (decide (id = match_id m)) as [->|Hne].
  - unfold processMatch. rewrite Hst0.
    pose proof (updateMatch_latch tt m st0) as H.
    destruct (updateMatch tt m st0) as [st out]. simpl.
    destruct H as (_ & Hmono & Hout). split.
    + exists st. rewrite lookup_insert_eq. auto.
    + eapply Forall_impl; [exact Hout|].
      intros e [_ Hg] _ Hin. destruct (Hg k Hin) as [Hfalse _]. congruence.
  - split.
    + exists st0. rewrite processMatch_other by exact Hne. auto.
    + eapply Forall_impl; [apply processMatch_about|].
      intros e He. unfold silentFor. simpl in He. rewrite He.
      intros Hid. congruence.
Qed.

(** Whatever one iteration emits is latched in the cache it leaves. *)
Lemma processMatch_latches tt (m : Match) (cache : gmap Z MatchState) :
  Forall (latchedBy (processMatch tt m cache).1) (processMatch tt m cache).2.
Proof.
  unfold processMatch. destruct (cache !! match_id m) as [cached|].
  - pose proof (updateMatch_latch tt m cached) as H.
    destruct (updateMatch tt m cached) as [st out]. simpl.
    destruct H as (_ & _ & Hout). eapply Forall_impl; [exact Hout|].
    intros e [He Hg] k Hin. rewrite He. exists st.
    rewrite lookup_insert_eq.
    split; [reflexivity|]. apply (Hg k Hin).
  - pose proof (discoverMatch_latch tt m) as H.
    destruct (discoverMatch tt m) as [st out]. simpl.
    eapply Forall_impl; [exact H|].
    intros e [He Hg] k Hin. rewrite He. exists st.
    rewrite lookup_insert_eq.
    split; [reflexivity|]. apply (Hg k Hin).
Qed.

Lemma processMatchUpdates_keeps tt (matches : list Match)
    (cache : gmap Z MatchState) (id : Z) (k : OneShot) :
  latched id k cache ->
  latched id k (processMatchUpdates tt matches cache).1
  /\ Forall (silentFor id k) (processMatchUpdates tt matches cache).2.
Proof.
  revert cache. induction matches as [|m rest IH]; intros cache Hl; simpl.
  - split; [exact Hl | constructor].
  - destruct (processMatch_keeps tt m cache id k Hl) as [H1 H2].
    destruct (processMatch tt m cache) as [cache1 out1]. simpl in *.
    destruct (IH cache1 H1) as [H3 H4].
    destruct (processMatchUpdates tt rest cache1) as [cache2 out2].
    simpl in *. split; [exact H3|]. apply Forall_app. auto.
Qed.

Lemma processMatchUpdates_latches tt (matches : list Match)
    (cache : gmap Z MatchState) :
  Forall (latchedBy (processMatchUpdates tt matches cache).1)
    (processMatchUpdates tt matches cache).2.
Proof.
  revert cache. induction matches as [|m rest IH]; intros cache; simpl.
  - constructor.
  - pose proof (processMatch_latches tt m cache) as H1.
    destruct (processMatch tt m cache) as [cache1 out1]. simpl in *.
    specialize (IH cache1).
    pose proof (fun id k => processMatchUpdates_keeps tt rest cache1 id k)
      as Hkeep.
    destruct (processMatchUpdates tt rest cache1) as [cache2 out2].
    simpl in *. apply Forall_app. split; [|exact IH].
    eapply Forall_impl; [exact H1|].
    intros e He k Hin. apply Hkeep. apply He. exact Hin.
Qed.

Lemma detectorRuns_keeps (runs : list (gmap Z (gset nat) * list Match))
    (cache : gmap Z MatchState) (id : Z) (k : OneShot) :
  latched id k cache ->
  latched id k (detectorRuns runs cache).1
  /\ Forall (silentFor id k) (detectorRuns runs cache).2.
Proof.
  revert cache. induction runs as [|[tt ms] rest IH]; intros cache Hl; simpl.
  - split; [exact Hl | constructor].
  - destruct (processMatchUpdates_keeps tt ms cache id k Hl) as [H1 H2].
    destruct (processMatchUpdates tt ms cache) as [cache1 out1]. simpl in *.
    destruct (IH cache1 H1) as [H3 H4].
    destruct (detectorRuns rest cache1) as [cache2 out2].
    simpl in *. split; [exact H3|]. apply Forall_app. auto.
Qed.

Lemma detectorRuns_latches (runs : list (gmap Z (gset nat) * list Match))
    (cache : gmap Z MatchState) :
  Forall (latchedBy (detectorRuns runs cache).1) (detectorRuns runs cache).2.
Proof.
  revert cache. induction runs as [|[tt ms] rest IH]; intros cache; simpl.
  - constructor.
  - pose proof (processMatchUpdates_latches tt ms cache) as H1.
    destruct (processMatchUpdates tt ms cache) as [cache1 out1]. simpl in *.
    specialize (IH cache1).
    pose proof (fun id k => detectorRuns_keeps rest cache1 id k) as Hkeep.
    destruct (detectorRuns rest cache1) as [cache2 out2].
    simpl in *. apply Forall_app. split; [|exact IH].
    eapply Forall_impl; [exact H1|].
    intros e He k Hin. apply Hkeep. apply He. exact Hin.
Qed.

(** C3.  The code at the input that breaks the claim.  Team 57 is
    tracked and match 1 is fetched with status FINISHED, five hours
    after its kickoff, in three cycles in a row.  Every cycle emits
    [match_finished] and [team_won] for team 57 again: at the end of
    each cycle [cleanupOldMatches] has removed the entry of the match,
    and its finished marker with it, although the match is still in the
    list just fetched, so the next cycle takes the match for a new
    one. *)
Theorem finished_match_announced_every_cycle :
  map (fun e => (ev_name e, ev_teamId e, match_id (ev_match e)))
    (emitted (run staleResultRun newWorld))
  = [(MATCH_FINISHED, 57, 1); (TEAM_WON, 57, 1);
     (MATCH_FINISHED, 57, 1); (TEAM_WON, 57, 1);
     (MATCH_FINISHED, 57, 1); (TEAM_WON, 57, 1)]
  /\ matchCache (manager (run (take 2 staleResultRun) newWorld)) !! 1 = None
  /\ matchCache (manager (run (take 4 staleResultRun) newWorld)) !! 1 = None
  /\ matchCache (manager (run staleResultRun newWorld)) !! 1 = None
  /\ (processMatchUpdates {[ 57 := {[ 0%nat ]} ]} [oldResult] ∅).2
     = (processMatchUpdates {[ 57 := {[ 0%nat ]} ]} [oldResult]
          (cleanupCache 21000000
             (processMatchUpdates {[ 57 := {[ 0%nat ]} ]}
                [oldResult] ∅).1)).2
  /\ latched 1 Finished
       (processMatchUpdates {[ 57 := {[ 0%nat ]} ]} [oldResult] ∅).1.
Proof.
  split; [vm_compute; reflexivity|].
  split; [vm_compute; reflexivity|].
  split; [vm_compute; reflexivity|].
  split; [vm_compute; reflexivity|].
  split; [vm_compute; reflexivity|].
  eexists. split; [vm_compute; reflexivity | reflexivity].
Qed.


(** ** Goal events *)

Lemma countEvents_app name teamId id (o1 o2 : list Event) :
  countEvents name teamId id (o1 ++ o2)
  = (countEvents name teamId id o1 + countEvents name teamId id o2)%nat.
Proof.
  unfold countEvents. rewrite List.filter_app, length_app. reflexivity.
Qed.

Lemma countEvents_named name teamId id names m (out : list Event) :
  namedIn names m out -> ~ In name names ->
  countEvents name teamId id out = 0%nat.
Proof.
  intros Hn Hno. unfold countEvents.
  induction Hn as [|e out [He _] _ IH]; simpl; auto.
  unfold isEvent at 1.
  destruct (bool_decide (ev_name e = name)) eqn:E; simpl; auto.
  apply bool_decide_eq_true in E. subst. contradiction.
Qed.

Lemma countEvents_emitForTeam name teamId id tt t n m d :
  countEvents name teamId id (emitForTeam tt t n m d)
  = if bool_decide (n = name) && bool_decide (t = teamId)
       && bool_decide (match_id m = id)
       && bool_decide (is_Some (tt !! t))
    then 1%nat else 0%nat.
Proof.
  unfold emitForTeam, countEvents.
  destruct (bool_decide (is_Some (tt !! t))); simpl.
  - unfold isEvent. simpl.
    destruct (bool_decide (n = name) && bool_decide (t = teamId)
              && bool_decide (match_id m = id)); reflexivity.
  - rewrite andb_false_r. reflexivity.
Qed.

Lemma countEvents_resultChange name teamId id tt m t o n h a isHome :
  name <> MATCH_RESULT_CHANGED ->
  countEvents name teamId id (emitResultStateChange tt m t o n h a isHome)
  = 0%nat.
Proof.
  intros Hne. eapply countEvents_named;
    [apply emitResultStateChange_named|].
  intros [H|[]]. congruence.
Qed.

Lemma countEvents_if name teamId id (c : bool) (l : list Event) :
  countEvents name teamId id (if c then l else [])
  = if c then countEvents name teamId id l else 0%nat.
Proof. destruct c; reflexivity. Qed.

Ltac count_cases :=
  rewrite ?countEvents_if, ?countEvents_app, ?countEvents_emitForTeam;
  rewrite ?(bool_decide_eq_true_2 (_ = _) eq_refl);
  repeat case_bool_decide; subst; cbn [andb orb negb];
  repeat case_bool_decide; subst; cbn [andb orb negb Nat.add];
  try reflexivity; try congruence; try lia.

(** [team_scored] events of [handleScoreChange] for one team. *)
Lemma handleScoreChange_scored tt m cached teamId :
  countEvents TEAM_SCORED teamId (match_id m)
    (handleScoreChange tt m cached (orZero (match_home m))
       (orZero (match_away m)))
  = if bool_decide (is_Some (tt !! teamId))
    then sideIncreases teamId m cached else 0%nat.
Proof.
  unfold handleScoreChange, sideIncreases. cbv zeta.
  rewrite !countEvents_app.
  rewrite !countEvents_resultChange by discriminate.
  count_cases.
Qed.

Lemma handleScoreChange_conceded tt m cached teamId :
  countEvents TEAM_CONCEDED teamId (match_id m)
    (handleScoreChange tt m cached (orZero (match_home m))
       (orZero (match_away m)))
  = if bool_decide (is_Some (tt !! teamId))
    then opponentIncreases teamId m cached else 0%nat.
Proof.
  unfold handleScoreChange, opponentIncreases. cbv zeta.
  rewrite !countEvents_app.
  rewrite !countEvents_resultChange by discriminate.
  count_cases.
Qed.

Ltac named_more :=
  repeat match goal with
         | |- namedIn _ _ [] => apply namedIn_nil
         | |- namedIn _ _ (_ ++ _) => apply namedIn_app
         | |- namedIn _ _ (emitForTeams _ _ _ _ _) =>
             named_leaf emitForTeams_named
         | |- namedIn _ _ (emitForTeam _ _ _ _ _) =>
             named_leaf emitForTeam_named
         | |- namedIn _ _ (emitMatchResult _ _) =>
             named_leaf emitMatchResult_named
         | |- namedIn _ _ (if ?b then _ else _) => destruct b
         end.

Lemma handleStatusChange_named tt (m : Match) (cached : MatchState) :
  namedIn statusEvents m (handleStatusChange tt m cached).2.
Proof.
  unfold handleStatusChange, statusEvents. cbv zeta.
  split_conditions; cbn [snd]; named_more.
Qed.

Lemma discoverMatch_named tt (m : Match) :
  namedIn statusEvents m (discoverMatch tt m).2.
Proof.
  unfold discoverMatch, statusEvents. cbv zeta.
  destruct (bool_decide (match_status m = MATCH_STATUS.IN_PLAY));
  destruct (bool_decide (match_status m = MATCH_STATUS.PAUSED));
  destruct (bool_decide (match_status m = MATCH_STATUS.FINISHED));
  destruct (bool_decide (match_status m = MATCH_STATUS.AWARDED));
  cbn [orb snd]; named_more.
Qed.

Lemma countEvents_other name teamId id m (out : list Event) :
  Forall (fun e => ev_match e = m) out -> match_id m <> id ->
  countEvents name teamId id out = 0%nat.
Proof.
  intros Hn Hne. unfold countEvents.
  induction Hn as [|e out He _ IH]; simpl; auto.
  unfold isEvent at 1. rewrite He.
  rewrite (bool_decide_eq_false_2 (match_id m = id)) by exact Hne.
  rewrite andb_false_r. exact IH.
Qed.

Lemma sideIncreases_unchanged teamId m cached :
  orZero (match_home m) = homeScore cached ->
  orZero (match_away m) = awayScore cached ->
  sideIncreases teamId m cached = 0%nat
  /\ opponentIncreases teamId m cached = 0%nat.
Proof.
  intros H1 H2. unfold sideIncreases, opponentIncreases.
  rewrite !(bool_decide_eq_false_2 (_ > _)) by lia.
  rewrite !andb_false_r. auto.
Qed.

Lemma updateMatch_goals tt m cached teamId name count :
  (name = TEAM_SCORED /\ count = sideIncreases)
  \/ (name = TEAM_CONCEDED /\ count = opponentIncreases) ->
  countEvents name teamId (match_id m) (updateMatch tt m cached).2
  = if includes LIVE_STATUSES (match_status m)
       && bool_decide (is_Some (tt !! teamId))
    then count teamId m cached else 0%nat.
Proof.
  intros Hwhich.
  assert (Hname : ~ In name statusEvents).
  { unfold statusEvents.
    destruct Hwhich as [[-> _]|[-> _]]; simpl; intuition discriminate. }
  unfold updateMatch.
  pose proof (handleStatusChange_named tt m cached) as Hs.
  set (r := if negb (bool_decide (st_status cached = match_status m))
            then handleStatusChange tt m cached
            else (events cached, [])).
  assert (H1 : countEvents name teamId (match_id m) r.2 = 0%nat).
  { eapply countEvents_named; [|exact Hname].
    unfold r. destruct (negb _); [exact Hs | apply namedIn_nil]. }
  destruct r as [ev o1]. cbn [fst snd] in *.
  rewrite countEvents_app, H1. cbn [Nat.add].
  destruct (includes LIVE_STATUSES (match_status m)); cbn [andb];
    [|reflexivity].
  destruct (bool_decide (orZero (match_home m) = homeScore cached)) eqn:Eh;
    destruct (bool_decide (orZero (match_away m) = awayScore cached))
      eqn:Ea; cbn [negb orb].
  - apply bool_decide_eq_true in Eh. apply bool_decide_eq_true in Ea.
    destruct (sideIncreases_unchanged teamId m cached Eh Ea) as [Z1 Z2].
    destruct Hwhich as [[-> ->]|[-> ->]];
      destruct (bool_decide (is_Some (tt !! teamId))); auto.
  - destruct Hwhich as [[-> ->]|[-> ->]];
      [apply handleScoreChange_scored | apply handleScoreChange_conceded].
  - destruct Hwhich as [[-> ->]|[-> ->]];
      [apply handleScoreChange_scored | apply handleScoreChange_conceded].
  - destruct Hwhich as [[-> ->]|[-> ->]];
      [apply handleScoreChange_scored | apply handleScoreChange_conceded].
Qed.

(** The goal events of one iteration of the detector. *)
Lemma processMatch_goals tt m cache teamId id name count :
  (name = TEAM_SCORED /\ count = sideIncreases)
  \/ (name = TEAM_CONCEDED /\ count = opponentIncreases) ->
  countEvents name teamId id (processMatch tt m cache).2
  = reportedIncrease count teamId id tt m cache.
Proof.
  intros Hwhich.
  destruct (decide (match_id m = id)) as [<-|Hne].
  - unfold processMatch, reportedIncrease.
    destruct (cache !! match_id m) as [cached|].
    + rewrite (bool_decide_eq_true_2 (match_id m = match_id m)) by reflexivity.
      cbn [andb].
      rewrite <- (updateMatch_goals tt m cached teamId name count Hwhich).
      destruct (updateMatch tt m cached) as [st out]. reflexivity.
    + pose proof (discoverMatch_named tt m) as Hd.
      destruct (discoverMatch tt m) as [st out]. cbn [fst snd] in *.
      eapply countEvents_named; [exact Hd|].
      unfold statusEvents.
      destruct Hwhich as [[-> _]|[-> _]]; simpl; intuition discriminate.
  - rewrite (countEvents_other name teamId id m);
      [|apply processMatch_about|exact Hne].
    unfold reportedIncrease. destruct (cache !! match_id m); [|reflexivity].
    rewrite (bool_decide_eq_false_2 (match_id m = id)) by exact Hne.
    reflexivity.
Qed.

Lemma processMatchUpdates_goals tt ms cache teamId id name count :
  (name = TEAM_SCORED /\ count = sideIncreases)
  \/ (name = TEAM_CONCEDED /\ count = opponentIncreases) ->
  countEvents name teamId id (processMatchUpdates tt ms cache).2
  = sumOverMatches (reportedIncrease count teamId id) tt ms cache.
Proof.
  intros Hwhich. revert cache.
  induction ms as [|m rest IH]; intros cache; simpl; [reflexivity|].
  rewrite <- (processMatch_goals tt m cache teamId id name count Hwhich).
  rewrite <- IH.
  destruct (processMatch tt m cache) as [cache1 out1]. simpl.
  destruct (processMatchUpdates tt rest cache1) as [cache2 out2]. simpl.
  apply countEvents_app.
Qed.

Lemma detectorRuns_goals runs cache teamId id name count :
  (name = TEAM_SCORED /\ count = sideIncreases)
  \/ (name = TEAM_CONCEDED /\ count = opponentIncreases) ->
  countEvents name teamId id (detectorRuns runs cache).2
  = sumOverRuns (reportedIncrease count teamId id) runs cache.
Proof.
  intros Hwhich. revert cache.
  induction runs as [|[tt ms] rest IH]; intros cache; simpl; [reflexivity|].
  rewrite <- (processMatchUpdates_goals tt ms cache teamId id name count
                Hwhich).
  rewrite <- IH.
  destruct (processMatchUpdates tt ms cache) as [cache1 out1]. simpl.
  destruct (detectorRuns rest cache1) as [cache2 out2]. simpl.
  apply countEvents_app.
Qed.

(** C4 (as the code has it).  Over any sequence of detector runs, the
    [team_scored] events delivered for a team about a match are as many
    as the snapshots of that match which had a cache entry, were fetched
    with status IN_PLAY or PAUSED while the team had a registered
    device, and showed that team's side strictly above the cached score;
    the [team_conceded] events for the team are as many as such
    snapshots in which the opposing side was strictly above the cached
    score.  One event per snapshot and side, none twice. *)
Theorem goal_events_count
    (runs : list (gmap Z (gset nat) * list Match))
    (matchCache : gmap Z MatchState) (teamId id : Z) :
  countEvents TEAM_SCORED teamId id (detectorRuns runs matchCache).2
  = sumOverRuns (reportedIncrease sideIncreases teamId id) runs matchCache
  /\ countEvents TEAM_CONCEDED teamId id (detectorRuns runs matchCache).2
     = sumOverRuns (reportedIncrease opponentIncreases teamId id) runs
         matchCache.
Proof.
  split; apply detectorRuns_goals; auto.
Qed.

(** C4, counterexample: match 1 is cached IN_PLAY at 0-0 and both teams
    are tracked; the next snapshot is FINISHED at 1-0.  The home score
    strictly increased versus the cache in one cycle, yet no
    [team_scored] (and no [team_conceded]) event is emitted, and the
    cache takes the new score. *)
Lemma late_goal_not_reported :
  sumOverRuns (strictIncrease sideIncreases 57 1) lateGoal cacheAfterKickoff
  = 1%nat
  /\ countEvents TEAM_SCORED 57 1 (detectorRuns lateGoal cacheAfterKickoff).2
     = 0%nat
  /\ countEvents TEAM_CONCEDED 61 1
       (detectorRuns lateGoal cacheAfterKickoff).2 = 0%nat
  /\ homeScore <$> ((detectorRuns lateGoal cacheAfterKickoff).1 !! 1)
     = Some 1.
Proof. vm_compute. repeat split; reflexivity. Qed.

(** ** The polling loop and its timer *)

(** C5.  When the awaited fetch of a cycle rejects, the cycle ends in the
    [catch] branch: the cache, the threshold records, the polling state
    and the tracked teams are as before, nothing is emitted, and a timer
    with the fixed delay 60000 ms is armed, whatever the polling state;
    when that timer fires, [poll] runs again. *)
Theorem poll_fetch_error (f : Fetch) (now : Z) (w : World) :
  let w' := pollResume f None now w in
  matchCache (manager w') = matchCache (manager w)
  /\ matchStartsSoonTriggered (manager w')
     = matchStartsSoonTriggered (manager w)
  /\ pollingState (manager w') = pollingState (manager w)
  /\ trackedTeams (manager w') = trackedTeams (manager w)
  /\ emitted w' = emitted w
  /\ inflight w' = inflight w
  /\ exists t,
       pollTimer (manager w') = Some t
       /\ timeouts (homey w') !! t = Some 60000
       /\ act (TimerFires t) w'
          = pollStart
              (mkWorld (manager w')
                 (mkHomey (delete t (timeouts (homey w')))
                    (nextTimeout (homey w')))
                 (inflight w') (emitted w')).
Proof.
  unfold pollResume. simpl. repeat split.
  exists (nextTimeout (homey w)). simpl.
  rewrite lookup_insert_eq. auto.
Qed.

Lemma scheduleNextPoll_armed (w : World) :
  let w' := scheduleNextPoll w in
  exists t,
    pollTimer (manager w') = Some t
    /\ timeouts (homey w') !! t
       = Some (POLLING_INTERVALS (pollingState (manager w)))
    /\ matchCache (manager w') = matchCache (manager w)
    /\ matchStartsSoonTriggered (manager w')
       = matchStartsSoonTriggered (manager w)
    /\ pollingState (manager w') = pollingState (manager w)
    /\ trackedTeams (manager w') = trackedTeams (manager w)
    /\ inflight w' = inflight w
    /\ emitted w' = emitted w.
Proof.
  unfold scheduleNextPoll, getPollingInterval.
  destruct (pollTimer (manager w)) as [t0|]; simpl;
    eexists; (split; [reflexivity|]);
    rewrite lookup_insert_eq; repeat split.
Qed.

Lemma no_tracked_ids (mm : MatchManager) :
  trackedTeams mm = ∅ -> getTrackedTeamIds mm = [].
Proof.
  intros H. unfold getTrackedTeamIds. rewrite H, dom_empty_L.
  apply elements_empty.
Qed.

Lemma pollStart_without_teams (w : World) :
  trackedTeams (manager w) = ∅ -> pollStart w = scheduleNextPoll w.
Proof.
  intros Hzero. unfold pollStart.
  rewrite (no_tracked_ids _ Hzero). reflexivity.
Qed.

(** C7 (as the code has it).  A [poll] invoked while no team is tracked
    issues no fetch, leaves the polling state, the cache and the
    threshold records as they are, and arms the next cycle with the
    delay of the recorded polling state; that is 15 minutes when the
    recorded state is IDLE. *)
Theorem poll_without_teams (w : World) :
  trackedTeams (manager w) = ∅ ->
  let w' := pollStart w in
  inflight w' = inflight w
  /\ pollingState (manager w') = pollingState (manager w)
  /\ matchCache (manager w') = matchCache (manager w)
  /\ matchStartsSoonTriggered (manager w')
     = matchStartsSoonTriggered (manager w)
  /\ emitted w' = emitted w
  /\ exists t,
       pollTimer (manager w') = Some t
       /\ timeouts (homey w') !! t
          = Some (POLLING_INTERVALS (pollingState (manager w)))
       /\ (pollingState (manager w) = IDLE ->
           timeouts (homey w') !! t = Some (15 * 60 * 1000)).
Proof.
  intros Hzero. cbv zeta. rewrite (pollStart_without_teams w Hzero).
  destruct (scheduleNextPoll_armed w)
    as (t & Ht & Hd & Hc & Hs & Hp & _ & Hi & He).
  repeat split; auto.
  exists t. repeat split; auto.
  intros Hidle. rewrite Hd, Hidle. reflexivity.
Qed.

Lemma poll_without_teams_witness :
  trackedTeams (manager newWorld) = ∅
  /\ inflight (pollStart newWorld) = []
  /\ timeouts (homey (pollStart newWorld)) !! 0%nat = Some 900000.
Proof.
  split; [reflexivity|].
  destruct (poll_without_teams newWorld eq_refl)
    as (Hi & _ & _ & _ & _ & _).
  split; [exact Hi | vm_compute; reflexivity].
Defined.

(** C7, counterexample: after the race the polling state is still LIVE
    and no team is tracked; the pending timer fires, [poll] finds no
    team, issues no fetch and arms the next cycle at 30 s, not at the
    IDLE delay. *)
Lemma idle_poll_at_live_delay :
  trackedTeams (manager afterRace) = ∅
  /\ pollingState (manager afterRace) = LIVE
  /\ timeouts (homey afterRace) !! 1%nat = Some 30000
  /\ (let w' := act (TimerFires 1) afterRace in
      inflight w' = []
      /\ pollTimer (manager w') = Some 2%nat
      /\ timeouts (homey w') = {[ 2%nat := 30000 ]}
      /\ timeouts (homey w') !! 2%nat <> Some (POLLING_INTERVALS IDLE)).
Proof. vm_compute. repeat split; try reflexivity. discriminate. Qed.

(** C6 (as the code has it).  When [unregisterDevice] leaves no tracked
    team, [pollTimer] is null afterwards and the timer it held is
    removed from the host's pending timers; no other timer is touched.
    Nothing else guards the loop: a [poll] invoked while no team is
    tracked arms a new timer. *)
Theorem unregister_last_clears_timer (teamId : Z) (device : nat)
    (w : World) :
  let w' := unregisterDevice teamId device w in
  trackedTeams (manager w') = ∅ ->
  pollTimer (manager w') = None
  /\ (forall t, pollTimer (manager w) = Some t ->
        timeouts (homey w') = delete t (timeouts (homey w)))
  /\ (pollTimer (manager w) = None -> homey w' = homey w)
  /\ (forall w0, trackedTeams (manager w0) = ∅ ->
        exists t, pollTimer (manager (pollStart w0)) = Some t
          /\ is_Some (timeouts (homey (pollStart w0)) !! t)).
Proof.
  cbv zeta. unfold unregisterDevice.
  set (tt1 := match trackedTeams (manager w) !! teamId with
              | Some devices =>
                  if bool_decide (size (devices ∖ {[device]}) = 0%nat)
                  then delete teamId (trackedTeams (manager w))
                  else <[teamId := devices ∖ {[device]}]>
                         (trackedTeams (manager w))
              | None => trackedTeams (manager w)
              end).
  destruct (bool_decide (size tt1 = 0%nat)) eqn:Esize.
  - intros _. unfold stopPolling. simpl.
    destruct (pollTimer (manager w)) as [t0|] eqn:Et; simpl.
    + split; [reflexivity|]. split.
      * intros t Ht. inversion Ht; subst. reflexivity.
      * split; [discriminate|].
        intros w0 H0. rewrite (pollStart_without_teams w0 H0).
        destruct (scheduleNextPoll_armed w0) as (t & Ht & Hd & _).
        exists t. split; [exact Ht|]. rewrite Hd. eauto.
    + rewrite Et. split; [reflexivity|]. split; [discriminate|].
      split; [reflexivity|].
      intros w0 H0. rewrite (pollStart_without_teams w0 H0).
      destruct (scheduleNextPoll_armed w0) as (t & Ht & Hd & _).
      exists t. split; [exact Ht|]. rewrite Hd. eauto.
  - simpl. intros Hempty. apply bool_decide_eq_false in Esize.
    exfalso. apply Esize. rewrite Hempty. apply map_size_empty.
Qed.

(** Team 57's only device unregisters while a timer is pending. *)
Lemma unregister_last_clears_timer_witness :
  let w := run [Register 57 0; FetchSettles 0 (Some [liveSnapshot]) 3600000]
             newWorld in
  timeouts (homey w) = {[ 0%nat := 30000 ]}
  /\ trackedTeams (manager (unregisterDevice 57 0 w)) = ∅
  /\ pollTimer (manager (unregisterDevice 57 0 w)) = None
  /\ timeouts (homey (unregisterDevice 57 0 w)) = ∅.
Proof.
  cbv zeta.
  assert (H : trackedTeams
                (manager
                   (unregisterDevice 57 0
                      (run [Register 57 0;
                            FetchSettles 0 (Some [liveSnapshot]) 3600000]
                         newWorld))) = ∅)
    by (vm_compute; reflexivity).
  destruct (unregister_last_clears_timer 57 0 _ H) as (Hnone & Hdel & _).
  split; [vm_compute; reflexivity|]. split; [exact H|].
  split; [exact Hnone|].
  rewrite (Hdel 0%nat) by (vm_compute; reflexivity).
  vm_compute. reflexivity.
Defined.

(** C6, counterexample: the last device unregisters while a cycle is in
    flight.  [stopPolling] leaves no timer, but the cycle completes with
    zero tracked teams and arms one; when that timer fires, the cycle
    that finds no teams arms the next. *)
Lemma timer_pending_without_teams :
  (let w := run (take 4 unregisterDuringFetch) newWorld in
   trackedTeams (manager w) = ∅
   /\ pollTimer (manager w) = None
   /\ timeouts (homey w) = ∅
   /\ length (inflight w) = 1%nat)
  /\ trackedTeams (manager afterRace) = ∅
  /\ pollTimer (manager afterRace) = Some 1%nat
  /\ timeouts (homey afterRace) = {[ 1%nat := 30000 ]}
  /\ (let w := act (TimerFires 1) afterRace in
      trackedTeams (manager w) = ∅
      /\ timeouts (homey w) = {[ 2%nat := 30000 ]}).
Proof. vm_compute. repeat split; reflexivity. Qed.

(** ** "Match starts soon" *)

Lemma emitForTeams_In tt (teamIds : list Z) n m d (e : Event) :
  In e (emitForTeams tt teamIds n m d)
  <-> exists t, In t teamIds /\ is_Some (tt !! t) /\ e = mkEvent n t m d.
Proof.
  unfold emitForTeams. rewrite in_flat_map. unfold emitForTeam.
  split.
  - intros (t & Hin & He). exists t. split; [exact Hin|].
    destruct (bool_decide (is_Some (tt !! t))) eqn:E; [|destruct He].
    apply bool_decide_eq_true in E. destruct He as [<-|[]]. auto.
  - intros (t & Hin & Hs & ->). exists t. split; [exact Hin|].
    rewrite bool_decide_eq_true_2 by exact Hs. left. reflexivity.
Qed.

Lemma inRange_spec (now kickoff T : Z) (m : Match) :
  match_utcDate m = Some kickoff ->
  inRange (minutesBetween kickoff now) T = true <-> withinThreshold now m T.
Proof.
  intros Hk. unfold inRange, withinThreshold.
  rewrite andb_true_iff, Qltb_lt, Qle_bool_iff.
  rewrite (minutesBetween_le kickoff now T), (minutesBetween_gt kickoff now 0).
  split.
  - intros [H1 H2]. exists kickoff. repeat split; auto; lia.
  - intros (k & Hk' & H1 & H2). rewrite Hk in Hk'. inversion Hk'; subst. lia.
Qed.

Lemma inRange_above (u : Q) (T1 T2 : Z) :
  T1 <= T2 -> inRange u T1 = true -> inRange u T2 = true.
Proof.
  unfold inRange. rewrite !andb_true_iff, !Qle_bool_iff.
  intros HT [H1 H2]. split; [|exact H2].
  eapply Qle_trans; [exact H1|].
  unfold Qle, inject_Z. simpl. lia.
Qed.

Lemma firedFor_insert (triggered : gmap Z (gset Z)) (id id' : Z)
    (s : gset Z) :
  firedFor (<[id := s]> triggered) id'
  = if decide (id = id') then s else firedFor triggered id'.
Proof.
  unfold firedFor. rewrite lookup_insert. destruct (decide (id = id')); auto.
Qed.

Lemma flat_map_agree {A B : Type} (f g : A -> list B) (l : list A) :
  (forall a, In a l -> f a = g a) -> flat_map f l = flat_map g l.
Proof.
  induction l as [|a l IH]; intros H; simpl; [reflexivity|].
  rewrite (H a) by (left; reflexivity).
  rewrite IH; [reflexivity|]. intros b Hb. apply H. right. exact Hb.
Qed.

(** The inner loop over the thresholds, for a list without repeats. *)
Lemma checkThresholds_spec tt (m : Match) (u : Q) (ths : list Z)
    (triggered : gmap Z (gset Z)) :
  NoDup ths ->
  let r := checkThresholds tt m u ths triggered in
  r.2 = soonEvents tt m u (firedFor triggered (match_id m)) ths
  /\ (firedFor r.1 (match_id m)
      = firedFor triggered (match_id m)
        ∪ list_to_set (List.filter (inRange u) ths))
  /\ forall id, id <> match_id m -> r.1 !! id = triggered !! id.
Proof.
  revert triggered. induction ths as [|T ths IH]; intros triggered Hnd.
  - simpl. split; [reflexivity|]. split; [set_solver | auto].
  - apply NoDup_cons in Hnd. destruct Hnd as [Hnotin Hnd].
    cbn [checkThresholds]. unfold soonEvents. cbn [flat_map List.filter].
    fold (inRange u T).
    fold (firedFor triggered (match_id m)).
    destruct (inRange u T) eqn:Er; cbn [andb].
    + destruct (bool_decide (T ∈ firedFor triggered (match_id m))) eqn:Ef;
        cbn [negb].
      * specialize (IH triggered Hnd). cbv zeta in IH.
        destruct (checkThresholds tt m u ths triggered) as [t2 o2].
        simpl in *. destruct IH as (Ho & Hf & Hother).
        apply bool_decide_eq_true in Ef.
        split; [exact Ho|]. split; [|exact Hother].
        rewrite Hf. set_solver.
      * set (t1 := <[match_id m := {[T]} ∪ firedFor triggered (match_id m)]>
                     triggered).
        specialize (IH t1 Hnd). cbv zeta in IH.
        destruct (checkThresholds tt m u ths t1) as [t2 o2].
        simpl in *. destruct IH as (Ho & Hf & Hother).
        assert (Hf1 : firedFor t1 (match_id m)
                      = {[T]} ∪ firedFor triggered (match_id m)).
        { unfold t1. rewrite firedFor_insert.
          destruct (decide (match_id m = match_id m)); congruence. }
        split; [|split].
        -- f_equal. rewrite Ho. unfold soonEvents.
           apply flat_map_agree. intros T' HT'. rewrite Hf1.
           assert (T' <> T) by (intros ->; apply Hnotin;
                                 apply list_elem_of_In; exact HT').
           destruct (inRange u T'); simpl; [|reflexivity].
           destruct (bool_decide (T' ∈ firedFor triggered (match_id m)))
             eqn:E.
           ++ apply bool_decide_eq_true in E.
              rewrite bool_decide_eq_true_2 by set_solver. reflexivity.
           ++ apply bool_decide_eq_false in E.
              rewrite bool_decide_eq_false_2 by set_solver. reflexivity.
        -- rewrite Hf, Hf1. set_solver.
        -- intros id Hid. rewrite Hother by exact Hid. unfold t1.
           apply lookup_insert_ne. congruence.
    + specialize (IH triggered Hnd). cbv zeta in IH.
      destruct (checkThresholds tt m u ths triggered) as [t2 o2].
      simpl in *. exact IH.
Qed.

Lemma thresholds_NoDup : NoDup MATCH_SOON_THRESHOLDS.
Proof.
  unfold MATCH_SOON_THRESHOLDS.
  repeat (apply NoDup_cons; split; [set_solver|]). apply NoDup_nil_2.
Qed.

Lemma soonEvents_In tt (m : Match) (u : Q) (fired : gset Z)
    (ths : list Z) (e : Event) :
  In e (soonEvents tt m u fired ths)
  <-> exists T t,
        In T ths /\ inRange u T = true /\ (T ∉ fired)
        /\ In t [team_id (homeTeam m); team_id (awayTeam m)]
        /\ is_Some (tt !! t)
        /\ e = mkEvent MATCH_STARTS_SOON t m (Minutes T).
Proof.
  unfold soonEvents. rewrite in_flat_map. split.
  - intros (T & HT & He).
    destruct (inRange u T) eqn:Er; [|destruct He].
    destruct (bool_decide (T ∈ fired)) eqn:Ef; [destruct He|].
    apply bool_decide_eq_false in Ef. cbn [andb negb] in He.
    apply emitForTeams_In in He. destruct He as (t & Ht & Hs & ->).
    exists T, t. auto 10.
  - intros (T & t & HT & Er & Ef & Ht & Hs & ->). exists T.
    split; [exact HT|]. rewrite Er.
    rewrite bool_decide_eq_false_2 by exact Ef. cbn [andb negb].
    apply emitForTeams_In. exists t. auto.
Qed.

(** One iteration of [checkMatchStartsSoon]. *)
Lemma checkMatch_spec (now : Z) tt (m : Match)
    (triggered : gmap Z (gset Z)) :
  let r := checkMatch now tt m triggered in
  (forall id, id <> match_id m -> r.1 !! id = triggered !! id)
  /\ (firedFor triggered (match_id m) ⊆ firedFor r.1 (match_id m))
  /\ (forall e, In e r.2 <->
        upcomingStatus m /\
        exists T t,
          In T MATCH_SOON_THRESHOLDS /\ withinThreshold now m T
          /\ (T ∉ firedFor triggered (match_id m))
          /\ In t [team_id (homeTeam m); team_id (awayTeam m)]
          /\ is_Some (tt !! t)
          /\ e = mkEvent MATCH_STARTS_SOON t m (Minutes T))
  /\ (forall T, In T MATCH_SOON_THRESHOLDS -> upcomingStatus m ->
        withinThreshold now m T -> T ∈ firedFor r.1 (match_id m)).
Proof.
  cbv zeta. unfold checkMatch.
  pose proof (includes_upcoming m) as Hup.
  destruct (includes UPCOMING_STATUSES (match_status m)); cbn [negb].
  - assert (Hu : upcomingStatus m) by (apply Hup; reflexivity).
    destruct (match_utcDate m) as [kickoff|] eqn:Ek.
    + destruct (checkThresholds_spec tt m (minutesBetween kickoff now)
                  MATCH_SOON_THRESHOLDS triggered thresholds_NoDup)
        as (Ho & Hf & Hother).
      split; [exact Hother|]. split; [rewrite Hf; set_solver|]. split.
      * intros e. rewrite Ho, soonEvents_In. split.
        -- intros (T & t & HT & Hr & Hrest). split; [exact Hu|].
           exists T, t. split; [exact HT|]. split; [|exact Hrest].
           apply (inRange_spec now kickoff T m Ek). exact Hr.
        -- intros (_ & T & t & HT & Hr & Hrest). exists T, t.
           split; [exact HT|]. split; [|exact Hrest].
           apply (inRange_spec now kickoff T m Ek). exact Hr.
      * intros T HT _ Hr. rewrite Hf.
        apply (inRange_spec now kickoff T m Ek) in Hr.
        apply elem_of_union_r. apply elem_of_list_to_set.
        apply list_elem_of_In. apply filter_In. auto.
    + cbn [fst snd]. split; [auto|]. split; [set_solver|]. split.
      * intros e. split; [intros []|].
        intros (_ & T & t & _ & (k & Hk & _) & _). congruence.
      * intros T _ _ (k & Hk & _). congruence.
  - assert (Hu : ~ upcomingStatus m).
    { intros H. apply Hup in H. discriminate. }
    cbn [fst snd]. split; [auto|]. split; [set_solver|]. split.
    + intros e. split; [intros []|]. intros (H & _). contradiction.
    + intros T _ H. contradiction.
Qed.

Lemma checkMatch_mono (now : Z) tt (m : Match)
    (triggered : gmap Z (gset Z)) (id : Z) :
  firedFor triggered id ⊆ firedFor (checkMatch now tt m triggered).1 id.
Proof.
  destruct (checkMatch_spec now tt m triggered) as (Hother & Hsub & _).
  destruct (decide (id = match_id m)) as [->|Hne]; [exact Hsub|].
  unfold firedFor. rewrite Hother by exact Hne. reflexivity.
Qed.

Lemma withinThreshold_above (now : Z) (m : Match) (T1 T2 : Z) :
  T1 <= T2 -> withinThreshold now m T1 -> withinThreshold now m T2.
Proof.
  intros HT (k & Hk & H1 & H2). exists k. repeat split; auto. lia.
Qed.

(** What a whole [checkMatchStartsSoon] emits and records. *)
Lemma checkMatchStartsSoon_closed (now : Z) tt (ms : list Match)
    (triggered : gmap Z (gset Z)) :
  let r := checkMatchStartsSoon now tt ms triggered in
  (forall id, firedFor triggered id ⊆ firedFor r.1 id)
  /\ (forall id, ~ In id (map match_id ms) -> r.1 !! id = triggered !! id)
  /\ forall e, In e r.2 ->
       In (ev_match e) ms
       /\ exists T, isSoonEvent (match_id (ev_match e)) T e
            /\ In T MATCH_SOON_THRESHOLDS
            /\ (T ∉ firedFor triggered (match_id (ev_match e)))
            /\ closedAbove r.1 (match_id (ev_match e)) T.
Proof.
  revert triggered. induction ms as [|m rest IH]; intros triggered.
  - simpl. split; [set_solver|]. split; [auto|]. intros e [].
  - cbn [checkMatchStartsSoon].
    pose proof (checkMatch_spec now tt m triggered) as Hm.
    pose proof (checkMatch_mono now tt m triggered) as Hmono.
    destruct (checkMatch now tt m triggered) as [t1 o1].
    specialize (IH t1). cbv zeta in IH, Hm.
    destruct (checkMatchStartsSoon now tt rest t1) as [t2 o2].
    cbn [fst snd map] in *. destruct Hm as (Hother & _ & Hout & Hfired).
    destruct IH as (IHmono & IHother & IHout).
    split; [|split].
    + intros id. etransitivity; [apply Hmono | apply IHmono].
    + intros id Hid. rewrite IHother.
      * apply Hother. intros ->. apply Hid. left. reflexivity.
      * intros H'. apply Hid. right. exact H'.
    + intros e He. apply in_app_or in He. destruct He as [He|He].
      * apply Hout in He.
        destruct He as (Hup & T & t & HT & Hr & Hnf & _ & _ & ->).
        simpl. split; [left; reflexivity|].
        exists T. split; [repeat split|]. split; [exact HT|].
        split; [exact Hnf|].
        intros T' HT' Hle. apply IHmono. apply Hfired; auto.
        eapply withinThreshold_above; eauto.
      * destruct (IHout e He) as (Hin & T & Hs & HT & Hnf & Hcl).
        split; [right; exact Hin|].
        exists T. split; [exact Hs|]. split; [exact HT|].
        split; [|exact Hcl].
        intros Hf. apply Hnf. revert Hf. apply Hmono.
Qed.

Lemma cleanupTriggered_keeps (ms : list Match)
    (triggered : gmap Z (gset Z)) (id : Z) :
  In id (map match_id ms) ->
  firedFor (cleanupTriggered ms triggered) id = firedFor triggered id.
Proof.
  intros Hin. unfold firedFor, cleanupTriggered.
  destruct (triggered !! id) as [s|] eqn:E.
  - erewrite map_lookup_filter_Some_2; eauto.
    simpl. apply list_elem_of_In. exact Hin.
  - rewrite map_lookup_filter_None_2; auto.
Qed.

Lemma soonCycle_closed (now : Z) tt (ms : list Match)
    (triggered : gmap Z (gset Z)) (id : Z) :
  In id (map match_id ms) ->
  let r := soonCycle now tt ms triggered in
  firedFor triggered id ⊆ firedFor r.1 id
  /\ forall e T, In e r.2 -> isSoonEvent id T e ->
       In T MATCH_SOON_THRESHOLDS
       /\ (T ∉ firedFor triggered id)
       /\ closedAbove r.1 id T.
Proof.
  intros Hin. unfold soonCycle.
  pose proof (checkMatchStartsSoon_closed now tt ms triggered) as H.
  destruct (checkMatchStartsSoon now tt ms triggered) as [t1 out].
  cbv zeta in *. simpl in *. destruct H as (Hmono & _ & Hout).
  split.
  - rewrite cleanupTriggered_keeps by exact Hin. apply Hmono.
  - intros e T He (Hn & Hid & Hp).
    destruct (Hout e He) as (_ & T' & (_ & _ & Hp') & HT & Hnf & Hcl).
    rewrite Hp in Hp'. inversion Hp'; subst T'. rewrite Hid in *.
    split; [exact HT|]. split; [exact Hnf|].
    intros T2 H2 Hle. rewrite cleanupTriggered_keeps by exact Hin.
    apply Hcl; auto.
Qed.

Lemma soonCycles_closed
    (cycles : list (Z * gmap Z (gset nat) * list Match))
    (triggered : gmap Z (gset Z)) (id T1 : Z) :
  presentIn id cycles -> closedAbove triggered id T1 ->
  let r := soonCycles cycles triggered in
  closedAbove r.1 id T1
  /\ forall e T2, In e r.2 -> isSoonEvent id T2 e -> T2 < T1.
Proof.
  revert triggered. induction cycles as [|[[now tt] ms] rest IH];
    intros triggered Hp Hcl.
  - simpl. split; [exact Hcl|]. intros e T2 [].
  - apply Forall_cons in Hp. destruct Hp as [Hin Hp]. simpl in Hin.
    cbn [soonCycles].
    pose proof (soonCycle_closed now tt ms triggered id Hin) as Hc.
    destruct (soonCycle now tt ms triggered) as [t1 o1].
    cbv zeta in Hc. simpl in Hc. destruct Hc as [Hmono Hout].
    assert (Hcl1 : closedAbove t1 id T1).
    { intros T HT Hle. apply Hmono. apply Hcl; auto. }
    specialize (IH t1 Hp Hcl1). cbv zeta in IH.
    destruct (soonCycles rest t1) as [t2 o2]. simpl in *.
    destruct IH as [IHcl IHout]. split; [exact IHcl|].
    intros e T2 He Hs. apply in_app_or in He. destruct He as [He|He].
    + destruct (Hout e T2 He Hs) as (HT2 & Hnf & _).
      destruct (Z_lt_le_dec T2 T1) as [|Hle]; [assumption|].
      exfalso. apply Hnf. apply Hcl; auto.
    + eapply IHout; eauto.
Qed.

Lemma soonCycles_fires
    (cycles : list (Z * gmap Z (gset nat) * list Match))
    (triggered : gmap Z (gset Z)) (id : Z) :
  presentIn id cycles ->
  let r := soonCycles cycles triggered in
  forall e T, In e r.2 -> isSoonEvent id T e -> closedAbove r.1 id T.
Proof.
  revert triggered. induction cycles as [|[[now tt] ms] rest IH];
    intros triggered Hp.
  - simpl. intros e T [].
  - apply Forall_cons in Hp. destruct Hp as [Hin Hp]. simpl in Hin.
    cbn [soonCycles].
    pose proof (soonCycle_closed now tt ms triggered id Hin) as Hc.
    destruct (soonCycle now tt ms triggered) as [t1 o1].
    cbv zeta in Hc. simpl in Hc. destruct Hc as [Hmono Hout].
    specialize (IH t1 Hp). cbv zeta in IH.
    pose proof (fun T1 H => soonCycles_closed rest t1 id T1 Hp H) as Hkeep.
    destruct (soonCycles rest t1) as [t2 o2]. simpl in *.
    intros e T He Hs. apply in_app_or in He. destruct He as [He|He].
    + destruct (Hout e T He Hs) as (_ & _ & Hcl).
      apply (Hkeep T Hcl).
    + eapply IH; eauto.
Qed.

(** When exactly a threshold fires for a match of the list. *)
Lemma checkMatchStartsSoon_fire (now : Z) tt (ms : list Match)
    (triggered : gmap Z (gset Z)) (m : Match) (T : Z) :
  NoDup (map match_id ms) -> In m ms ->
  (exists e, In e (checkMatchStartsSoon now tt ms triggered).2
             /\ isSoonEvent (match_id m) T e)
  <-> upcomingStatus m /\ In T MATCH_SOON_THRESHOLDS
      /\ withinThreshold now m T
      /\ (T ∉ firedFor triggered (match_id m))
      /\ (is_Some (tt !! team_id (homeTeam m))
          \/ is_Some (tt !! team_id (awayTeam m))).
Proof.
  revert triggered. induction ms as [|m0 rest IH]; intros triggered Hnd Hin;
    [destruct Hin|].
  cbn [map] in Hnd. apply NoDup_cons in Hnd. destruct Hnd as [Hfresh Hnd].
  cbn [checkMatchStartsSoon].
  pose proof (checkMatch_spec now tt m0 triggered) as Hm.
  destruct (checkMatch now tt m0 triggered) as [t1 o1].
  pose proof (checkMatchStartsSoon_closed now tt rest t1) as Hrest.
  specialize (IH t1 Hnd).
  destruct (checkMatchStartsSoon now tt rest t1) as [t2 o2].
  cbv zeta in *. simpl in *.
  destruct Hm as (Hother & _ & Hout & _).
  destruct Hrest as (_ & _ & Hrest).
  destruct Hin as [->|Hin].
  - split.
    + intros (e & He & Hn & Hid & Hp). apply in_app_or in He.
      destruct He as [He|He].
      * apply Hout in He.
        destruct He as (Hup & T' & t & HT & Hr & Hnf & Ht & Hs & ->).
        simpl in Hp. inversion Hp; subst T'.
        repeat split; auto.
        destruct Ht as [<-|[<-|[]]]; auto.
      * exfalso. apply Hfresh. destruct (Hrest e He) as (Hin' & _).
        apply list_elem_of_In. rewrite <- Hid. apply in_map. exact Hin'.
    + intros (Hup & HT & Hr & Hnf & Htr).
      destruct Htr as [Hs|Hs].
      * exists (mkEvent MATCH_STARTS_SOON (team_id (homeTeam m)) m
                  (Minutes T)).
        split; [|repeat split].
        apply in_or_app. left. apply Hout. split; [exact Hup|].
        exists T, (team_id (homeTeam m)). simpl. auto 10.
      * exists (mkEvent MATCH_STARTS_SOON (team_id (awayTeam m)) m
                  (Minutes T)).
        split; [|repeat split].
        apply in_or_app. left. apply Hout. split; [exact Hup|].
        exists T, (team_id (awayTeam m)). simpl. auto 10.
  - assert (Hne : match_id m <> match_id m0).
    { intros Heq. apply Hfresh. rewrite <- Heq.
      apply list_elem_of_In. apply in_map. exact Hin. }
    assert (Hsame : firedFor t1 (match_id m)
                    = firedFor triggered (match_id m)).
    { unfold firedFor. rewrite Hother by exact Hne. reflexivity. }
    rewrite <- Hsame, <- (IH Hin). split.
    + intros (e & He & Hs). apply in_app_or in He. destruct He as [He|He].
      * exfalso. apply Hout in He.
        destruct He as (_ & T' & t & _ & _ & _ & _ & _ & ->).
        destruct Hs as (_ & Hid & _). simpl in Hid. congruence.
      * eauto.
    + intros (e & He & Hs). exists e. split; [|exact Hs].
      apply in_or_app. right. exact He.
Qed.

(** C8.  In one run of [checkMatchStartsSoon] over a list in which each
    match occurs once, for a match in an upcoming status with a tracked
    side and a threshold T of the configured list, a
    [match_starts_soon] event carrying T is emitted exactly when the
    minutes until kickoff lie in (0, T] and T has not yet fired for the
    match.  Over successive cycles that all list the match, a threshold
    fired in a later cycle is strictly smaller than every threshold
    fired in an earlier one; in particular no pair (match, T) fires in
    two cycles.  A cycle whose list lacks the match leaves no record of
    fired thresholds for it. *)
Theorem match_starts_soon_thresholds :
  (forall now tt ms triggered m T,
     NoDup (map match_id ms) -> In m ms ->
     upcomingStatus m -> In T MATCH_SOON_THRESHOLDS ->
     is_Some (tt !! team_id (homeTeam m))
     \/ is_Some (tt !! team_id (awayTeam m)) ->
     ((exists e, In e (checkMatchStartsSoon now tt ms triggered).2
                 /\ isSoonEvent (match_id m) T e)
      <-> withinThreshold now m T
          /\ T ∉ firedFor triggered (match_id m)))
  /\ (forall earlier later triggered id e1 e2 T1 T2,
        presentIn id earlier -> presentIn id later ->
        In e1 (soonCycles earlier triggered).2 ->
        In e2 (soonCycles later (soonCycles earlier triggered).1).2 ->
        isSoonEvent id T1 e1 -> isSoonEvent id T2 e2 ->
        T2 < T1)
  /\ (forall now tt ms triggered id,
        ~ In id (map match_id ms) ->
        (soonCycle now tt ms triggered).1 !! id = None).
Proof.
  split; [|split].
  - intros now tt ms triggered m T Hnd Hin Hup HT Htr.
    rewrite (checkMatchStartsSoon_fire now tt ms triggered m T Hnd Hin).
    tauto.
  - intros earlier later triggered id e1 e2 T1 T2 Hp1 Hp2 H1 H2 Hs1 Hs2.
    pose proof (soonCycles_fires earlier triggered id Hp1 e1 T1 H1 Hs1)
      as Hcl.
    destruct (soonCycles_closed later _ id T1 Hp2 Hcl) as [_ Hlt].
    eapply Hlt; eauto.
  - intros now tt ms triggered id Hout. unfold soonCycle.
    destruct (checkMatchStartsSoon now tt ms triggered) as [t1 out].
    cbn [fst]. unfold cleanupTriggered.
    apply map_lookup_filter_None_2. right. intros fired _ Hin.
    cbn [fst] in Hin. apply Hout. apply list_elem_of_In. exact Hin.
Qed.

(** Twenty minutes before kickoff, nothing fired yet: the 30-minute
    threshold fires for match 2. *)
Lemma match_starts_soon_thresholds_witness :
  exists e, In e (checkMatchStartsSoon 4200000 evertonTracked
                    [upcomingSnapshot] ∅).2
            /\ isSoonEvent 2 30 e.
Proof.
  destruct match_starts_soon_thresholds as [Hfire _].
  apply (Hfire 4200000 evertonTracked [upcomingSnapshot] ∅
           upcomingSnapshot 30).
  - apply NoDup_cons. split; [set_solver | apply NoDup_nil_2].
  - left. reflexivity.
  - right. reflexivity.
  - simpl. auto.
  - left. vm_compute. eauto.
  - split.
    + exists 5400000. repeat split; simpl; lia.
    + unfold firedFor. rewrite lookup_empty. simpl. set_solver.
Defined.

(** C8, counterexample: the same pair (match, threshold) fires twice.
    In [reRegisterRun] the device of team 62 is unregistered for one
    cycle while team 57 keeps the loop running: match 2 is not in that
    cycle's list, its record is discarded, and the 120-minute threshold
    that fired 95 minutes before kickoff fires again 75 minutes before
    kickoff.  In [gapRun] one fetch answers an empty list, with the same
    effect. *)
Lemma starts_soon_fires_again :
  emitted (run reRegisterRun newWorld)
  = [mkEvent MATCH_STARTS_SOON 62 lateKickoff (Minutes 120);
     mkEvent MATCH_STARTS_SOON 62 lateKickoff (Minutes 120)]
  /\ emitted (run gapRun newWorld)
     = [mkEvent MATCH_STARTS_SOON 62 lateKickoff (Minutes 120);
        mkEvent MATCH_STARTS_SOON 62 lateKickoff (Minutes 120)]
  /\ matchStartsSoonTriggered (manager (run (take 5 reRegisterRun) newWorld))
     !! 2 = Some {[ 120 ]}
  /\ matchStartsSoonTriggered (manager (run (take 8 reRegisterRun) newWorld))
     !! 2 = None.
Proof. vm_compute. repeat split; reflexivity. Qed.

(** ** A score that goes down *)

Lemma getResultState_differs (a b c d : Z) :
  getResultState a b <> getResultState c d -> a <> c \/ b <> d.
Proof.
  intros H. destruct (decide (a = c)) as [->|]; [|auto].
  destruct (decide (b = d)) as [->|]; [|auto]. contradiction.
Qed.

Lemma emitResultStateChange_In tt m (isHome : bool) (old : ResultState) :
  let newHome := orZero (match_home m) in
  let newAway := orZero (match_away m) in
  let team := if isHome then homeTeam m else awayTeam m in
  let new := if isHome then getResultState newHome newAway
             else getResultState newAway newHome in
  old <> new -> is_Some (tt !! team_id team) ->
  In (resultChanged m isHome)
    (emitResultStateChange tt m (team_id team) old new newHome newAway
       isHome).
Proof.
  cbv zeta. intros Hne Hs. unfold emitResultStateChange, emitForTeam.
  rewrite bool_decide_eq_false_2 by exact Hne.
  rewrite bool_decide_eq_true_2 by exact Hs.
  left. unfold resultChanged. destruct isHome; reflexivity.
Qed.

(** The result-change events of an update whose score differs. *)
Lemma updateMatch_resultChanged tt m cached (isHome : bool) :
  includes LIVE_STATUSES (match_status m) = true ->
  (if isHome
   then getResultState (homeScore cached) (awayScore cached)
        <> getResultState (orZero (match_home m)) (orZero (match_away m))
   else getResultState (awayScore cached) (homeScore cached)
        <> getResultState (orZero (match_away m)) (orZero (match_home m))) ->
  is_Some (tt !! team_id (if isHome then homeTeam m else awayTeam m)) ->
  In (resultChanged m isHome) (updateMatch tt m cached).2.
Proof.
  intros Hlive Hne Hs. unfold updateMatch.
  destruct (if negb (bool_decide (st_status cached = match_status m))
            then handleStatusChange tt m cached
            else (events cached, [])) as [ev out1].
  cbn [snd]. apply in_or_app. right. rewrite Hlive.
  assert (Hchanged :
    negb (bool_decide (orZero (match_home m) = homeScore cached))
    || negb (bool_decide (orZero (match_away m) = awayScore cached))
    = true).
  { destruct isHome; apply getResultState_differs in Hne;
      destruct Hne as [Hd|Hd];
      repeat case_bool_decide; cbn [negb orb]; try reflexivity; congruence. }
  rewrite Hchanged. unfold handleScoreChange. cbv zeta.
  destruct isHome.
  - apply in_or_app. right. apply in_or_app. right.
    apply in_or_app. left.
    apply (emitResultStateChange_In tt m true _ Hne Hs).
  - apply in_or_app. right. apply in_or_app. right.
    apply in_or_app. right.
    apply (emitResultStateChange_In tt m false _ Hne Hs).
Qed.

(** C9.  For a cached match fetched with status IN_PLAY or PAUSED: the
    cache entry is replaced by one holding the fetched scores; when the
    home (away) score is strictly below the cached one, the only
    [team_scored]/[team_conceded] events of the iteration are those of a
    strict increase of the other side, so none at all when the other
    side did not go up; and each tracked side whose
    winning/losing/drawing state differs from the cached one still
    gets its [match_result_changed] event. *)
Theorem score_decrease_silent tt (m : Match)
    (matchCache : gmap Z MatchState) (cached : MatchState) :
  matchCache !! match_id m = Some cached ->
  includes LIVE_STATUSES (match_status m) = true ->
  let r := processMatch tt m matchCache in
  let newHome := orZero (match_home m) in
  let newAway := orZero (match_away m) in
  (exists st, r.1 !! match_id m = Some st
     /\ homeScore st = newHome /\ awayScore st = newAway
     /\ forall k, marker k (events cached) = true ->
          marker k (events st) = true)
  /\ (newHome < homeScore cached ->
      forall teamId,
        countEvents TEAM_SCORED teamId (match_id m) r.2
        = (if bool_decide (is_Some (tt !! teamId))
              && bool_decide (team_id (awayTeam m) = teamId)
              && bool_decide (newAway > awayScore cached)
           then 1%nat else 0%nat)
        /\ countEvents TEAM_CONCEDED teamId (match_id m) r.2
           = (if bool_decide (is_Some (tt !! teamId))
                 && bool_decide (team_id (homeTeam m) = teamId)
                 && bool_decide (newAway > awayScore cached)
              then 1%nat else 0%nat))
  /\ (newAway < awayScore cached ->
      forall teamId,
        countEvents TEAM_SCORED teamId (match_id m) r.2
        = (if bool_decide (is_Some (tt !! teamId))
              && bool_decide (team_id (homeTeam m) = teamId)
              && bool_decide (newHome > homeScore cached)
           then 1%nat else 0%nat)
        /\ countEvents TEAM_CONCEDED teamId (match_id m) r.2
           = (if bool_decide (is_Some (tt !! teamId))
                 && bool_decide (team_id (awayTeam m) = teamId)
                 && bool_decide (newHome > homeScore cached)
              then 1%nat else 0%nat))
  /\ (getResultState (homeScore cached) (awayScore cached)
      <> getResultState newHome newAway ->
      is_Some (tt !! team_id (homeTeam m)) ->
      In (resultChanged m true) r.2)
  /\ (getResultState (awayScore cached) (homeScore cached)
      <> getResultState newAway newHome ->
      is_Some (tt !! team_id (awayTeam m)) ->
      In (resultChanged m false) r.2).
Proof.
  intros Hc Hlive. cbv zeta.
  pose proof (fun teamId name count H =>
                processMatch_goals tt m matchCache teamId (match_id m)
                  name count H) as Hgoals.
  unfold reportedIncrease in Hgoals. rewrite Hc, Hlive in Hgoals.
  rewrite (bool_decide_eq_true_2 (match_id m = match_id m)) in Hgoals
    by reflexivity.
  cbn [andb] in Hgoals.
  unfold processMatch in *. rewrite Hc in *.
  pose proof (updateMatch_latch tt m cached) as Hl.
  pose proof (updateMatch_resultChanged tt m cached true Hlive) as Hh.
  pose proof (updateMatch_resultChanged tt m cached false Hlive) as Ha.
  destruct (updateMatch tt m cached) as [st out]. cbn [fst snd] in *.
  destruct Hl as ((after & ->) & Hmono & _).
  split; [|split; [|split; [|split]]].
  - eexists. rewrite lookup_insert_eq. split; [reflexivity|].
    split; [reflexivity|]. split; [reflexivity|]. exact Hmono.
  - intros Hdown teamId.
    rewrite (Hgoals teamId TEAM_SCORED sideIncreases) by auto.
    rewrite (Hgoals teamId TEAM_CONCEDED opponentIncreases) by auto.
    unfold sideIncreases, opponentIncreases.
    rewrite (bool_decide_eq_false_2 (orZero (match_home m) > homeScore cached))
      by lia.
    rewrite !andb_false_r.
    split; repeat case_bool_decide; cbn [andb Nat.add]; reflexivity.
  - intros Hdown teamId.
    rewrite (Hgoals teamId TEAM_SCORED sideIncreases) by auto.
    rewrite (Hgoals teamId TEAM_CONCEDED opponentIncreases) by auto.
    unfold sideIncreases, opponentIncreases.
    rewrite (bool_decide_eq_false_2 (orZero (match_away m) > awayScore cached))
      by lia.
    rewrite !andb_false_r.
    split; repeat case_bool_decide; cbn [andb Nat.add]; reflexivity.
  - exact Hh.
  - exact Ha.
Qed.

(** Cached 2-1, fetched 1-1 while IN_PLAY: no goal event, the cache
    holds 1-1. *)
Lemma score_decrease_silent_witness :
  countEvents TEAM_SCORED 57 1 (processMatch bothTracked disallowedGoal
                                  cacheAtTwoOne).2 = 0%nat
  /\ In (resultChanged disallowedGoal true)
       (processMatch bothTracked disallowedGoal cacheAtTwoOne).2.
Proof.
  assert (Hc : cacheAtTwoOne !! match_id disallowedGoal
               = Some (withEvents
                         (createMatchState (match1 "IN_PLAY" 3000000 2 1)
                            None)
                         (setKickoff noMarkers)))
    by (vm_compute; reflexivity).
  destruct (score_decrease_silent bothTracked disallowedGoal cacheAtTwoOne
              _ Hc eq_refl) as (_ & Hdown & _ & Hres & _).
  split.
  - destruct (Hdown ltac:(simpl; lia) 57) as [Hs _].
    etransitivity; [exact Hs|]. vm_compute. reflexivity.
  - apply Hres; [vm_compute; discriminate | vm_compute; eauto].
Defined.

(** ** stopPolling *)

(** C10.  [stopPolling] leaves the tracked teams, the cache, the
    threshold records, the polling state, the in-flight cycles and the
    event log as they are and sets [pollTimer] to null, removing only
    the timer it held.  A detector run on the state it leaves therefore
    emits no event guarded by a marker that was set before the stop, and
    no [match_starts_soon] for a threshold that had fired before it. *)
Theorem stopPolling_frame (w : World) :
  let w' := stopPolling w in
  trackedTeams (manager w') = trackedTeams (manager w)
  /\ matchCache (manager w') = matchCache (manager w)
  /\ matchStartsSoonTriggered (manager w')
     = matchStartsSoonTriggered (manager w)
  /\ pollingState (manager w') = pollingState (manager w)
  /\ inflight w' = inflight w
  /\ emitted w' = emitted w
  /\ pollTimer (manager w') = None
  /\ timeouts (homey w')
     = match pollTimer (manager w) with
       | Some t => delete t (timeouts (homey w))
       | None => timeouts (homey w)
       end
  /\ (forall tt ms id k,
        latched id k (matchCache (manager w)) ->
        Forall (silentFor id k)
          (processMatchUpdates tt ms (matchCache (manager w'))).2)
  /\ (forall now tt ms id T e,
        T ∈ firedFor (matchStartsSoonTriggered (manager w)) id ->
        In e (checkMatchStartsSoon now tt ms
                (matchStartsSoonTriggered (manager w'))).2 ->
        ~ isSoonEvent id T e).
Proof.
  cbv zeta.
  assert (Hframe :
    trackedTeams (manager (stopPolling w)) = trackedTeams (manager w)
    /\ matchCache (manager (stopPolling w)) = matchCache (manager w)
    /\ matchStartsSoonTriggered (manager (stopPolling w))
       = matchStartsSoonTriggered (manager w)).
  { unfold stopPolling. destruct (pollTimer (manager w)); auto. }
  destruct Hframe as (Ht & Hc & Hs).
  split; [exact Ht|]. split; [exact Hc|]. split; [exact Hs|].
  split; [unfold stopPolling; destruct (pollTimer (manager w)); auto|].
  split; [unfold stopPolling; destruct (pollTimer (manager w)); auto|].
  split; [unfold stopPolling; destruct (pollTimer (manager w)); auto|].
  split; [unfold stopPolling;
          destruct (pollTimer (manager w)) eqn:E; auto|].
  split; [unfold stopPolling; destruct (pollTimer (manager w)); auto|].
  split.
  - intros tt ms id k Hl. rewrite Hc.
    apply processMatchUpdates_keeps. exact Hl.
  - intros now tt ms id T e Hfired He (Hn & Hid & Hp). rewrite Hs in He.
    destruct (checkMatchStartsSoon_closed now tt ms
                (matchStartsSoonTriggered (manager w))) as (_ & _ & Hout).
    destruct (Hout e He) as (_ & T' & (_ & _ & Hp') & _ & Hnf & _).
    rewrite Hp in Hp'. inversion Hp'; subst T'. rewrite Hid in Hnf.
    contradiction.
Qed.

(** After the race, the kickoff marker of match 1 is set; the state
    [stopPolling] leaves emits no second kickoff for it. *)
Lemma stopPolling_frame_witness :
  latched 1 Kickoff (matchCache (manager afterRace))
  /\ Forall (silentFor 1 Kickoff)
       (processMatchUpdates bothTracked [liveSnapshot]
          (matchCache (manager (stopPolling afterRace)))).2.
Proof.
  assert (H : latched 1 Kickoff (matchCache (manager afterRace))).
  { exists (withEvents (createMatchState liveSnapshot None)
              (setKickoff noMarkers)).
    split; [vm_compute; reflexivity | reflexivity]. }
  split; [exact H|].
  destruct (stopPolling_frame afterRace)
    as (_ & _ & _ & _ & _ & _ & _ & _ & Hkeep & _).
  apply Hkeep. exact H.
Defined.

(** ** The manager over every sequence of actions *)

Lemma run_app (a1 a2 : list Action) (w : World) :
  run (a1 ++ a2) w = run a2 (run a1 w).
Proof. unfold run. apply fold_left_app. Qed.

(** An invariant of every action is an invariant of every run. *)
Lemma run_invariant (P : World -> Prop) :
  (forall a w, P w -> P (act a w)) ->
  forall actions w, P w -> P (run actions w).
Proof.
  intros Hstep actions. induction actions as [|a rest IH]; intros w Hw.
  - exact Hw.
  - simpl. apply IH. apply Hstep. exact Hw.
Qed.

Lemma tracked_ids_nil (mm : MatchManager) :
  getTrackedTeamIds mm = [] <-> trackedTeams mm = ∅.
Proof.
  unfold getTrackedTeamIds. split.
  - intros H. apply elements_empty_inv in H.
    apply dom_empty_iff_L. apply leibniz_equiv. exact H.
  - apply no_tracked_ids.
Qed.

Lemma scheduleNextPoll_alive (w : World) : loopAlive (scheduleNextPoll w).
Proof.
  left. unfold scheduleNextPoll.
  destruct (pollTimer (manager w)); simpl; apply insert_non_empty.
Qed.

Lemma pollStart_alive (w : World) : loopAlive (pollStart w).
Proof.
  unfold pollStart. case_bool_decide.
  - apply scheduleNextPoll_alive.
  - right. simpl. intros Hnil. apply app_eq_nil in Hnil.
    destruct Hnil as [_ Hnil]. discriminate.
Qed.

Lemma pollResume_alive f result now (w : World) :
  loopAlive (pollResume f result now w).
Proof.
  unfold pollResume. destruct result as [allMatches|].
  - destruct (processMatchUpdates _ _ _) as [cache1 out1].
    destruct (checkMatchStartsSoon _ _ _ _) as [trig1 out2].
    cbn [cleanupOldMatches]. apply scheduleNextPoll_alive.
  - left. simpl. apply insert_non_empty.
Qed.

Lemma scheduleNextPoll_tracked (w : World) :
  trackedTeams (manager (scheduleNextPoll w)) = trackedTeams (manager w).
Proof.
  unfold scheduleNextPoll.
  destruct (pollTimer (manager w)); reflexivity.
Qed.

Lemma pollStart_tracked (w : World) :
  trackedTeams (manager (pollStart w)) = trackedTeams (manager w).
Proof.
  unfold pollStart. case_bool_decide;
    [apply scheduleNextPoll_tracked | reflexivity].
Qed.

Lemma pollResume_tracked f result now (w : World) :
  trackedTeams (manager (pollResume f result now w))
  = trackedTeams (manager w).
Proof.
  unfold pollResume. destruct result as [allMatches|]; [|reflexivity].
  destruct (processMatchUpdates _ _ _) as [cache1 out1].
  destruct (checkMatchStartsSoon _ _ _ _) as [trig1 out2].
  cbn [cleanupOldMatches]. rewrite scheduleNextPoll_tracked. reflexivity.
Qed.

Lemma stopPolling_tracked (w : World) :
  trackedTeams (manager (stopPolling w)) = trackedTeams (manager w).
Proof. unfold stopPolling. destruct (pollTimer (manager w)); reflexivity. Qed.

Lemma stopPolling_timer (w : World) :
  pollTimer (manager (stopPolling w)) = None.
Proof.
  unfold stopPolling. destruct (pollTimer (manager w)) eqn:E; auto.
Qed.

Lemma loopInvariant_alive (w : World) : loopAlive w -> loopInvariant w.
Proof. intros H. split; intros _; exact H. Qed.

Lemma loopInvariant_act (a : Action) (w : World) :
  loopInvariant w -> loopInvariant (act a w).
Proof.
  intros [Htimer Htracked].
  destruct a as [teamId device|teamId device|t|k result now]; simpl.
  - unfold registerDevice.
    set (tt1 := match trackedTeams (manager w) !! teamId with
                | Some _ => trackedTeams (manager w)
                | None => <[teamId := ∅]> (trackedTeams (manager w))
                end).
    set (tt2 := <[teamId := {[device]} ∪ default ∅ (tt1 !! teamId)]> tt1).
    destruct (bool_decide (size tt2 = 1%nat)) eqn:Esize;
      destruct (bool_decide (is_Some (pollTimer (manager w)))) eqn:Et;
      cbn [andb negb].
    + apply bool_decide_eq_true in Et.
      split; intros _; apply (Htimer Et).
    + apply bool_decide_eq_false in Et.
      unfold startPolling. simpl.
      destruct (pollTimer (manager w)) as [t|] eqn:E;
        [exfalso; apply Et; eauto|].
      apply loopInvariant_alive. apply pollStart_alive.
    + apply bool_decide_eq_true in Et.
      split; intros _; apply (Htimer Et).
    + apply bool_decide_eq_false in Esize.
      split; [exact Htimer|]. intros _. apply Htracked.
      intros Hempty. apply Esize. unfold tt2, tt1. rewrite Hempty.
      rewrite lookup_empty.
      rewrite insert_insert_eq, insert_empty. apply map_size_singleton.
  - unfold unregisterDevice.
    set (tt1 := match trackedTeams (manager w) !! teamId with
                | Some devices =>
                    if bool_decide (size (devices ∖ {[device]}) = 0%nat)
                    then delete teamId (trackedTeams (manager w))
                    else <[teamId := devices ∖ {[device]}]>
                           (trackedTeams (manager w))
                | None => trackedTeams (manager w)
                end).
    destruct (bool_decide (size tt1 = 0%nat)) eqn:Esize.
    + apply bool_decide_eq_true in Esize. apply map_size_empty_inv in Esize.
      split.
      * rewrite stopPolling_timer. intros [x Hx]. discriminate.
      * rewrite stopPolling_tracked. simpl. intros H. contradiction.
    + split; [exact Htimer|]. simpl. intros Hne. apply Htracked.
      intros Hempty. apply Hne. unfold tt1. rewrite Hempty.
      rewrite lookup_empty. reflexivity.
  - destruct (timeouts (homey w) !! t); [|split; assumption].
    apply loopInvariant_alive. apply pollStart_alive.
  - destruct (inflight w !! k); [|split; assumption].
    apply loopInvariant_alive. apply pollResume_alive.
Qed.

Lemma loopInvariant_new : loopInvariant newWorld.
Proof.
  split.
  - intros [x Hx]. discriminate.
  - intros H. exfalso. apply H. reflexivity.
Qed.

(** X1.  After any sequence of registrations, unregistrations, timer
    firings and settled fetches: while at least one team is tracked, a
    poll timer is pending or a poll cycle is waiting for its fetch, so
    the polling loop cannot stop as long as a device is registered. *)
Theorem loop_alive_while_tracked (actions : list Action) :
  let w := run actions newWorld in
  trackedTeams (manager w) <> ∅ ->
  timeouts (homey w) <> ∅ \/ inflight w <> [].
Proof.
  cbv zeta. intros Hne.
  destruct (run_invariant loopInvariant loopInvariant_act actions newWorld
              loopInvariant_new) as [_ H].
  apply H. exact Hne.
Qed.

Lemma loop_alive_while_tracked_witness :
  trackedTeams (manager (run [Register 57 0] newWorld)) <> ∅
  /\ (timeouts (homey (run [Register 57 0] newWorld)) <> ∅
      \/ inflight (run [Register 57 0] newWorld) <> []).
Proof.
  assert (H : trackedTeams (manager (run [Register 57 0] newWorld)) <> ∅)
    by (vm_compute; discriminate).
  split; [exact H|].
  apply (loop_alive_while_tracked [Register 57 0]). exact H.
Defined.

Lemma devicesNonEmpty_act (a : Action) (w : World) :
  devicesNonEmpty (trackedTeams (manager w)) ->
  devicesNonEmpty (trackedTeams (manager (act a w))).
Proof.
  intros Hinv.
  destruct a as [teamId device|teamId device|t|k result now]; simpl.
  - unfold registerDevice.
    set (tt1 := match trackedTeams (manager w) !! teamId with
                | Some _ => trackedTeams (manager w)
                | None => <[teamId := ∅]> (trackedTeams (manager w))
                end).
    set (tt2 := <[teamId := {[device]} ∪ default ∅ (tt1 !! teamId)]> tt1).
    assert (H2 : devicesNonEmpty tt2).
    { intros t ds. unfold tt2. rewrite lookup_insert.
      destruct (decide (teamId = t)) as [->|Hne].
      - intros H. inversion H; subst. set_solver.
      - unfold tt1. destruct (trackedTeams (manager w) !! teamId).
        + apply Hinv.
        + rewrite lookup_insert_ne by exact Hne. apply Hinv. }
    destruct (_ && _); [|exact H2].
    unfold startPolling. simpl.
    destruct (pollTimer (manager w)); [exact H2|].
    rewrite pollStart_tracked. exact H2.
  - unfold unregisterDevice.
    set (tt1 := match trackedTeams (manager w) !! teamId with
                | Some devices =>
                    if bool_decide (size (devices ∖ {[device]}) = 0%nat)
                    then delete teamId (trackedTeams (manager w))
                    else <[teamId := devices ∖ {[device]}]>
                           (trackedTeams (manager w))
                | None => trackedTeams (manager w)
                end).
    assert (H1 : devicesNonEmpty tt1).
    { intros t ds. unfold tt1.
      destruct (trackedTeams (manager w) !! teamId) as [devices|];
        [|apply Hinv].
      case_bool_decide as Hsize.
      - rewrite lookup_delete. destruct (decide (teamId = t));
          [discriminate | apply Hinv].
      - rewrite lookup_insert. destruct (decide (teamId = t)).
        + intros H. inversion H; subst. intros Hempty. apply Hsize.
          rewrite Hempty. apply size_empty.
        + apply Hinv. }
    destruct (bool_decide (size tt1 = 0%nat));
      [rewrite stopPolling_tracked|]; exact H1.
  - destruct (timeouts (homey w) !! t); [|exact Hinv].
    rewrite pollStart_tracked. exact Hinv.
  - destruct (inflight w !! k); [|exact Hinv].
    rewrite pollResume_tracked. exact Hinv.
Qed.

(** X2.  After any sequence of actions, every tracked team has at least
    one registered device: a team whose last device is unregistered is
    removed from [trackedTeams], so emission for it stops. *)
Theorem tracked_teams_have_devices (actions : list Action) (teamId : Z)
    (devices : gset nat) :
  trackedTeams (manager (run actions newWorld)) !! teamId = Some devices ->
  devices <> ∅.
Proof.
  apply (run_invariant
           (fun w => devicesNonEmpty (trackedTeams (manager w)))
           devicesNonEmpty_act actions newWorld).
  intros t ds H. vm_compute in H. discriminate.
Qed.

Lemma tracked_teams_have_devices_witness :
  trackedTeams (manager (run [Register 57 0; Register 57 1; Unregister 57 0]
                           newWorld)) !! 57 = Some {[ 1%nat ]}
  /\ ({[ 1%nat ]} : gset nat) <> ∅.
Proof.
  assert (H : trackedTeams
                (manager (run [Register 57 0; Register 57 1; Unregister 57 0]
                            newWorld)) !! 57 = Some {[ 1%nat ]})
    by (vm_compute; reflexivity).
  split; [exact H|].
  exact (tracked_teams_have_devices _ _ _ H).
Defined.

Lemma registerDevice_tracked (teamId : Z) (device : nat) (w : World) :
  trackedTeams (manager (registerDevice teamId device w))
  = <[teamId := {[device]}
                ∪ default ∅ (trackedTeams (manager w) !! teamId)]>
      (trackedTeams (manager w)).
Proof.
  unfold registerDevice.
  set (tt1 := match trackedTeams (manager w) !! teamId with
              | Some _ => trackedTeams (manager w)
              | None => <[teamId := ∅]> (trackedTeams (manager w))
              end).
  assert (Htt : <[teamId := {[device]} ∪ default ∅ (tt1 !! teamId)]> tt1
                = <[teamId := {[device]}
                      ∪ default ∅ (trackedTeams (manager w) !! teamId)]>
                    (trackedTeams (manager w))).
  { unfold tt1. destruct (trackedTeams (manager w) !! teamId) eqn:E.
    - rewrite E. reflexivity.
    - rewrite lookup_insert_eq, insert_insert_eq. reflexivity. }
  destruct (_ && _).
  - unfold startPolling. simpl. destruct (pollTimer (manager w));
      [|rewrite pollStart_tracked]; simpl; exact Htt.
  - simpl. exact Htt.
Qed.

Lemma unregisterDevice_tracked (teamId : Z) (device : nat) (w : World) :
  trackedTeams (manager (unregisterDevice teamId device w))
  = match trackedTeams (manager w) !! teamId with
    | Some devices =>
        if bool_decide (size (devices ∖ {[device]}) = 0%nat)
        then delete teamId (trackedTeams (manager w))
        else <[teamId := devices ∖ {[device]}]> (trackedTeams (manager w))
    | None => trackedTeams (manager w)
    end.
Proof.
  unfold unregisterDevice. destruct (bool_decide (size _ = 0%nat));
    [rewrite stopPolling_tracked|]; reflexivity.
Qed.

(** X3.  Registration counts devices per team.  Registering a device
    that is not yet registered for the team and unregistering it again
    restores [trackedTeams]; unregistering one of several devices keeps
    the team tracked with the remaining devices; unregistering the only
    device removes the team. *)
Theorem register_unregister_refcount (teamId : Z) (device : nat)
    (w : World) :
  devicesNonEmpty (trackedTeams (manager w)) ->
  (device ∉ default ∅ (trackedTeams (manager w) !! teamId) ->
   trackedTeams
     (manager (unregisterDevice teamId device
                 (registerDevice teamId device w)))
   = trackedTeams (manager w))
  /\ (forall devices,
        trackedTeams (manager w) !! teamId = Some devices ->
        devices ∖ {[device]} <> ∅ ->
        trackedTeams (manager (unregisterDevice teamId device w)) !! teamId
        = Some (devices ∖ {[device]}))
  /\ (forall devices,
        trackedTeams (manager w) !! teamId = Some devices ->
        devices ∖ {[device]} = ∅ ->
        trackedTeams (manager (unregisterDevice teamId device w)) !! teamId
        = None).
Proof.
  intros Hinv. split; [|split].
  - intros Hnew. rewrite unregisterDevice_tracked, registerDevice_tracked.
    rewrite lookup_insert_eq.
    set (ds0 := default ∅ (trackedTeams (manager w) !! teamId)) in *.
    assert (Hdiff : ({[device]} ∪ ds0) ∖ {[device]} = ds0) by set_solver.
    rewrite Hdiff. case_bool_decide as Hsize.
    + apply size_empty_inv in Hsize. apply leibniz_equiv in Hsize.
      rewrite delete_insert_eq. apply delete_id.
      destruct (trackedTeams (manager w) !! teamId) as [ds|] eqn:E;
        [|reflexivity].
      exfalso. apply (Hinv teamId ds E). exact Hsize.
    + rewrite insert_insert_eq. apply insert_id.
      destruct (trackedTeams (manager w) !! teamId) as [ds|] eqn:E;
        [reflexivity|].
      exfalso. apply Hsize. apply size_empty.
  - intros devices Hd Hrest. rewrite unregisterDevice_tracked, Hd.
    rewrite bool_decide_eq_false_2.
    + apply lookup_insert_eq.
    + intros Hsize. apply Hrest. apply size_empty_inv in Hsize.
      apply leibniz_equiv. exact Hsize.
  - intros devices Hd Hrest. rewrite unregisterDevice_tracked, Hd.
    rewrite bool_decide_eq_true_2 by (rewrite Hrest; apply size_empty).
    apply lookup_delete_eq.
Qed.

Lemma register_unregister_refcount_witness :
  trackedTeams
    (manager (unregisterDevice 57 0 (registerDevice 57 0 newWorld)))
  = trackedTeams (manager newWorld).
Proof.
  assert (Hinv : devicesNonEmpty (trackedTeams (manager newWorld))).
  { intros t ds H. vm_compute in H. discriminate. }
  destruct (register_unregister_refcount 57 0 newWorld Hinv) as [H _].
  apply H. cbn. rewrite lookup_empty. cbn. apply not_elem_of_empty.
Defined.

(** ** Timer handles *)

Lemma handlesFresh_setTimeout (delay : Z) (h : Homey) (mm : MatchManager)
    (fl : list Fetch) (ev : list Event) :
  (forall t, is_Some (timeouts h !! t) -> (t < nextTimeout h)%nat) ->
  handlesFresh
    (mkWorld (withTimer mm (Some (nextTimeout h)))
       (mkHomey (<[nextTimeout h := delay]> (timeouts h))
          (S (nextTimeout h))) fl ev).
Proof.
  intros Hp. split; simpl.
  - intros t. rewrite lookup_insert.
    destruct (decide (nextTimeout h = t)) as [<-|Hne]; [lia|].
    intros H. apply Hp in H. lia.
  - intros t H. inversion H; subst. lia.
Qed.

Lemma clearTimeout_fresh (t0 : nat) (h : Homey) :
  (forall t, is_Some (timeouts h !! t) -> (t < nextTimeout h)%nat) ->
  forall t, is_Some (timeouts (clearTimeout t0 h) !! t) ->
    (t < nextTimeout (clearTimeout t0 h))%nat.
Proof.
  intros Hp t. simpl. rewrite lookup_delete.
  destruct (decide (t0 = t)); [intros [x Hx]; discriminate | apply Hp].
Qed.

Lemma handlesFresh_scheduleNextPoll (w : World) :
  handlesFresh w -> handlesFresh (scheduleNextPoll w).
Proof.
  intros [Hp Ht]. unfold scheduleNextPoll.
  destruct (pollTimer (manager w)) as [t0|].
  - apply (handlesFresh_setTimeout _ (clearTimeout t0 (homey w))).
    apply clearTimeout_fresh. exact Hp.
  - apply handlesFresh_setTimeout. exact Hp.
Qed.

Lemma handlesFresh_pollStart (w : World) :
  handlesFresh w -> handlesFresh (pollStart w).
Proof.
  intros H. unfold pollStart. case_bool_decide.
  - apply handlesFresh_scheduleNextPoll. exact H.
  - exact H.
Qed.

Lemma handlesFresh_pollResume f result now (w : World) :
  handlesFresh w -> handlesFresh (pollResume f result now w).
Proof.
  intros [Hp Ht]. unfold pollResume. destruct result as [allMatches|].
  - destruct (processMatchUpdates _ _ _) as [cache1 out1].
    destruct (checkMatchStartsSoon _ _ _ _) as [trig1 out2].
    cbn [cleanupOldMatches]. apply handlesFresh_scheduleNextPoll.
    split; assumption.
  - apply handlesFresh_setTimeout. exact Hp.
Qed.

Lemma handlesFresh_stopPolling (w : World) :
  handlesFresh w -> handlesFresh (stopPolling w).
Proof.
  intros [Hp Ht]. unfold stopPolling.
  destruct (pollTimer (manager w)) as [t0|] eqn:E.
  - split; simpl.
    + apply clearTimeout_fresh. exact Hp.
    + discriminate.
  - split; [exact Hp|]. rewrite E. discriminate.
Qed.

Lemma handlesFresh_act (a : Action) (w : World) :
  handlesFresh w -> handlesFresh (act a w).
Proof.
  intros Hf. pose proof Hf as [Hp Ht].
  destruct a as [teamId device|teamId device|t|k result now]; simpl.
  - unfold registerDevice. destruct (_ && _).
    + unfold startPolling. simpl.
      destruct (pollTimer (manager w)) eqn:E.
      * split; simpl; [exact Hp|]. rewrite E. exact Ht.
      * apply handlesFresh_pollStart. split; simpl; [exact Hp|].
        rewrite E. discriminate.
    + split; simpl; assumption.
  - unfold unregisterDevice. destruct (bool_decide (size _ = 0%nat)).
    + apply handlesFresh_stopPolling. split; simpl; assumption.
    + split; simpl; assumption.
  - destruct (timeouts (homey w) !! t) eqn:E; [|exact Hf].
    apply handlesFresh_pollStart. split; simpl; [|exact Ht].
    intros t'. rewrite lookup_delete.
    destruct (decide (t = t')); [intros [x Hx]; discriminate | apply Hp].
  - destruct (inflight w !! k); [|exact Hf].
    apply handlesFresh_pollResume. split; simpl; assumption.
Qed.

Lemma handlesFresh_new : handlesFresh newWorld.
Proof.
  split; simpl.
  - intros t [x Hx]. rewrite lookup_empty in Hx. discriminate.
  - discriminate.
Qed.

(** X4.  In every state the manager can reach, [scheduleNextPoll] arms
    a timer under a handle that is not pending, with the delay of the
    recorded polling state; the timer previously held in [pollTimer] is
    no longer pending afterwards, and every other timer is left as it
    was. *)
Theorem scheduleNextPoll_rearms (actions : list Action) :
  let w := run actions newWorld in
  let w' := scheduleNextPoll w in
  exists t,
    pollTimer (manager w') = Some t
    /\ timeouts (homey w) !! t = None
    /\ timeouts (homey w') !! t
       = Some (POLLING_INTERVALS (pollingState (manager w)))
    /\ (forall t0, pollTimer (manager w) = Some t0 ->
          timeouts (homey w') !! t0 = None)
    /\ (forall t1, t1 <> t -> pollTimer (manager w) <> Some t1 ->
          timeouts (homey w') !! t1 = timeouts (homey w) !! t1).
Proof.
  cbv zeta.
  pose proof (run_invariant handlesFresh handlesFresh_act actions newWorld
                handlesFresh_new) as [Hp Ht].
  set (w := run actions newWorld) in *.
  exists (nextTimeout (homey w)).
  assert (Hnew : timeouts (homey w) !! nextTimeout (homey w) = None).
  { destruct (timeouts (homey w) !! nextTimeout (homey w)) eqn:E;
      [|reflexivity].
    assert (is_Some (timeouts (homey w) !! nextTimeout (homey w))) as Hs
      by eauto.
    apply Hp in Hs. lia. }
  unfold scheduleNextPoll, getPollingInterval.
  destruct (pollTimer (manager w)) as [t0|] eqn:E; simpl.
  - split; [reflexivity|]. split; [exact Hnew|].
    split; [apply lookup_insert_eq|]. split.
    + intros t1 H1. inversion H1; subst t1.
      assert (t0 < nextTimeout (homey w))%nat by (apply Ht; reflexivity).
      rewrite lookup_insert_ne by lia. apply lookup_delete_eq.
    + intros t1 Hne Hne0. rewrite lookup_insert_ne by congruence.
      apply lookup_delete_ne. congruence.
  - split; [reflexivity|]. split; [exact Hnew|].
    split; [apply lookup_insert_eq|]. split.
    + discriminate.
    + intros t1 Hne _. apply lookup_insert_ne. congruence.
Qed.

Lemma existsb_inPlay_LIVE (now : Z) (matches : list Match) :
  some inPlay matches -> determinePollingState now matches = LIVE.
Proof.
  intros H. unfold determinePollingState.
  apply (existsb_some _ _ matches inPlay_spec) in H. rewrite H. reflexivity.
Qed.

(** X5.  A cycle whose fetch succeeds records the polling state that
    [determinePollingState] gives for the matches of the teams captured
    when the cycle started, and arms the next cycle with that state's
    delay: 30 s as soon as one of those matches is IN_PLAY, 15 min when
    none of the fetched matches involves those teams.  The event log
    only grows, and the tracked teams and the other in-flight cycles
    are untouched. *)
Theorem successful_cycle_reschedules (f : Fetch) (allMatches : list Match)
    (now : Z) (w : World) :
  let w' := pollResume f (Some allMatches) now w in
  let relevant := relevantMatches (fetch_trackedTeamIds f) allMatches in
  pollingState (manager w') = determinePollingState now relevant
  /\ (exists t,
        pollTimer (manager w') = Some t
        /\ timeouts (homey w') !! t
           = Some (POLLING_INTERVALS (determinePollingState now relevant)))
  /\ (some inPlay relevant -> pollingState (manager w') = LIVE)
  /\ (relevant = [] -> pollingState (manager w') = IDLE)
  /\ (exists out, emitted w' = emitted w ++ out)
  /\ trackedTeams (manager w') = trackedTeams (manager w)
  /\ inflight w' = inflight w.
Proof.
  cbv zeta. unfold pollResume.
  set (relevant := relevantMatches (fetch_trackedTeamIds f) allMatches).
  destruct (processMatchUpdates _ relevant _) as [cache1 out1].
  destruct (checkMatchStartsSoon _ _ relevant _) as [trig1 out2].
  cbn [cleanupOldMatches].
  set (state2 := if negb (bool_decide (determinePollingState now relevant
                                       = pollingState (manager w)))
                 then determinePollingState now relevant
                 else pollingState (manager w)).
  assert (Hstate : state2 = determinePollingState now relevant).
  { unfold state2. case_bool_decide; simpl; congruence. }
  match goal with
  | |- context [scheduleNextPoll ?w1] => set (w0 := w1)
  end.
  destruct (scheduleNextPoll_armed w0)
    as (t & Ht & Hd & _ & _ & Hp & Htt & Hi & He).
  assert (Hst : pollingState (manager (scheduleNextPoll w0))
                = determinePollingState now relevant)
    by (rewrite Hp; exact Hstate).
  split; [exact Hst|].
  split; [exists t; split; [exact Ht|]; rewrite Hd; f_equal; f_equal;
          exact Hstate|].
  split; [intros H; rewrite Hst; apply existsb_inPlay_LIVE; exact H|].
  split; [intros H; rewrite Hst, H; reflexivity|].
  split; [exists (out1 ++ out2); exact He|].
  split; [exact Htt | exact Hi].
Qed.

Lemma successful_cycle_reschedules_witness :
  some inPlay (relevantMatches [57] [liveSnapshot])
  /\ pollingState
       (manager (pollResume (mkFetch [57] false) (Some [liveSnapshot])
                   3600000 newWorld)) = LIVE.
Proof.
  assert (H : some inPlay (relevantMatches [57] [liveSnapshot])).
  { exists liveSnapshot. split; [left; reflexivity | reflexivity]. }
  split; [exact H|].
  destruct (successful_cycle_reschedules (mkFetch [57] false)
              [liveSnapshot] 3600000 newWorld) as (_ & _ & Hlive & _).
  apply Hlive. exact H.
Defined.

(** ** The cache after a run of the detector, and its cleanup *)

Lemma discoverMatch_state tt (m : Match) :
  exists ev, (discoverMatch tt m).1 = createMatchState m (Some ev).
Proof.
  unfold discoverMatch. cbv zeta.
  destruct (bool_decide (match_status m = MATCH_STATUS.IN_PLAY));
  destruct (bool_decide (match_status m = MATCH_STATUS.PAUSED));
  destruct (bool_decide (match_status m = MATCH_STATUS.FINISHED));
  destruct (bool_decide (match_status m = MATCH_STATUS.AWARDED));
  cbn [orb fst]; eexists; reflexivity.
Qed.

Lemma processMatch_lookup tt (m : Match) (cache : gmap Z MatchState) :
  exists ev,
    (processMatch tt m cache).1 !! match_id m
    = Some (createMatchState m (Some ev)).
Proof.
  unfold processMatch. destruct (cache !! match_id m) as [cached|].
  - pose proof (updateMatch_latch tt m cached) as H.
    destruct (updateMatch tt m cached) as [st out]. cbn [fst].
    destruct H as ((ev & ->) & _). exists ev. apply lookup_insert_eq.
  - destruct (discoverMatch_state tt m) as (ev & Hev).
    destruct (discoverMatch tt m) as [st out]. cbn [fst] in *.
    exists ev. rewrite Hev. apply lookup_insert_eq.
Qed.

Lemma processMatchUpdates_other tt (ms : list Match)
    (cache : gmap Z MatchState) (id : Z) :
  ~ In id (map match_id ms) ->
  (processMatchUpdates tt ms cache).1 !! id = cache !! id.
Proof.
  revert cache. induction ms as [|m rest IH]; intros cache Hid;
    [reflexivity|].
  cbn [processMatchUpdates].
  pose proof (processMatch_other tt m cache id) as Ho.
  destruct (processMatch tt m cache) as [cache1 out1].
  specialize (IH cache1).
  destruct (processMatchUpdates tt rest cache1) as [cache2 out2].
  cbn [fst map] in *. rewrite IH.
  - apply Ho. intros ->. apply Hid. left. reflexivity.
  - intros H. apply Hid. right. exact H.
Qed.

Lemma processMatchUpdates_about tt (ms : list Match)
    (cache : gmap Z MatchState) :
  Forall (fun e => In (ev_match e) ms) (processMatchUpdates tt ms cache).2.
Proof.
  revert cache. induction ms as [|m rest IH]; intros cache;
    [apply Forall_nil_2|].
  cbn [processMatchUpdates].
  pose proof (processMatch_about tt m cache) as Ha.
  destruct (processMatch tt m cache) as [cache1 out1].
  specialize (IH cache1).
  destruct (processMatchUpdates tt rest cache1) as [cache2 out2].
  cbn [fst snd] in *. apply Forall_app. split.
  - eapply Forall_impl; [exact Ha|]. intros e He. left. auto.
  - eapply Forall_impl; [exact IH|]. intros e He. right. exact He.
Qed.

Lemma processMatchUpdates_lookup tt (ms : list Match)
    (cache : gmap Z MatchState) (m : Match) :
  NoDup (map match_id ms) -> In m ms ->
  exists ev, (processMatchUpdates tt ms cache).1 !! match_id m
             = Some (createMatchState m (Some ev)).
Proof.
  revert cache. induction ms as [|m0 rest IH]; intros cache Hnd Hin;
    [destruct Hin|].
  cbn [map] in Hnd. apply NoDup_cons in Hnd. destruct Hnd as [Hfresh Hnd].
  cbn [processMatchUpdates].
  pose proof (processMatch_lookup tt m0 cache) as Hl.
  destruct (processMatch tt m0 cache) as [cache1 out1].
  pose proof (processMatchUpdates_other tt rest cache1 (match_id m0)) as Ho.
  specialize (IH cache1 Hnd).
  destruct (processMatchUpdates tt rest cache1) as [cache2 out2].
  cbn [fst] in *. destruct Hin as [->|Hin].
  - destruct Hl as (ev & Hl). exists ev. rewrite Ho; [exact Hl|].
    intros H. apply Hfresh. apply list_elem_of_In. exact H.
  - apply IH. exact Hin.
Qed.

(** X6.  After [processMatchUpdates] over a list in which every match
    id occurs once, each listed match has a cache entry built from its
    snapshot (fetched status, kickoff, scores, teams), and the entry of
    every match that is not listed is as it was. *)
Theorem cache_holds_last_snapshot tt (ms : list Match)
    (cache : gmap Z MatchState) :
  NoDup (map match_id ms) ->
  (forall m, In m ms ->
     exists ev, (processMatchUpdates tt ms cache).1 !! match_id m
                = Some (createMatchState m (Some ev)))
  /\ (forall id, ~ In id (map match_id ms) ->
        (processMatchUpdates tt ms cache).1 !! id = cache !! id).
Proof.
  intros Hnd. split.
  - intros m Hin. apply processMatchUpdates_lookup; assumption.
  - intros id. apply processMatchUpdates_other.
Qed.

Lemma cache_holds_last_snapshot_witness :
  exists ev, (processMatchUpdates bothTracked [liveSnapshot] ∅).1 !! 1
             = Some (createMatchState liveSnapshot (Some ev)).
Proof.
  assert (Hnd : NoDup (map match_id [liveSnapshot])).
  { apply NoDup_cons. split; [apply not_elem_of_nil | apply NoDup_nil_2]. }
  destruct (cache_holds_last_snapshot bothTracked [liveSnapshot] ∅ Hnd)
    as [H _].
  apply (H liveSnapshot). left. reflexivity.
Defined.

Lemma staleEntry_spec (now : Z) (cached : MatchState) :
  staleEntry now cached = true <-> staleAt now cached.
Proof.
  unfold staleEntry, staleAt, includes, COMPLETED_STATUSES.
  cbn [existsb].
  destruct (bool_decide ("FINISHED" = st_status cached)) eqn:E1;
    destruct (bool_decide ("AWARDED" = st_status cached)) eqn:E2;
    cbn [orb].
  all: try apply bool_decide_eq_true in E1.
  all: try apply bool_decide_eq_true in E2.
  all: try apply bool_decide_eq_false in E1.
  all: try apply bool_decide_eq_false in E2.
  4: { split; [discriminate|].
       intros [[H|H] _]; unfold MATCH_STATUS.FINISHED, MATCH_STATUS.AWARDED in H;
         congruence. }
  all: destruct (st_utcDate cached) as [k|];
    [ rewrite bool_decide_eq_true; split;
      [ intros H; split;
        [ unfold MATCH_STATUS.FINISHED, MATCH_STATUS.AWARDED; auto
        | exists k; split; [reflexivity | lia] ]
      | intros [_ (k' & Hk & Hlt)]; inversion Hk; subst; lia ]
    | split; [discriminate | intros [_ (k' & Hk & _)]; discriminate] ].
Qed.

Lemma cleanupCache_lookup (now : Z) (cache : gmap Z MatchState) (id : Z)
    (st : MatchState) :
  cleanupCache now cache !! id = Some st
  <-> cache !! id = Some st /\ ~ staleAt now st.
Proof.
  unfold cleanupCache. rewrite map_lookup_filter_Some. cbn [snd].
  rewrite <- staleEntry_spec.
  destruct (staleEntry now st); intuition congruence.
Qed.

(** X7.  [cleanupOldMatches] drops a cache entry exactly when its status
    is FINISHED or AWARDED and its kickoff is more than four hours
    before the clock, whether or not the match is in the current list;
    entries in any other status are never dropped.  It drops a
    threshold record exactly when its match is not in the current
    list. *)
Theorem cleanupOldMatches_keeps (now : Z) (ms : list Match)
    (triggered : gmap Z (gset Z)) (cache : gmap Z MatchState) :
  (forall id st,
     (cleanupOldMatches now ms triggered cache).2 !! id = Some st
     <-> cache !! id = Some st /\ ~ staleAt now st)
  /\ (forall id fired,
        (cleanupOldMatches now ms triggered cache).1 !! id = Some fired
        <-> triggered !! id = Some fired /\ In id (map match_id ms)).
Proof.
  unfold cleanupOldMatches. cbn [fst snd]. split.
  - intros id st. apply cleanupCache_lookup.
  - intros id fired. unfold cleanupTriggered.
    rewrite map_lookup_filter_Some. cbn [fst].
    rewrite list_elem_of_In. reflexivity.
Qed.

Lemma relevantMatches_NoDup (ids : list Z) (allMatches : list Match) :
  NoDup (map match_id allMatches) ->
  NoDup (map match_id (relevantMatches ids allMatches)).
Proof.
  unfold relevantMatches. induction allMatches as [|m rest IH];
    intros Hnd; [exact Hnd|].
  cbn [map] in Hnd. apply NoDup_cons in Hnd. destruct Hnd as [Hfresh Hnd].
  cbn [List.filter]. destruct (_ || _); [|apply IH; exact Hnd].
  cbn [map]. apply NoDup_cons. split; [|apply IH; exact Hnd].
  intros H. apply Hfresh. apply list_elem_of_In.
  apply list_elem_of_In in H. apply in_map_iff in H.
  destruct H as (m' & Hid & Hin). apply filter_In in Hin.
  apply in_map_iff. exists m'. tauto.
Qed.

(** A match without a cache entry is discovered by the run. *)
Lemma processMatchUpdates_discovers tt (ms : list Match)
    (cache : gmap Z MatchState) (m : Match) (e : Event) :
  NoDup (map match_id ms) -> In m ms -> cache !! match_id m = None ->
  In e (discoverMatch tt m).2 ->
  In e (processMatchUpdates tt ms cache).2.
Proof.
  revert cache. induction ms as [|m0 rest IH];
    intros cache Hnd Hin Hnone He; [destruct Hin|].
  cbn [map] in Hnd. apply NoDup_cons in Hnd. destruct Hnd as [Hfresh Hnd].
  cbn [processMatchUpdates].
  destruct Hin as [->|Hin].
  - unfold processMatch. rewrite Hnone.
    destruct (discoverMatch tt m) as [st out]. cbn [snd] in He.
    destruct (processMatchUpdates tt rest _) as [cache2 out2].
    cbn [snd]. apply in_or_app. left. exact He.
  - assert (Hne : match_id m <> match_id m0).
    { intros Heq. apply Hfresh. rewrite <- Heq.
      apply list_elem_of_In. apply in_map. exact Hin. }
    pose proof (processMatch_other tt m0 cache (match_id m) Hne) as Ho.
    destruct (processMatch tt m0 cache) as [cache1 out1].
    cbn [fst] in Ho.
    specialize (IH cache1 Hnd Hin ltac:(rewrite Ho; exact Hnone) He).
    destruct (processMatchUpdates tt rest cache1) as [cache2 out2].
    cbn [snd] in *. apply in_or_app. right. exact IH.
Qed.

Lemma discoverMatch_finished tt (m : Match) :
  completedStatus m -> is_Some (tt !! team_id (homeTeam m)) ->
  In (mkEvent MATCH_FINISHED (team_id (homeTeam m)) m OnlyMatch)
    (discoverMatch tt m).2.
Proof.
  intros Hc Hs. unfold discoverMatch. cbv zeta.
  assert (Hfin : bool_decide (match_status m = MATCH_STATUS.FINISHED)
                 || bool_decide (match_status m = MATCH_STATUS.AWARDED)
                 = true).
  { destruct Hc as [H|H]; rewrite H; reflexivity. }
  rewrite Hfin.
  destruct (bool_decide (match_status m = MATCH_STATUS.IN_PLAY));
    destruct (bool_decide (match_status m = MATCH_STATUS.PAUSED));
    cbn [snd]; apply in_or_app; right; apply in_or_app; right;
    apply in_or_app; left; apply emitForTeams_In;
    exists (team_id (homeTeam m)); (split; [left; reflexivity|]); auto.
Qed.

(** X8.  A match that is still in the fetched list with status FINISHED
    or AWARDED more than four hours after its kickoff is dropped from
    the cache at the end of every successful cycle, its finished marker
    with it; the next cycle that fetches it therefore discovers it as
    new and emits [match_finished] for its tracked home team again. *)
Theorem stale_finished_match_reannounced (f1 f2 : Fetch)
    (all1 all2 : list Match) (now1 now2 : Z) (w : World) (m : Match)
    (kickoff : Z) :
  NoDup (map match_id all1) -> NoDup (map match_id all2) ->
  In m (relevantMatches (fetch_trackedTeamIds f1) all1) ->
  In m (relevantMatches (fetch_trackedTeamIds f2) all2) ->
  completedStatus m -> match_utcDate m = Some kickoff ->
  kickoff + 4 * 3600000 < now1 ->
  is_Some (trackedTeams (manager w) !! team_id (homeTeam m)) ->
  let w1 := pollResume f1 (Some all1) now1 w in
  let w2 := pollResume f2 (Some all2) now2 w1 in
  matchCache (manager w1) !! match_id m = None
  /\ exists out,
       emitted w2 = emitted w1 ++ out
       /\ In (mkEvent MATCH_FINISHED (team_id (homeTeam m)) m OnlyMatch) out.
Proof.
  intros Hnd1 Hnd2 Hin1 Hin2 Hc Hk Hold Htr. cbv zeta.
  assert (Hevict : matchCache (manager (pollResume f1 (Some all1) now1 w))
                   !! match_id m = None).
  { unfold pollResume.
    destruct (processMatchUpdates_lookup (trackedTeams (manager w))
                (relevantMatches (fetch_trackedTeamIds f1) all1)
                (matchCache (manager w)) m
                (relevantMatches_NoDup _ _ Hnd1) Hin1) as (ev & Hev).
    destruct (processMatchUpdates _ _ _) as [cache1 out1].
    destruct (checkMatchStartsSoon _ _ _ _) as [trig1 out2].
    cbn [cleanupOldMatches fst] in *.
    match goal with
    | |- context [scheduleNextPoll ?w1] =>
        destruct (scheduleNextPoll_armed w1) as (_ & _ & _ & Hcache & _)
    end.
    rewrite Hcache. cbn [manager matchCache].
    destruct (cleanupCache now1 cache1 !! match_id m) as [st|] eqn:E;
      [|reflexivity].
    exfalso.
    apply cleanupCache_lookup in E. destruct E as [E Hfresh].
    rewrite Hev in E.
    inversion E; subst st. apply Hfresh. split.
    - exact Hc.
    - exists kickoff. cbn. split; [exact Hk | lia]. }
  split; [exact Hevict|].
  set (w1 := pollResume f1 (Some all1) now1 w) in *.
  assert (Htr1 : is_Some (trackedTeams (manager w1) !! team_id (homeTeam m))).
  { unfold w1. rewrite pollResume_tracked. exact Htr. }
  pose proof (processMatchUpdates_discovers (trackedTeams (manager w1))
                (relevantMatches (fetch_trackedTeamIds f2) all2)
                (matchCache (manager w1)) m _
                (relevantMatches_NoDup _ _ Hnd2) Hin2 Hevict
                (discoverMatch_finished _ m Hc Htr1)) as Hev.
  unfold pollResume.
  destruct (processMatchUpdates _ _ (matchCache (manager w1)))
    as [cache1 out1].
  destruct (checkMatchStartsSoon _ _ _ _) as [trig1 out2].
  cbn [cleanupOldMatches snd] in *.
  match goal with
  | |- context [scheduleNextPoll ?w0] =>
      destruct (scheduleNextPoll_armed w0)
        as (_ & _ & _ & _ & _ & _ & _ & _ & He)
  end.
  exists (out1 ++ out2). split; [exact He|].
  apply in_or_app. left. exact Hev.
Qed.

(** Both teams of match 1 are tracked; the match is fetched FINISHED
    five hours after kickoff in two cycles in a row. *)
Lemma stale_finished_match_reannounced_witness :
  let w := mkWorld (mkManager bothTracked ∅ IDLE None ∅) (mkHomey ∅ 0) [] [] in
  exists out,
    emitted (pollResume (mkFetch [57] false) (Some [oldResult]) 21900000
               (pollResume (mkFetch [57] false) (Some [oldResult]) 21000000
                  w))
    = emitted (pollResume (mkFetch [57] false) (Some [oldResult]) 21000000 w)
      ++ out
    /\ In (mkEvent MATCH_FINISHED 57 oldResult OnlyMatch) out.
Proof.
  cbv zeta.
  assert (Hnd : NoDup (map match_id [oldResult])).
  { apply NoDup_cons. split; [apply not_elem_of_nil | apply NoDup_nil_2]. }
  destruct (stale_finished_match_reannounced
              (mkFetch [57] false) (mkFetch [57] false)
              [oldResult] [oldResult] 21000000 21900000
              (mkWorld (mkManager bothTracked ∅ IDLE None ∅) (mkHomey ∅ 0)
                 [] [])
              oldResult 3000000 Hnd Hnd) as [_ H].
  - vm_compute. left. reflexivity.
  - vm_compute. left. reflexivity.
  - left. reflexivity.
  - reflexivity.
  - lia.
  - vm_compute. eauto.
  - exact H.
Defined.

(** ** Who receives events *)

Lemma emitForTeam_delivered tt (t : Z) n (m : Match) d :
  t = team_id (homeTeam m) \/ t = team_id (awayTeam m) ->
  Forall (deliveredTo tt) (emitForTeam tt t n m d).
Proof.
  intros Hside. unfold emitForTeam. case_bool_decide as Hs;
    [|apply Forall_nil_2].
  apply Forall_cons. split; [|apply Forall_nil_2].
  split; [exact Hs | exact Hside].
Qed.

Lemma emitForTeams_delivered tt n (m : Match) d :
  Forall (deliveredTo tt)
    (emitForTeams tt [team_id (homeTeam m); team_id (awayTeam m)] n m d).
Proof.
  unfold emitForTeams. cbn [flat_map].
  apply Forall_app. split; [apply emitForTeam_delivered; auto|].
  apply Forall_app. split; [apply emitForTeam_delivered; auto|].
  apply Forall_nil_2.
Qed.

Ltac delivered :=
  repeat match goal with
         | |- Forall _ [] => apply Forall_nil_2
         | |- Forall _ (_ ++ _) => apply Forall_app; split
         | |- Forall _ (emitForTeams _ _ _ _ _) =>
             apply emitForTeams_delivered
         | |- Forall _ (emitForTeam _ _ _ _ _) =>
             apply emitForTeam_delivered; auto
         | |- Forall _ (if ?b then _ else _) => destruct b
         end.

Lemma emitMatchResult_delivered tt (m : Match) :
  Forall (deliveredTo tt) (emitMatchResult tt m).
Proof. unfold emitMatchResult. cbv zeta. delivered. Qed.

Lemma handleScoreChange_delivered tt m cached :
  Forall (deliveredTo tt)
    (handleScoreChange tt m cached (orZero (match_home m))
       (orZero (match_away m))).
Proof.
  unfold handleScoreChange, emitResultStateChange. cbv zeta. delivered.
Qed.

Lemma handleStatusChange_delivered tt m cached :
  Forall (deliveredTo tt) (handleStatusChange tt m cached).2.
Proof.
  unfold handleStatusChange. cbv zeta.
  split_conditions; cbn [snd]; delivered; apply emitMatchResult_delivered.
Qed.

Lemma discoverMatch_delivered tt m :
  Forall (deliveredTo tt) (discoverMatch tt m).2.
Proof.
  unfold discoverMatch. cbv zeta.
  destruct (bool_decide (match_status m = MATCH_STATUS.IN_PLAY));
  destruct (bool_decide (match_status m = MATCH_STATUS.PAUSED));
  destruct (bool_decide (match_status m = MATCH_STATUS.FINISHED));
  destruct (bool_decide (match_status m = MATCH_STATUS.AWARDED));
  cbn [orb snd]; delivered; apply emitMatchResult_delivered.
Qed.

Lemma processMatch_delivered tt m cache :
  Forall (deliveredTo tt) (processMatch tt m cache).2.
Proof.
  unfold processMatch. destruct (cache !! match_id m) as [cached|].
  - unfold updateMatch.
    pose proof (handleStatusChange_delivered tt m cached) as Hs.
    destruct (negb (bool_decide (st_status cached = match_status m))).
    + destruct (handleStatusChange tt m cached) as [ev out1].
      cbn [snd] in *. apply Forall_app. split; [exact Hs|].
      destruct (includes _ _); [|apply Forall_nil_2].
      destruct (_ || _); [|apply Forall_nil_2].
      apply handleScoreChange_delivered.
    + cbn [snd]. apply Forall_app. split; [apply Forall_nil_2|].
      destruct (includes _ _); [|apply Forall_nil_2].
      destruct (_ || _); [|apply Forall_nil_2].
      apply handleScoreChange_delivered.
  - pose proof (discoverMatch_delivered tt m) as Hd.
    destruct (discoverMatch tt m) as [st out]. exact Hd.
Qed.

(** X9.  Every event that [processMatchUpdates] or
    [checkMatchStartsSoon] emits is addressed to a team that has a
    registered device at that moment and that is the home or the away
    team of the match the event is about; nothing is emitted for an
    untracked team. *)
Theorem events_only_for_tracked_sides tt (ms : list Match)
    (cache : gmap Z MatchState) (now : Z) (triggered : gmap Z (gset Z)) :
  Forall (deliveredTo tt) (processMatchUpdates tt ms cache).2
  /\ Forall (deliveredTo tt) (checkMatchStartsSoon now tt ms triggered).2.
Proof.
  split.
  - revert cache. induction ms as [|m rest IH]; intros cache;
      [apply Forall_nil_2|].
    cbn [processMatchUpdates].
    pose proof (processMatch_delivered tt m cache) as Hm.
    destruct (processMatch tt m cache) as [cache1 out1].
    specialize (IH cache1).
    destruct (processMatchUpdates tt rest cache1) as [cache2 out2].
    cbn [snd] in *. apply Forall_app. split; assumption.
  - revert triggered. induction ms as [|m rest IH]; intros triggered;
      [apply Forall_nil_2|].
    cbn [checkMatchStartsSoon].
    pose proof (checkMatch_spec now tt m triggered) as Hm.
    destruct (checkMatch now tt m triggered) as [t1 out1].
    specialize (IH t1).
    destruct (checkMatchStartsSoon now tt rest t1) as [t2 out2].
    cbv zeta in Hm. cbn [fst snd] in *.
    destruct Hm as (_ & _ & Hout & _).
    apply Forall_app. split; [|exact IH].
    apply Forall_forall. intros e He. apply list_elem_of_In in He.
    apply Hout in He.
    destruct He as (_ & T & t & _ & _ & _ & Ht & Hs & ->).
    split; [exact Hs|]. cbn. destruct Ht as [<-|[<-|[]]]; auto.
Qed.

(** ** Result events *)

(** X10.  [emitMatchResult] sends TEAM_WON only to the tracked side
    with strictly more goals, TEAM_LOST only to the tracked side with
    strictly fewer, and TEAM_DREW only, to each tracked side, when the
    scores are equal (a missing score counts as 0). *)
Theorem emitMatchResult_spec tt (m : Match) (e : Event) :
  let h := orZero (match_home m) in
  let a := orZero (match_away m) in
  let home := team_id (homeTeam m) in
  let away := team_id (awayTeam m) in
  In e (emitMatchResult tt m) <->
  exists name t,
    e = mkEvent name t m OnlyMatch /\ is_Some (tt !! t)
    /\ ((name = TEAM_WON /\ (t = home /\ h > a \/ t = away /\ a > h))
        \/ (name = TEAM_LOST /\ (t = away /\ h > a \/ t = home /\ a > h))
        \/ (name = TEAM_DREW /\ h = a /\ (t = home \/ t = away))).
Proof.
  cbv zeta. unfold emitMatchResult.
  set (h := orZero (match_home m)). set (a := orZero (match_away m)).
  assert (Hone : forall n t,
            In e (emitForTeam tt t n m OnlyMatch)
            <-> e = mkEvent n t m OnlyMatch /\ is_Some (tt !! t)).
  { intros n t. unfold emitForTeam. case_bool_decide as Hs; cbn.
    - split; [intros [<-|[]]; auto | intros [-> _]; auto].
    - split; [intros [] | intros [_ H]; contradiction]. }
  destruct (bool_decide (h > a)) eqn:E1.
  - apply bool_decide_eq_true in E1. rewrite in_app_iff, !Hone. split.
    + intros [[-> Hs]|[-> Hs]]; eexists _, _;
        (split; [reflexivity|]); (split; [exact Hs|]); intuition auto.
    + intros (n & t & -> & Hs & Hcase).
      destruct Hcase as [[-> [[-> _]|[_ ?]]]|[[-> [[-> _]|[_ ?]]]
                        |[-> [? _]]]]; auto; lia.
  - apply bool_decide_eq_false in E1.
    destruct (bool_decide (a > h)) eqn:E2.
    + apply bool_decide_eq_true in E2. rewrite in_app_iff, !Hone. split.
      * intros [[-> Hs]|[-> Hs]]; eexists _, _;
          (split; [reflexivity|]); (split; [exact Hs|]); intuition auto.
      * intros (n & t & -> & Hs & Hcase).
        destruct Hcase as [[-> [[_ ?]|[-> _]]]|[[-> [[_ ?]|[-> _]]]
                          |[-> [? _]]]]; auto; lia.
    + apply bool_decide_eq_false in E2.
      unfold emitForTeams. cbn [flat_map].
      rewrite !in_app_iff, !Hone. cbn [In]. split.
      * intros [[-> Hs]|[[-> Hs]|[]]]; eexists _, _;
          (split; [reflexivity|]); (split; [exact Hs|]);
          right; right; (split; [reflexivity|]); split; auto; lia.
      * intros (n & t & -> & Hs & Hcase).
        destruct Hcase as [[_ [[_ ?]|[_ ?]]]|[[_ [[_ ?]|[_ ?]]]
                          |[-> [_ [->| ->]]]]]; try lia; auto.
Qed.

Lemma getResultState_mirror (a b : Z) :
  getResultState b a = mirror (getResultState a b).
Proof.
  unfold getResultState. repeat case_bool_decide; try reflexivity; lia.
Qed.

(** X11.  The two sides of a match change result state together: the
    away side's state is always the mirror image of the home side's
    (winning/losing swapped, drawing kept), so whenever
    [handleScoreChange] emits [match_result_changed] for the tracked
    home team it also emits it for the tracked away team, and
    conversely. *)
Theorem result_changes_come_in_pairs tt (m : Match) (cached : MatchState) :
  let newHome := orZero (match_home m) in
  let newAway := orZero (match_away m) in
  let out := handleScoreChange tt m cached newHome newAway in
  getResultState newAway newHome = mirror (getResultState newHome newAway)
  /\ (is_Some (tt !! team_id (homeTeam m)) ->
      is_Some (tt !! team_id (awayTeam m)) ->
      (countEvents MATCH_RESULT_CHANGED (team_id (homeTeam m)) (match_id m)
         out > 0)%nat ->
      In (resultChanged m true) out /\ In (resultChanged m false) out)
  /\ (is_Some (tt !! team_id (homeTeam m)) ->
      is_Some (tt !! team_id (awayTeam m)) ->
      (countEvents MATCH_RESULT_CHANGED (team_id (awayTeam m)) (match_id m)
         out > 0)%nat ->
      In (resultChanged m true) out /\ In (resultChanged m false) out).
Proof.
  cbv zeta. split; [apply getResultState_mirror|].
  assert (Hchanged : forall t,
    (countEvents MATCH_RESULT_CHANGED t (match_id m)
       (handleScoreChange tt m cached (orZero (match_home m))
          (orZero (match_away m))) > 0)%nat ->
    getResultState (homeScore cached) (awayScore cached)
    <> getResultState (orZero (match_home m)) (orZero (match_away m))).
  { intros t Hpos Heq. unfold handleScoreChange in Hpos. cbv zeta in Hpos.
    assert (Heq' : getResultState (awayScore cached) (homeScore cached)
                   = getResultState (orZero (match_away m))
                       (orZero (match_home m))).
    { rewrite !(getResultState_mirror (homeScore cached)),
        (getResultState_mirror (orZero (match_home m))). congruence. }
    assert (Hgoal : forall (c : bool) t1 t2 d1 d2,
              countEvents MATCH_RESULT_CHANGED t (match_id m)
                (if c
                 then emitForTeam tt t1 TEAM_SCORED m d1
                      ++ emitForTeam tt t2 TEAM_CONCEDED m d2
                 else []) = 0%nat).
    { intros c t1 t2 d1 d2.
      eapply (countEvents_named _ _ _ [TEAM_SCORED; TEAM_CONCEDED] m).
      - named.
      - intros [H|[H|[]]]; discriminate. }
    unfold emitResultStateChange in Hpos.
    rewrite (bool_decide_eq_true_2 _ Heq), (bool_decide_eq_true_2 _ Heq')
      in Hpos.
    rewrite !countEvents_app, !Hgoal in Hpos. cbn in Hpos. lia. }
  assert (Hboth : is_Some (tt !! team_id (homeTeam m)) ->
                  is_Some (tt !! team_id (awayTeam m)) ->
                  getResultState (homeScore cached) (awayScore cached)
                  <> getResultState (orZero (match_home m))
                       (orZero (match_away m)) ->
                  In (resultChanged m true)
                    (handleScoreChange tt m cached (orZero (match_home m))
                       (orZero (match_away m)))
                  /\ In (resultChanged m false)
                       (handleScoreChange tt m cached
                          (orZero (match_home m)) (orZero (match_away m)))).
  { intros Hh Ha Hne.
    assert (Hne' : getResultState (awayScore cached) (homeScore cached)
                   <> getResultState (orZero (match_away m))
                        (orZero (match_home m))).
    { rewrite (getResultState_mirror (homeScore cached)),
        (getResultState_mirror (orZero (match_home m))).
      intros H. apply Hne.
      destruct (getResultState (homeScore cached) (awayScore cached));
        destruct (getResultState (orZero (match_home m))
                    (orZero (match_away m)));
        simpl in H; congruence. }
    unfold handleScoreChange. cbv zeta. split.
    - apply in_or_app. right. apply in_or_app. right.
      apply in_or_app. left.
      apply (emitResultStateChange_In tt m true _ Hne Hh).
    - apply in_or_app. right. apply in_or_app. right.
      apply in_or_app. right.
      apply (emitResultStateChange_In tt m false _ Hne' Ha). }
  split; intros Hh Ha Hpos; apply Hboth; auto; eapply Hchanged; eauto.
Qed.

Lemma result_changes_come_in_pairs_witness :
  In (resultChanged disallowedGoal true)
    (handleScoreChange bothTracked disallowedGoal
       (createMatchState (match1 "IN_PLAY" 3000000 2 1) None) 1 1)
  /\ In (resultChanged disallowedGoal false)
       (handleScoreChange bothTracked disallowedGoal
          (createMatchState (match1 "IN_PLAY" 3000000 2 1) None) 1 1).
Proof.
  destruct (result_changes_come_in_pairs bothTracked disallowedGoal
              (createMatchState (match1 "IN_PLAY" 3000000 2 1) None))
    as (_ & H & _).
  apply H.
  - vm_compute. eauto.
  - vm_compute. eauto.
  - vm_compute. lia.
Defined.

(** ** Status changes and first sight *)

(** X12.  [handleStatusChange] emits events or sets a marker only in
    four situations: the new status is IN_PLAY after an upcoming status
    with the kickoff marker clear; IN_PLAY after PAUSED with the
    second-half marker clear; PAUSED with the halftime marker clear;
    FINISHED or AWARDED with the finished marker clear.  Any other
    change (to SUSPENDED, POSTPONED, CANCELLED, back to SCHEDULED or
    TIMED, to IN_PLAY from any other status) emits nothing and leaves
    the markers as they are. *)
Theorem handleStatusChange_reacts tt (m : Match) (cached : MatchState) :
  let r := handleStatusChange tt m cached in
  let teams := [team_id (homeTeam m); team_id (awayTeam m)] in
  (~ (kickoffSeen m cached \/ secondHalfSeen m cached
      \/ halftimeSeen m cached \/ finishSeen m cached) ->
   r = (events cached, []))
  /\ (kickoffSeen m cached ->
      r = (setKickoff (events cached),
           emitForTeams tt teams MATCH_KICKOFF m OnlyMatch))
  /\ (secondHalfSeen m cached ->
      r = (setSecondHalf (events cached),
           emitForTeams tt teams SECOND_HALF_STARTED m OnlyMatch))
  /\ (halftimeSeen m cached ->
      r = (setHalftime (events cached),
           emitForTeams tt teams HALFTIME_STARTED m OnlyMatch))
  /\ (finishSeen m cached ->
      r = (setFinished (events cached),
           emitForTeams tt teams MATCH_FINISHED m OnlyMatch
           ++ emitMatchResult tt m)).
Proof.
  cbv zeta. unfold handleStatusChange. cbv zeta.
  unfold kickoffSeen, secondHalfSeen, halftimeSeen, finishSeen.
  unfold MATCH_STATUS.IN_PLAY, MATCH_STATUS.PAUSED, MATCH_STATUS.FINISHED,
    MATCH_STATUS.AWARDED.
  destruct (bool_decide (match_status m = "IN_PLAY")) eqn:E1;
    [apply bool_decide_eq_true in E1 | apply bool_decide_eq_false in E1];
  destruct (bool_decide (match_status m = "PAUSED")) eqn:E2;
    [apply bool_decide_eq_true in E2 | apply bool_decide_eq_false in E2
    |apply bool_decide_eq_true in E2 | apply bool_decide_eq_false in E2];
  destruct (bool_decide (match_status m = "FINISHED")) eqn:E3;
    try apply bool_decide_eq_true in E3;
    try apply bool_decide_eq_false in E3;
  destruct (bool_decide (match_status m = "AWARDED")) eqn:E4;
    try apply bool_decide_eq_true in E4;
    try apply bool_decide_eq_false in E4;
  try congruence;
  destruct (includes UPCOMING_STATUSES (st_status cached)) eqn:E5;
  destruct (bool_decide (st_status cached = "PAUSED")) eqn:E6;
    try apply bool_decide_eq_true in E6;
    try apply bool_decide_eq_false in E6;
  destruct (kickoffTriggered (events cached)) eqn:K;
  destruct (secondHalfTriggered (events cached)) eqn:S2;
  destruct (halftimeTriggered (events cached)) eqn:H2;
  destruct (finishedTriggered (events cached)) eqn:F2;
  cbn [negb orb];
  repeat split; intros; try reflexivity;
  try (exfalso; intuition congruence).
Qed.

Lemma handleStatusChange_reacts_witness :
  handleStatusChange bothTracked (match1 "SUSPENDED" 3000000 0 0)
    (createMatchState liveSnapshot None)
  = (noMarkers, []).
Proof.
  destruct (handleStatusChange_reacts bothTracked
              (match1 "SUSPENDED" 3000000 0 0)
              (createMatchState liveSnapshot None)) as [H _].
  apply H. unfold kickoffSeen, secondHalfSeen, halftimeSeen, finishSeen.
  cbn. intuition discriminate.
Defined.

(** X13.  A match seen for the first time gets exactly the catch-up of
    its status: IN_PLAY sets the kickoff marker and emits
    [match_kickoff]; PAUSED sets only the halftime marker and emits
    [halftime_started]; FINISHED or AWARDED sets only the finished
    marker and emits [match_finished] and the result; any other status
    emits nothing and leaves all markers clear. *)
Theorem discoverMatch_catch_up tt (m : Match) :
  let teams := [team_id (homeTeam m); team_id (awayTeam m)] in
  let status := match_status m in
  discoverMatch tt m
  = if bool_decide (status = MATCH_STATUS.IN_PLAY) then
      (createMatchState m (Some (setKickoff noMarkers)),
       emitForTeams tt teams MATCH_KICKOFF m OnlyMatch)
    else if bool_decide (status = MATCH_STATUS.PAUSED) then
      (createMatchState m (Some (setHalftime noMarkers)),
       emitForTeams tt teams HALFTIME_STARTED m OnlyMatch)
    else if bool_decide (status = MATCH_STATUS.FINISHED)
            || bool_decide (status = MATCH_STATUS.AWARDED) then
      (createMatchState m (Some (setFinished noMarkers)),
       emitForTeams tt teams MATCH_FINISHED m OnlyMatch
       ++ emitMatchResult tt m)
    else (createMatchState m None, []).
Proof.
  cbv zeta. unfold discoverMatch. cbv zeta.
  unfold MATCH_STATUS.IN_PLAY, MATCH_STATUS.PAUSED, MATCH_STATUS.FINISHED,
    MATCH_STATUS.AWARDED.
  destruct (bool_decide (match_status m = "IN_PLAY")) eqn:E1;
    [apply bool_decide_eq_true in E1 | apply bool_decide_eq_false in E1];
  destruct (bool_decide (match_status m = "PAUSED")) eqn:E2;
    [apply bool_decide_eq_true in E2 | apply bool_decide_eq_false in E2
    |apply bool_decide_eq_true in E2 | apply bool_decide_eq_false in E2];
  destruct (bool_decide (match_status m = "FINISHED")) eqn:E3;
    try apply bool_decide_eq_true in E3;
    try apply bool_decide_eq_false in E3;
  destruct (bool_decide (match_status m = "AWARDED")) eqn:E4;
    try apply bool_decide_eq_true in E4;
    try apply bool_decide_eq_false in E4;
  try congruence; cbn [orb]; rewrite ?app_nil_r; reflexivity.
Qed.

(** X14.  When a match in an upcoming status is first checked inside
    several thresholds at once, all of them fire in that same cycle:
    if the minutes until kickoff lie within threshold T1, every
    configured threshold T2 >= T1 that has not fired yet emits its
    [match_starts_soon] event in this run. *)
Theorem starts_soon_fires_all_open_thresholds (now : Z) tt
    (ms : list Match) (triggered : gmap Z (gset Z)) (m : Match)
    (T1 T2 : Z) :
  NoDup (map match_id ms) -> In m ms -> upcomingStatus m ->
  is_Some (tt !! team_id (homeTeam m))
  \/ is_Some (tt !! team_id (awayTeam m)) ->
  withinThreshold now m T1 -> T1 <= T2 ->
  In T2 MATCH_SOON_THRESHOLDS ->
  T2 ∉ firedFor triggered (match_id m) ->
  exists e, In e (checkMatchStartsSoon now tt ms triggered).2
            /\ isSoonEvent (match_id m) T2 e.
Proof.
  intros Hnd Hin Hup Htr Hw Hle HT Hnf.
  apply (checkMatchStartsSoon_fire now tt ms triggered m T2 Hnd Hin).
  repeat split; auto.
  eapply withinThreshold_above; eauto.
Qed.

(** Ten minutes before kickoff, nothing fired: the 120-minute threshold
    fires together with the others. *)
Lemma starts_soon_fires_all_open_thresholds_witness :
  exists e, In e (checkMatchStartsSoon 4800000 evertonTracked
                    [upcomingSnapshot] ∅).2
            /\ isSoonEvent 2 120 e.
Proof.
  apply (starts_soon_fires_all_open_thresholds 4800000 evertonTracked
           [upcomingSnapshot] ∅ upcomingSnapshot 15 120).
  - apply NoDup_cons. split; [apply not_elem_of_nil | apply NoDup_nil_2].
  - left. reflexivity.
  - right. reflexivity.
  - left. vm_compute. eauto.
  - exists 5400000. repeat split; simpl; lia.
  - lia.
  - simpl. auto.
  - unfold firedFor. rewrite lookup_empty. apply not_elem_of_empty.
Defined.

(** ** More on the rate limiter *)

Lemma apiRun_invariant (P : FootballAPI -> Prop) :
  (forall fuel s api api', P api -> apiStep fuel s api = Some api' ->
     P api') ->
  forall fuel steps api api',
    P api -> apiRun fuel steps api = Some api' -> P api'.
Proof.
  intros Hstep fuel steps. induction steps as [|s rest IH];
    intros api api' Hp; simpl.
  - intros H. inversion H; subst. exact Hp.
  - destruct (apiStep fuel s api) as [api1|] eqn:E; [|discriminate].
    apply IH. eapply Hstep; eauto.
Qed.

Lemma clean_sorted (now : Z) (ts : list Z) :
  StronglySorted Z.le ts ->
  StronglySorted Z.le (cleanExpiredTimestamps now ts).
Proof.
  unfold cleanExpiredTimestamps. induction 1 as [|t ts Hs IH Hall];
    cbn [List.filter]; [constructor|].
  destruct (bool_decide (t > now - 60000)); [|exact IH].
  constructor; [exact IH|].
  apply Forall_forall. intros x Hx. apply list_elem_of_In in Hx.
  apply filter_In in Hx. destruct Hx as [Hx _].
  rewrite Forall_forall in Hall. apply Hall. apply list_elem_of_In. exact Hx.
Qed.

Lemma clean_bounded (now bound : Z) (ts : list Z) :
  Forall (fun t => t <= bound) ts ->
  Forall (fun t => t <= bound) (cleanExpiredTimestamps now ts).
Proof.
  intros H. apply Forall_forall. intros x Hx. apply list_elem_of_In in Hx.
  apply cleanExpiredTimestamps_In in Hx. destruct Hx as [Hx _].
  rewrite Forall_forall in H. apply H. apply list_elem_of_In. exact Hx.
Qed.

Lemma sorted_snoc (ts : list Z) (now : Z) :
  StronglySorted Z.le ts -> Forall (fun t => t <= now) ts ->
  StronglySorted Z.le (ts ++ [now]).
Proof.
  induction 1 as [|t ts Hs IH Hall]; intros Hb; simpl.
  - constructor; constructor.
  - apply Forall_cons in Hb. destruct Hb as [Ht Hb].
    constructor; [apply IH; exact Hb|].
    apply Forall_app. split; [exact Hall|].
    apply Forall_cons. split; [exact Ht | apply Forall_nil_2].
Qed.

Lemma timestampsOrdered_requestLoop fuel (now : Z) (key : option string)
    hp ts0 c ts' (cs : list Caller) (log : list (Z * bool)) :
  StronglySorted Z.le ts0 -> Forall (fun t => t <= now) ts0 ->
  requestLoop fuel now hp ts0 = Some (c, ts') ->
  timestampsOrdered (mkAPI key ts' now cs log).
Proof.
  intros Hs Hb Hloop. apply requestLoop_spec in Hloop. cbv zeta in Hloop.
  pose proof (clean_sorted now ts0 Hs) as Hcs.
  pose proof (clean_bounded now now ts0 Hb) as Hcb.
  destruct Hloop as [(_ & -> & _) | (oldest & _ & _ & -> & _)].
  - split; cbn.
    + apply sorted_snoc; assumption.
    + apply Forall_app. split; [exact Hcb|].
      apply Forall_cons. split; [lia | apply Forall_nil_2].
  - split; cbn; assumption.
Qed.

Lemma timestampsOrdered_step fuel s api api' :
  timestampsOrdered api -> apiStep fuel s api = Some api' ->
  timestampsOrdered api'.
Proof.
  intros [Hs Hb]. destruct s as [hp|i|i ok|ms|key]; simpl.
  - unfold request. destruct (configured (apiKey api)); cbn [negb].
    + destruct (requestLoop fuel (clock api) hp (requestTimestamps api))
        as [[c ts]|] eqn:El; [|discriminate].
      intros H. inversion H; subst.
      exact (timestampsOrdered_requestLoop _ _ _ _ _ _ _ _ _ Hs Hb El).
    + intros H. inversion H; subst. split; assumption.
  - unfold wake. destruct (callers api !! i) as [[|hp w|? ?|? ?|? ?]|];
      try (intros H; inversion H; subst; split; assumption).
    destruct (bool_decide (w <= clock api));
      [|intros H; inversion H; subst; split; assumption].
    destruct (requestLoop fuel (clock api) hp _) as [[c ts]|] eqn:El;
      [|discriminate].
    intros H. inversion H; subst.
    exact (timestampsOrdered_requestLoop _ _ _ _ _ _ _ _ _
             (clean_sorted _ _ Hs) (clean_bounded _ _ _ Hb) El).
  - intros H. inversion H; subst. unfold settle.
    destruct (callers api !! i) as [[|? ?|? ?|? ?|? ?]|]; split; assumption.
  - intros H. inversion H; subst. split; cbn; [exact Hs|].
    eapply Forall_impl; [exact Hb|]. cbn. intros. lia.
  - intros H. inversion H; subst. split; assumption.
Qed.

(** X15.  After any sequence of calls, wake-ups, settled fetches and
    clock advances, [requestTimestamps] is in non-decreasing order and
    holds no instant later than the clock, so its first element, which
    [request] takes as the oldest timestamp, is indeed the smallest. *)
Theorem oldest_timestamp_is_first (fuel : nat) (steps : list ApiStep)
    (key : option string) (start : Z) (api : FootballAPI) :
  apiRun fuel steps (newAPI key start) = Some api ->
  forall oldestTimestamp,
    head (requestTimestamps api) = Some oldestTimestamp ->
    forall ts, In ts (requestTimestamps api) ->
      oldestTimestamp <= ts /\ ts <= clock api.
Proof.
  intros Hrun.
  assert (Hinv : timestampsOrdered api).
  { eapply (apiRun_invariant timestampsOrdered timestampsOrdered_step);
      [|exact Hrun].
    split; cbn; constructor. }
  destruct Hinv as [Hs Hb]. intros oldest Hh ts Hin.
  split.
  - destruct (requestTimestamps api) as [|t0 rest]; [discriminate|].
    cbn in Hh. inversion Hh; subst t0.
    apply StronglySorted_inv in Hs. destruct Hs as [_ Hall].
    destruct Hin as [->|Hin]; [lia|].
    rewrite Forall_forall in Hall. apply Hall. apply list_elem_of_In.
    exact Hin.
  - rewrite Forall_forall in Hb. apply Hb. apply list_elem_of_In. exact Hin.
Qed.

Lemma oldest_timestamp_is_first_witness :
  exists api,
    apiRun 1 [Call false; Elapse 5; Call true] (newAPI (Some "k") 1000)
    = Some api
    /\ head (requestTimestamps api) = Some 1000
    /\ 1000 <= 1005 <= clock api.
Proof.
  destruct (apiRun 1 [Call false; Elapse 5; Call true]
              (newAPI (Some "k") 1000)) as [api|] eqn:E;
    [|vm_compute in E; discriminate].
  exists api. split; [reflexivity|].
  assert (Hh : head (requestTimestamps api) = Some 1000).
  { vm_compute in E. inversion E; subst. reflexivity. }
  split; [exact Hh|].
  apply (oldest_timestamp_is_first 1 _ _ _ api E 1000 Hh 1005).
  vm_compute in E. inversion E; subst. cbn. auto.
Defined.

Lemma requestsInWindow_exact (T : Z) (log : list (Z * bool)) :
  Forall (fun s => fst s <= T) log ->
  requestsInWindow T log = countAfter (T - 60000) (map fst log).
Proof.
  unfold requestsInWindow, countAfter, inWindow.
  induction 1 as [|[t hp] log Ht Hall IH]; cbn [List.filter map fst];
    [reflexivity|].
  cbn [fst] in Ht. rewrite (bool_decide_eq_true_2 (t <= T)) by exact Ht.
  rewrite andb_true_r.
  destruct (bool_decide (T - 60000 < t)) eqn:E1;
    destruct (bool_decide (t > T - 60000)) eqn:E2; cbn [length];
    try (rewrite IH; reflexivity).
  - apply bool_decide_eq_true in E1. apply bool_decide_eq_false in E2. lia.
  - apply bool_decide_eq_false in E1. apply bool_decide_eq_true in E2. lia.
Qed.

(** X16.  In every state the rate limiter can reach, the gate opens
    exactly when fewer requests than the caller's quota (10 with
    [highPriority], 8 without) were really sent in the last 60 seconds:
    [requestTimestamps] never refuses a call for requests that have
    left the window and never lets one pass beyond the quota. *)
Theorem gate_opens_iff_under_quota (fuel : nat) (steps : list ApiStep)
    (key : option string) (start : Z) (api : FootballAPI)
    (highPriority : bool) :
  apiRun fuel steps (newAPI key start) = Some api ->
  (canMakeRequest (clock api) highPriority (requestTimestamps api)).1 = true
  <-> Z.of_nat (requestsInWindow (clock api) (transmitted api))
      < quota highPriority.
Proof.
  intros Hrun.
  destruct (apiInvariant_run _ _ _ _ (apiInvariant_new key start) Hrun)
    as (Hpast & Hwin & _).
  unfold canMakeRequest. cbn [fst]. rewrite bool_decide_eq_true.
  rewrite length_clean, <- Hwin by lia.
  rewrite <- requestsInWindow_exact by exact Hpast.
  unfold quota. reflexivity.
Qed.

Lemma gate_opens_iff_under_quota_witness :
  exists api,
    apiRun 1 [Call false; Call false] (newAPI (Some "k") 1000) = Some api
    /\ (canMakeRequest (clock api) false (requestTimestamps api)).1 = true.
Proof.
  destruct (apiRun 1 [Call false; Call false] (newAPI (Some "k") 1000))
    as [api|] eqn:E; [|vm_compute in E; discriminate].
  exists api. split; [reflexivity|].
  apply (gate_opens_iff_under_quota 1 _ _ _ api false E).
  vm_compute in E. inversion E; subst. vm_compute. reflexivity.
Defined.

(** X17.  In every state the rate limiter can reach, a call that is
    refused goes to sleep for more than 100 ms and at most 60100 ms:
    the oldest timestamp is still inside the window and not in the
    future. *)
Theorem refused_call_sleeps_at_most_a_minute (fuel : nat)
    (steps : list ApiStep) (key : option string) (start : Z)
    (api : FootballAPI) (highPriority : bool) :
  apiRun fuel steps (newAPI key start) = Some api ->
  (canMakeRequest (clock api) highPriority (requestTimestamps api)).1
  = false ->
  exists wakeAt,
    requestLoop 1 (clock api) highPriority (requestTimestamps api)
    = Some (Sleeping highPriority wakeAt,
            cleanExpiredTimestamps (clock api) (requestTimestamps api))
    /\ clock api + 100 < wakeAt <= clock api + 60100.
Proof.
  intros Hrun Hno.
  assert (Hinv : timestampsOrdered api).
  { eapply (apiRun_invariant timestampsOrdered timestampsOrdered_step);
      [|exact Hrun].
    split; cbn; constructor. }
  destruct Hinv as [_ Hb].
  destruct (requestLoop_total 0 (clock api) highPriority
              (requestTimestamps api)) as (c & ts' & Hloop).
  pose proof (requestLoop_spec _ _ _ _ _ _ Hloop) as Hspec.
  cbv zeta in Hspec. unfold canMakeRequest in Hno. cbn [fst] in Hno.
  apply bool_decide_eq_false in Hno.
  destruct Hspec as [(_ & _ & Hlt) | (oldest & Hh & -> & -> & _)];
    [contradiction|].
  exists (oldest + 60000 + 100). split; [exact Hloop|].
  assert (Hin : In oldest (cleanExpiredTimestamps (clock api)
                             (requestTimestamps api))).
  { destruct (cleanExpiredTimestamps (clock api) (requestTimestamps api));
      [discriminate|].
    cbn in Hh. inversion Hh. left. reflexivity. }
  apply cleanExpiredTimestamps_In in Hin. destruct Hin as [Hin Hfresh].
  rewrite Forall_forall in Hb.
  assert (oldest <= clock api) by (apply Hb; apply list_elem_of_In; exact Hin).
  lia.
Qed.

(** Eight low-priority requests were sent at instant 1000; a ninth call
    at the same instant sleeps until 61100. *)
Lemma refused_call_sleeps_at_most_a_minute_witness :
  exists api wakeAt,
    apiRun 1 (repeat (Call false) 8) (newAPI (Some "k") 1000) = Some api
    /\ (canMakeRequest (clock api) false (requestTimestamps api)).1 = false
    /\ requestLoop 1 (clock api) false (requestTimestamps api)
       = Some (Sleeping false wakeAt,
               cleanExpiredTimestamps (clock api) (requestTimestamps api))
    /\ clock api + 100 < wakeAt <= clock api + 60100.
Proof.
  destruct (apiRun 1 (repeat (Call false) 8) (newAPI (Some "k") 1000))
    as [api|] eqn:E; [|vm_compute in E; discriminate].
  assert (Hno : (canMakeRequest (clock api) false
                   (requestTimestamps api)).1 = false).
  { vm_compute in E. inversion E; subst. vm_compute. reflexivity. }
  destruct (refused_call_sleeps_at_most_a_minute 1 _ _ _ api false E Hno)
    as (wakeAt & Hloop & Hbound).
  exists api, wakeAt. auto.
Defined.

Lemma sentCount_app (l1 l2 : list Caller) :
  sentCount (l1 ++ l2) = (sentCount l1 + sentCount l2)%nat.
Proof. unfold sentCount. rewrite List.filter_app, length_app. reflexivity. Qed.

Lemma sentCount_sends (c : Caller) :
  (c = Rejected \/ (exists hp w, c = Sleeping hp w)
   \/ exists hp t, c = Fetching hp t) ->
  sentCount [c] = length (sends c).
Proof. intros [->|[(hp & w & ->)|(hp & t & ->)]]; reflexivity. Qed.

Lemma sentCount_insert (l : list Caller) (i : nat) (c0 c : Caller) :
  l !! i = Some c0 ->
  (sentCount (<[i := c]> l) + (if hasSent c0 then 1 else 0)
   = sentCount l + (if hasSent c then 1 else 0))%nat.
Proof.
  revert i. induction l as [|x l IH]; intros i Hi; [discriminate|].
  destruct i as [|i]; cbn in Hi.
  - inversion Hi; subst. unfold sentCount.
    change (<[0%nat := c]> (c0 :: l)) with (c :: l). cbn [List.filter].
    destruct (hasSent c0); destruct (hasSent c); cbn [length]; lia.
  - specialize (IH i Hi). unfold sentCount in *.
    change (<[S i := c]> (x :: l)) with (x :: <[i := c]> l).
    cbn [List.filter]. destruct (hasSent x); cbn [length]; lia.
Qed.

Lemma requestLoop_caller fuel now hp ts c ts' :
  requestLoop fuel now hp ts = Some (c, ts') ->
  (exists w, c = Sleeping hp w) \/ c = Fetching hp now.
Proof.
  intros H. apply requestLoop_spec in H. cbv zeta in H.
  destruct H as [(-> & _) | (oldest & _ & -> & _)]; eauto.
Qed.

Lemma sentCount_step fuel s api api' :
  sentCount (callers api) = length (transmitted api) ->
  apiStep fuel s api = Some api' ->
  sentCount (callers api') = length (transmitted api').
Proof.
  intros Hinv. destruct s as [hp|i|i ok|ms|key]; simpl.
  - unfold request. destruct (configured (apiKey api)); cbn [negb].
    + destruct (requestLoop fuel (clock api) hp (requestTimestamps api))
        as [[c ts]|] eqn:El; [|discriminate].
      intros H. inversion H; subst. cbn [callers transmitted].
      rewrite sentCount_app, length_app, Hinv. f_equal.
      apply sentCount_sends. apply requestLoop_caller in El.
      destruct El as [[w ->]| ->]; eauto 6.
    + intros H. inversion H; subst. cbn [callers transmitted].
      rewrite sentCount_app, Hinv. unfold sentCount. cbn. lia.
  - unfold wake. destruct (callers api !! i) as [[|hp w|? ?|? ?|? ?]|] eqn:Ei;
      try (intros H; inversion H; subst; exact Hinv).
    destruct (bool_decide (w <= clock api));
      [|intros H; inversion H; subst; exact Hinv].
    destruct (requestLoop fuel (clock api) hp _) as [[c ts]|] eqn:El;
      [|discriminate].
    intros H. inversion H; subst. cbn [callers transmitted].
    pose proof (sentCount_insert _ _ _ c Ei) as Hins.
    rewrite length_app, <- Hinv.
    apply requestLoop_caller in El.
    destruct El as [[w' ->]| ->]; cbn [hasSent sends length] in *; lia.
  - intros H. inversion H; subst. unfold settle.
    destruct (callers api !! i) as [[|? ?|hp t|? ?|? ?]|] eqn:Ei;
      try exact Hinv.
    cbn [callers transmitted].
    pose proof (sentCount_insert _ _ _
                  (if ok then Returned hp t else Threw hp t) Ei) as Hins.
    destruct ok; cbn [hasSent] in Hins; lia.
  - intros H. inversion H; subst. exact Hinv.
  - intros H. inversion H; subst. exact Hinv.
Qed.

Lemma callers_step fuel s api api' :
  apiStep fuel s api = Some api' ->
  length (callers api')
  = (length (callers api) + if isCall s then 1 else 0)%nat.
Proof.
  destruct s as [hp|i|i ok|ms|key]; simpl.
  - unfold request. destruct (configured (apiKey api)); cbn [negb].
    + destruct (requestLoop _ _ _ _) as [[c ts]|]; [|discriminate].
      intros H. inversion H; subst. cbn. rewrite length_app. reflexivity.
    + intros H. inversion H; subst. cbn. rewrite length_app. reflexivity.
  - unfold wake. destruct (callers api !! i) as [[|hp w|? ?|? ?|? ?]|];
      try (intros H; inversion H; subst; lia).
    destruct (bool_decide (w <= clock api));
      [|intros H; inversion H; subst; lia].
    destruct (requestLoop _ _ _ _) as [[c ts]|]; [|discriminate].
    intros H. inversion H; subst. cbn. rewrite length_insert. lia.
  - intros H. inversion H; subst. unfold settle.
    destruct (callers api !! i) as [[|? ?|? ?|? ?|? ?]|]; cbn;
      rewrite ?length_insert; lia.
  - intros H. inversion H; subst. cbn. lia.
  - intros H. inversion H; subst. cbn. lia.
Qed.

Lemma callers_run fuel steps api api' :
  apiRun fuel steps api = Some api' ->
  length (callers api')
  = (length (callers api) + length (List.filter isCall steps))%nat.
Proof.
  revert api. induction steps as [|s rest IH]; intros api; simpl.
  - intros H. inversion H; subst. lia.
  - destruct (apiStep fuel s api) as [api1|] eqn:E; [|discriminate].
    intros H. apply IH in H. apply callers_step in E.
    destruct (isCall s); cbn [length] in *; lia.
Qed.

Lemma keyless_step fuel s api api' :
  setsKey s = false -> keyless api -> apiStep fuel s api = Some api' ->
  keyless api'.
Proof.
  intros Hs (Hk & Ht & Hr & Hc).
  assert (Hrej : forall i c, callers api !! i = Some c -> c = Rejected).
  { intros i c Hi. rewrite Forall_forall in Hc. apply Hc.
    eapply list_elem_of_lookup_2. exact Hi. }
  destruct s as [hp|i|i ok|ms|key]; simpl; try discriminate.
  - unfold request. rewrite Hk. cbn [negb]. intros H. inversion H; subst.
    unfold keyless. cbn [apiKey transmitted requestTimestamps callers].
    repeat split; auto.
    apply Forall_app. split; [exact Hc|].
    apply Forall_cons. split; [reflexivity | apply Forall_nil_2].
  - unfold wake. destruct (callers api !! i) as [c|] eqn:Ei.
    + rewrite (Hrej i c Ei). intros H. inversion H; subst.
      repeat split; assumption.
    + intros H. inversion H; subst. repeat split; assumption.
  - unfold settle. destruct (callers api !! i) as [c|] eqn:Ei.
    + rewrite (Hrej i c Ei). intros H. inversion H; subst.
      repeat split; assumption.
    + intros H. inversion H; subst. repeat split; assumption.
  - intros H. inversion H; subst. unfold keyless. cbn.
    repeat split; assumption.
Qed.

Lemma keyless_run fuel steps api api' :
  keyless api -> existsb setsKey steps = false ->
  apiRun fuel steps api = Some api' -> keyless api'.
Proof.
  revert api. induction steps as [|s rest IH]; intros api Hp Hs; simpl.
  - intros H. inversion H; subst. exact Hp.
  - cbn [existsb] in Hs. apply orb_false_iff in Hs. destruct Hs as [Hs1 Hs2].
    destruct (apiStep fuel s api) as [api1|] eqn:E; [|discriminate].
    apply IH; [|exact Hs2]. eapply keyless_step; eauto.
Qed.

(** X18.  Over any run of the rate limiter: every call of [request]
    hands at most one request to [fetch] (the requests sent are exactly
    the calls that got past the gate), and while no API key is
    configured (the key is missing or the empty string) every call is
    rejected before the gate, so nothing is sent and no timestamp is
    recorded. *)
Theorem one_fetch_per_call (fuel : nat) (steps : list ApiStep)
    (key : option string) (start : Z) (api : FootballAPI) :
  apiRun fuel steps (newAPI key start) = Some api ->
  length (transmitted api) = sentCount (callers api)
  /\ length (callers api) = length (List.filter isCall steps)
  /\ (length (transmitted api) <= length (List.filter isCall steps))%nat
  /\ (configured key = false -> existsb setsKey steps = false ->
      transmitted api = [] /\ requestTimestamps api = []
      /\ Forall (fun c => c = Rejected) (callers api)).
Proof.
  intros Hrun.
  assert (H1 : sentCount (callers api) = length (transmitted api)).
  { eapply (apiRun_invariant
              (fun a => sentCount (callers a) = length (transmitted a))
              sentCount_step); [|exact Hrun]. reflexivity. }
  pose proof (callers_run _ _ _ _ Hrun) as H2. cbn in H2.
  split; [symmetry; exact H1|]. split; [exact H2|]. split.
  - rewrite <- H2, <- H1. unfold sentCount. apply filter_length_le.
  - intros Hk Hs.
    destruct (keyless_run fuel steps (newAPI key start) api)
      as (_ & Ht & Hr & Hc); auto.
    unfold keyless, newAPI. cbn [apiKey transmitted requestTimestamps callers].
    repeat split; auto.
Qed.

Lemma one_fetch_per_call_witness :
  exists api,
    apiRun 1 [Call false; Call true] (newAPI None 1000) = Some api
    /\ transmitted api = [].
Proof.
  destruct (apiRun 1 [Call false; Call true] (newAPI None 1000))
    as [api|] eqn:E; [|vm_compute in E; discriminate].
  exists api. split; [reflexivity|].
  destruct (one_fetch_per_call 1 _ _ _ api E) as (_ & _ & _ & H).
  apply H; reflexivity.
Defined.

(** ** The next fixture *)

Lemma insertByKickoff_head (x : Match) (l : list Match) :
  head (insertByKickoff x l)
  = match head l with
    | None => Some x
    | Some y => if bool_decide (compareKickoff x y <= 0) then Some x
                else Some y
    end.
Proof.
  destruct l as [|y rest]; cbn; [reflexivity|].
  destruct (bool_decide (compareKickoff x y <= 0)); reflexivity.
Qed.

Lemma insertByKickoff_In (x : Match) (l : list Match) (m : Match) :
  In m (insertByKickoff x l) <-> m = x \/ In m l.
Proof.
  induction l as [|y rest IH]; cbn.
  - intuition auto.
  - destruct (bool_decide (compareKickoff x y <= 0)); cbn.
    + intuition auto.
    + rewrite IH. intuition auto.
Qed.

Lemma sortByKickoff_In (l : list Match) (m : Match) :
  In m (sortByKickoff l) <-> In m l.
Proof.
  induction l as [|x rest IH]; cbn; [reflexivity|].
  rewrite insertByKickoff_In, IH. intuition auto.
Qed.

(** The first element of the sorted list, for dates that all parse. *)
Lemma sortByKickoff_head (l : list Match) (kick : Match -> Z) :
  (forall m, In m l -> match_utcDate m = Some (kick m)) ->
  match head (sortByKickoff l) with
  | None => l = []
  | Some m =>
      exists before after,
        l = before ++ m :: after
        /\ (forall m', In m' before -> kick m < kick m')
        /\ (forall m', In m' after -> kick m <= kick m')
  end.
Proof.
  induction l as [|x rest IH]; intros Hd; [reflexivity|].
  change (sortByKickoff (x :: rest))
    with (insertByKickoff x (sortByKickoff rest)).
  rewrite insertByKickoff_head.
  assert (Hrest : forall m, In m rest -> match_utcDate m = Some (kick m)).
  { intros m Hm. apply Hd. right. exact Hm. }
  specialize (IH Hrest).
  destruct (head (sortByKickoff rest)) as [y|] eqn:Eh.
  - destruct IH as (before & after & Hl & Hb & Ha).
    assert (Hy : In y rest).
    { rewrite Hl. apply in_or_app. right. left. reflexivity. }
    unfold compareKickoff.
    rewrite (Hd x (or_introl eq_refl)), (Hrest y Hy).
    case_bool_decide as Hle.
    + exists [], rest. split; [reflexivity|]. split; [intros m' []|].
      intros m' Hm'. rewrite Hl in Hm'. apply in_app_or in Hm'.
      destruct Hm' as [Hm'|[<-|Hm']].
      * specialize (Hb m' Hm'). lia.
      * lia.
      * specialize (Ha m' Hm'). lia.
    + exists (x :: before), after. split; [rewrite Hl; reflexivity|].
      split; [|exact Ha].
      intros m' [<-|Hm']; [lia | apply Hb; exact Hm'].
  - subst rest. exists [], []. split; [reflexivity|].
    split; intros m' [].
Qed.

(** X19.  [getTeamNextMatch] answers null exactly when the API returned
    no match; when every returned kickoff date parses, it answers a
    returned match with the earliest kickoff, and among several with
    that kickoff the one the API listed first. *)
Theorem getTeamNextMatch_earliest (matches : list Match)
    (kick : Match -> Z) :
  (forall m, In m matches -> match_utcDate m = Some (kick m)) ->
  (getTeamNextMatch matches = None <-> matches = [])
  /\ (forall m, getTeamNextMatch matches = Some m ->
        exists before after,
          matches = before ++ m :: after
          /\ (forall m', In m' before -> kick m < kick m')
          /\ (forall m', In m' after -> kick m <= kick m')).
Proof.
  intros Hd. unfold getTeamNextMatch.
  pose proof (sortByKickoff_head matches kick Hd) as H.
  destruct (head (sortByKickoff matches)) as [m|] eqn:E.
  - split.
    + split; [discriminate|]. intros ->. cbn in E. discriminate.
    + intros m' Hm'. inversion Hm'; subst. exact H.
  - split; [tauto | discriminate].
Qed.

Lemma getTeamNextMatch_earliest_witness :
  getTeamNextMatch [laterFixture; soonerFixture] = Some soonerFixture
  /\ exists before after,
       [laterFixture; soonerFixture] = before ++ soonerFixture :: after
       /\ (forall m', In m' before ->
             default 0 (match_utcDate soonerFixture)
             < default 0 (match_utcDate m')).
Proof.
  assert (Hd : forall m, In m [laterFixture; soonerFixture] ->
                 match_utcDate m = Some (default 0 (match_utcDate m))).
  { intros m [<-|[<-|[]]]; reflexivity. }
  assert (He : getTeamNextMatch [laterFixture; soonerFixture]
               = Some soonerFixture) by (vm_compute; reflexivity).
  split; [exact He|].
  destruct (getTeamNextMatch_earliest _ _ Hd) as [_ H].
  destruct (H soonerFixture He) as (before & after & Hl & Hb & _).
  exists before, after. auto.
Defined.

(** ** The device's conditions *)

(** X20.  For the device of a team, whatever the cache lookups answer:
    when no match of the team is cached, or the match found is neither
    live in the cache nor within 120 minutes after its kickoff, none of
    [isWinning], [isLosing], [isDrawing] holds; otherwise exactly one
    of them holds. *)
Theorem device_conditions_exclusive (cached today : option MatchState)
    (now teamId : Z) :
  let w := isWinning cached today now teamId in
  let l := isLosing cached today now teamId in
  let d := isDrawing cached today now teamId in
  (w && l = false) /\ (w && d = false) /\ (l && d = false)
  /\ (forall m, matchToday cached today = Some m ->
        isLive cached m now = true -> w || l || d = true)
  /\ (matchToday cached today = None -> w || l || d = false)
  /\ (forall m, matchToday cached today = Some m ->
        isLive cached m now = false -> w || l || d = false).
Proof.
  cbv zeta. unfold isWinning, isLosing, isDrawing.
  destruct (matchToday cached today) as [m|].
  - destruct (isLive cached m now) eqn:El; cbn [negb].
    + repeat split; try discriminate;
        try (intros m' Hm' El'; inversion Hm'; subst m'; try congruence);
        repeat case_bool_decide; cbn; try reflexivity; lia.
    + repeat split; try discriminate; try reflexivity.
      intros m' Hm' El'. inversion Hm'; subst m'. congruence.
  - repeat split; try discriminate; reflexivity.
Qed.

Lemma device_conditions_exclusive_witness :
  isWinning (Some (createMatchState (match1 "IN_PLAY" 3000000 2 1) None))
    None 3600000 57
  || isLosing (Some (createMatchState (match1 "IN_PLAY" 3000000 2 1) None))
       None 3600000 57
  || isDrawing (Some (createMatchState (match1 "IN_PLAY" 3000000 2 1) None))
       None 3600000 57 = true.
Proof.
  destruct (device_conditions_exclusive
              (Some (createMatchState (match1 "IN_PLAY" 3000000 2 1) None))
              None 3600000 57) as (_ & _ & _ & H & _).
  apply (H (createMatchState (match1 "IN_PLAY" 3000000 2 1) None));
    reflexivity.
Defined.

(** ** Result cards of the device *)

(** X21.  When the two sides of a match have different ids, a result
    event of [emitMatchResult] is handled only by the device of the team
    it names, and the tokens agree with the card: [team_won] carries
    [team_goals > opponent_goals], [team_lost] carries
    [team_goals < opponent_goals]. *)
Theorem result_cards_agree tt (m : Match) (e : Event) (teamId : Z)
    (card : string) (tok : ResultTokens) :
  team_id (homeTeam m) <> team_id (awayTeam m) ->
  In e (emitMatchResult tt m) ->
  (ev_name e = TEAM_WON -> onTeamWon teamId e = Some (card, tok) ->
     teamId = ev_teamId e /\ card = "team_won"
     /\ team_goals tok > opponent_goals tok)
  /\ (ev_name e = TEAM_LOST -> onTeamLost teamId e = Some (card, tok) ->
        teamId = ev_teamId e /\ card = "team_lost"
        /\ team_goals tok < opponent_goals tok).
Proof.
  intros Hdiff Hin.
  assert (Hone : forall n t,
            In e (emitForTeam tt t n m OnlyMatch) ->
            e = mkEvent n t m OnlyMatch).
  { intros n t. unfold emitForTeam. case_bool_decide; cbn.
    - intros [<-|[]]. reflexivity.
    - intros []. }
  unfold emitMatchResult in Hin.
  unfold onTeamWon, onTeamLost, isMyEvent, resultTokens, getOpponentInfo.
  destruct (bool_decide (orZero (match_home m) > orZero (match_away m)))
    eqn:E1.
  - apply bool_decide_eq_true in E1. apply in_app_or in Hin.
    destruct Hin as [Hin|Hin]; apply Hone in Hin; subst e; cbn;
      (split; [intros Hn|intros Hn]; try discriminate);
      repeat case_bool_decide; cbn; try discriminate;
      intros Heq; inversion Heq; subst; cbn;
      try (repeat split; try reflexivity; try congruence; lia).
  - apply bool_decide_eq_false in E1.
    destruct (bool_decide (orZero (match_away m) > orZero (match_home m)))
      eqn:E2.
    + apply bool_decide_eq_true in E2. apply in_app_or in Hin.
      destruct Hin as [Hin|Hin]; apply Hone in Hin; subst e; cbn;
        (split; [intros Hn|intros Hn]; try discriminate);
        repeat case_bool_decide; cbn; try discriminate;
        intros Heq; inversion Heq; subst; cbn;
        try (repeat split; try reflexivity; try congruence; lia).
    + unfold emitForTeams in Hin. cbn [flat_map] in Hin.
      rewrite app_nil_r in Hin. apply in_app_or in Hin.
      destruct Hin as [Hin|Hin]; apply Hone in Hin; subst e; cbn;
        split; intros Hn; discriminate.
Qed.

Lemma result_cards_agree_witness :
  team_goals (resultTokens 61 (match1 "FINISHED" 0 2 3))
  > opponent_goals (resultTokens 61 (match1 "FINISHED" 0 2 3)).
Proof.
  assert (Hdiff : team_id (homeTeam (match1 "FINISHED" 0 2 3))
                  <> team_id (awayTeam (match1 "FINISHED" 0 2 3)))
    by (cbn; lia).
  assert (Hin : In (mkEvent TEAM_WON 61 (match1 "FINISHED" 0 2 3) OnlyMatch)
                  (emitMatchResult bothTracked (match1 "FINISHED" 0 2 3)))
    by (vm_compute; auto).
  destruct (result_cards_agree bothTracked _ _ 61 "team_won"
              (resultTokens 61 (match1 "FINISHED" 0 2 3)) Hdiff Hin)
    as [Hw _].
  apply Hw; reflexivity.
Defined.

(** ** The team cache *)

Lemma cacheTeams_cons c t ts cache :
  cacheTeams c (t :: ts) cache
  = cacheTeams c ts (<[api_id t := cacheEntry c t]> cache).
Proof. reflexivity. Qed.

Lemma cacheTeams_app c ts1 ts2 cache :
  cacheTeams c (ts1 ++ ts2) cache
  = cacheTeams c ts2 (cacheTeams c ts1 cache).
Proof. unfold cacheTeams. apply foldl_app. Qed.

Lemma cacheTeams_other c ts cache (id : Z) :
  (forall t, In t ts -> api_id t <> id) ->
  cacheTeams c ts cache !! id = cache !! id.
Proof.
  revert cache. induction ts as [|t ts IH]; intros cache H; [reflexivity|].
  rewrite cacheTeams_cons, IH.
  - apply lookup_insert_ne. apply H. left. reflexivity.
  - intros t' Ht'. apply H. right. exact Ht'.
Qed.

Lemma cacheTeams_last c ts1 t ts2 cache :
  (forall t', In t' ts2 -> api_id t' <> api_id t) ->
  cacheTeams c (ts1 ++ t :: ts2) cache !! api_id t = Some (cacheEntry c t).
Proof.
  intros H. rewrite cacheTeams_app, cacheTeams_cons, cacheTeams_other
    by exact H.
  apply lookup_insert_eq.
Qed.

Lemma cacheTeams_sound c ts cache (id : Z) (info : CachedTeam) :
  cacheTeams c ts cache !! id = Some info ->
  cache !! id = Some info
  \/ exists t, In t ts /\ api_id t = id /\ info = cacheEntry c t.
Proof.
  revert cache. induction ts as [|t ts IH]; intros cache H; [left; exact H|].
  rewrite cacheTeams_cons in H. apply IH in H.
  destruct H as [H|(t' & Hin & Hid & Hi)].
  - destruct (decide (api_id t = id)) as [E|E].
    + subst id. rewrite lookup_insert_eq in H. inversion H.
      right. exists t. split; [left; reflexivity|]. auto.
    + rewrite lookup_insert_ne in H by exact E. left. exact H.
  - right. exists t'. split; [right; exact Hin|]. auto.
Qed.

Lemma cacheTeams_complete c ts cache (id : Z) :
  is_Some (cache !! id) \/ (exists t, In t ts /\ api_id t = id) ->
  is_Some (cacheTeams c ts cache !! id).
Proof.
  revert cache. induction ts as [|t ts IH]; intros cache H.
  - destruct H as [H|(t & [] & _)]. exact H.
  - rewrite cacheTeams_cons. apply IH.
    destruct (decide (api_id t = id)) as [E|E].
    + left. subst id. rewrite lookup_insert_eq. eauto.
    + destruct H as [H|(t' & [<-|Hin] & Hid)].
      * left. rewrite lookup_insert_ne by exact E. exact H.
      * contradiction.
      * right. exists t'. auto.
Qed.

Lemma requestsFor_app key l1 l2 :
  requestsFor key (l1 ++ l2) = requestsFor key l1 ++ requestsFor key l2.
Proof.
  unfold requestsFor. destruct (configured key); [apply map_app | reflexivity].
Qed.

(** One turn of the loop. *)
Lemma loadCompetitions_step key answer c rest cache fetched :
  loadCompetitions key answer (c :: rest) cache fetched
  = if rateLimited key answer c
    then (cache, fetched ++ requestsFor key [c])
    else loadCompetitions key answer rest
           (cacheTeams c (teamsOf key answer c) cache)
           (fetched ++ requestsFor key [c]).
Proof.
  unfold rateLimited, thrown, teamsOf. cbn [loadCompetitions].
  unfold getCompetitionTeams, requestsFor.
  destruct (configured key); cbn.
  - destruct (responseJson (answer (comp_code c))) as [message|teams]; cbn.
    + destruct (stringIncludes message "Rate limit"); reflexivity.
    + reflexivity.
  - reflexivity.
Qed.

Lemma teamsOf_rateLimited key answer c :
  rateLimited key answer c = true -> teamsOf key answer c = [].
Proof.
  unfold rateLimited, thrown, teamsOf.
  destruct (fst (getCompetitionTeams key answer (comp_code c)));
    [reflexivity | discriminate].
Qed.

Lemma teamsOf_key key answer c :
  teamsOf key answer c <> [] -> configured key = true.
Proof.
  unfold teamsOf, getCompetitionTeams.
  destruct (configured key); cbn; [reflexivity|].
  intros H. contradiction.
Qed.

Lemma rateLimited_key key answer c :
  rateLimited key answer c = true -> configured key = true.
Proof.
  unfold rateLimited, thrown, getCompetitionTeams.
  destruct (configured key); cbn; [reflexivity | discriminate].
Qed.

(** The loop only appends to the list of requests. *)
Lemma loadCompetitions_fetched key answer comps cache fetched :
  exists more,
    snd (loadCompetitions key answer comps cache fetched) = fetched ++ more.
Proof.
  revert cache fetched.
  induction comps as [|c rest IH]; intros cache fetched.
  - exists []. cbn. rewrite app_nil_r. reflexivity.
  - rewrite loadCompetitions_step.
    destruct (rateLimited key answer c).
    + eexists. reflexivity.
    + destruct (IH (cacheTeams c (teamsOf key answer c) cache)
                  (fetched ++ requestsFor key [c])) as [more Hm].
      exists (requestsFor key [c] ++ more). rewrite Hm.
      rewrite app_assoc. reflexivity.
Qed.

Lemma loadCompetitions_through key answer l1 l2 cache fetched :
  (forall c, In c l1 -> rateLimited key answer c = false) ->
  loadCompetitions key answer (l1 ++ l2) cache fetched
  = loadCompetitions key answer l2 (cacheAll key answer l1 cache)
      (fetched ++ requestsFor key l1).
Proof.
  revert cache fetched.
  induction l1 as [|c l1 IH]; intros cache fetched H.
  - cbn [app]. unfold requestsFor, cacheAll.
    destruct (configured key); cbn; rewrite app_nil_r; reflexivity.
  - cbn [app]. rewrite loadCompetitions_step.
    rewrite (H c (or_introl eq_refl)).
    rewrite IH by (intros c' Hc'; apply H; right; exact Hc').
    change (c :: l1) with ([c] ++ l1).
    rewrite requestsFor_app, app_assoc. reflexivity.
Qed.

Lemma loadCompetitions_other key answer comps cache fetched (id : Z) :
  (forall c t, In c comps -> In t (teamsOf key answer c) ->
     api_id t <> id) ->
  fst (loadCompetitions key answer comps cache fetched) !! id = cache !! id.
Proof.
  revert cache fetched.
  induction comps as [|c rest IH]; intros cache fetched H; [reflexivity|].
  rewrite loadCompetitions_step.
  destruct (rateLimited key answer c); [reflexivity|].
  rewrite IH by (intros c' t Hc'; apply H; right; exact Hc').
  apply cacheTeams_other. intros t Ht. apply (H c t); [left|]; auto.
Qed.

Lemma cacheAll_other key answer comps cache (id : Z) :
  (forall c t, In c comps -> In t (teamsOf key answer c) ->
     api_id t <> id) ->
  cacheAll key answer comps cache !! id = cache !! id.
Proof.
  revert cache. induction comps as [|c rest IH]; intros cache H;
    [reflexivity|].
  change (cacheAll key answer (c :: rest) cache)
    with (cacheAll key answer rest
            (cacheTeams c (teamsOf key answer c) cache)).
  rewrite IH by (intros c' t Hc'; apply H; right; exact Hc').
  apply cacheTeams_other. intros t Ht. apply (H c t); [left|]; auto.
Qed.

Lemma loadCompetitions_sound key answer comps cache fetched (id : Z)
    (info : CachedTeam) :
  fst (loadCompetitions key answer comps cache fetched) !! id = Some info ->
  cache !! id = Some info
  \/ exists c t,
       In c comps /\ In t (teamsOf key answer c) /\ api_id t = id
       /\ info = cacheEntry c t
       /\ In (comp_code c)
            (snd (loadCompetitions key answer comps cache fetched)).
Proof.
  revert cache fetched.
  induction comps as [|c rest IH]; intros cache fetched H; [left; exact H|].
  rewrite loadCompetitions_step in H |- *.
  destruct (rateLimited key answer c) eqn:Er; [left; exact H|].
  apply IH in H. destruct H as [H|(c' & t & Hc' & Ht & Hid & Hi & Hf)].
  - apply cacheTeams_sound in H.
    destruct H as [H|(t & Ht & Hid & Hi)]; [left; exact H|].
    right. exists c, t. split; [left; reflexivity|].
    repeat (split; [assumption|]).
    destruct (loadCompetitions_fetched key answer rest
                (cacheTeams c (teamsOf key answer c) cache)
                (fetched ++ requestsFor key [c])) as [more ->].
    assert (Hk : configured key = true).
    { apply (teamsOf_key key answer c). intros E. rewrite E in Ht.
      destruct Ht. }
    unfold requestsFor. rewrite Hk. cbn [map].
    apply in_or_app. left. apply in_or_app. right. left. reflexivity.
  - right. exists c', t. split; [right; exact Hc'|]. auto.
Qed.

Lemma loadCompetitions_complete key answer comps cache fetched (id : Z) :
  (forall c, In c comps -> rateLimited key answer c = false) ->
  is_Some (cache !! id)
  \/ (exists c t, In c comps /\ In t (teamsOf key answer c)
                  /\ api_id t = id) ->
  is_Some (fst (loadCompetitions key answer comps cache fetched) !! id).
Proof.
  revert cache fetched.
  induction comps as [|c rest IH]; intros cache fetched Hr H.
  - destruct H as [H|(c & t & [] & _)]. exact H.
  - rewrite loadCompetitions_step, (Hr c (or_introl eq_refl)).
    apply IH; [intros c' Hc'; apply Hr; right; exact Hc'|].
    destruct H as [H|(c' & t & [<-|Hc'] & Ht & Hid)].
    + left. apply cacheTeams_complete. left. exact H.
    + left. apply cacheTeams_complete. right. exists t. auto.
    + right. exists c', t. auto.
Qed.

Lemma loadCompetitions_unconfigured key answer comps cache fetched :
  configured key = false ->
  loadCompetitions key answer comps cache fetched = (cache, fetched).
Proof.
  intros Hk. revert cache fetched.
  induction comps as [|c rest IH]; intros cache fetched; [reflexivity|].
  rewrite loadCompetitions_step.
  destruct (rateLimited key answer c) eqn:Er.
  - apply rateLimited_key in Er. congruence.
  - destruct (teamsOf key answer c) as [|t ts] eqn:Et.
    + unfold requestsFor. rewrite Hk, app_nil_r. apply IH.
    + assert (H : configured key = true)
        by (apply (teamsOf_key key answer c); rewrite Et; discriminate).
      congruence.
Qed.

(** X22.  Every entry of the team cache a load builds was listed, under
    the key it is stored at, in the answer to a request the load made for
    one of the free-tier competitions, and names that competition. *)
Theorem team_cache_entries_from_answers key answer (finished : Z)
    (id : Z) (info : CachedTeam) :
  let '(_, cache, fetched) := doLoadTeamCache key answer finished in
  cache !! id = Some info ->
  exists competition team,
    In competition FREE_TIER_COMPETITIONS
    /\ In (comp_code competition) fetched
    /\ In team (teamsOf key answer competition)
    /\ api_id team = id
    /\ info = cacheEntry competition team.
Proof.
  unfold doLoadTeamCache.
  destruct (loadCompetitions key answer FREE_TIER_COMPETITIONS ∅ [])
    as [cache fetched] eqn:E.
  intros H.
  pose proof (loadCompetitions_sound key answer FREE_TIER_COMPETITIONS
                ∅ [] id info) as Hs.
  rewrite E in Hs. cbn [fst snd] in Hs.
  destruct (Hs H) as [He|(c & t & Hc & Ht & Hid & Hi & Hf)].
  - rewrite lookup_empty in He. discriminate.
  - exists c, t. auto.
Qed.

Lemma team_cache_entries_from_answers_witness :
  exists competition team,
    In competition FREE_TIER_COMPETITIONS
    /\ In (comp_code competition)
         (snd (loadCompetitions (Some "key") sampleAnswer
                 FREE_TIER_COMPETITIONS ∅ []))
    /\ In team (teamsOf (Some "key") sampleAnswer competition)
    /\ api_id team = 57
    /\ cacheEntry (mkCompetition "CL" "Champions League" "Europe")
         arsenalApi
       = cacheEntry competition team.
Proof.
  pose proof (team_cache_entries_from_answers (Some "key") sampleAnswer 0
                57 (cacheEntry
                      (mkCompetition "CL" "Champions League" "Europe")
                      arsenalApi)) as H.
  unfold doLoadTeamCache in H.
  destruct (loadCompetitions (Some "key") sampleAnswer
              FREE_TIER_COMPETITIONS ∅ []) as [cache fetched] eqn:E.
  cbn [snd]. apply H.
  apply (f_equal fst) in E. cbn [fst] in E. rewrite <- E.
  vm_compute. reflexivity.
Defined.

(** X23.  A team listed by several competitions is cached under the last
    one, in the order of FREE_TIER_COMPETITIONS, that the load reaches:
    if no request up to and including that of [c] throws a message
    containing "Rate limit", [t] is the last team with its id in the
    answer for [c], and no later answer lists that id, the cache maps
    the id to [t] with the name and code of [c]. *)
Theorem team_cache_last_competition_wins key answer (finished : Z)
    (before after : list Competition) (c : Competition)
    (ts1 ts2 : list ApiTeam) (t : ApiTeam) :
  FREE_TIER_COMPETITIONS = before ++ c :: after ->
  (forall c', In c' before -> rateLimited key answer c' = false) ->
  teamsOf key answer c = ts1 ++ t :: ts2 ->
  (forall t', In t' ts2 -> api_id t' <> api_id t) ->
  (forall c' t', In c' after -> In t' (teamsOf key answer c') ->
     api_id t' <> api_id t) ->
  let '(_, cache, _) := doLoadTeamCache key answer finished in
  cache !! api_id t = Some (cacheEntry c t).
Proof.
  intros Hsplit Hbefore Hteams Hlast Hafter.
  unfold doLoadTeamCache. rewrite Hsplit.
  destruct (loadCompetitions key answer (before ++ c :: after) ∅ [])
    as [cache fetched] eqn:E.
  rewrite loadCompetitions_through in E by exact Hbefore.
  rewrite loadCompetitions_step in E.
  assert (Hr : rateLimited key answer c = false).
  { destruct (rateLimited key answer c) eqn:Er; [|reflexivity].
    apply teamsOf_rateLimited in Er. rewrite Er in Hteams.
    destruct ts1; discriminate. }
  rewrite Hr in E.
  pose proof (loadCompetitions_other key answer after
                (cacheTeams c (teamsOf key answer c)
                   (cacheAll key answer before ∅))
                (([] ++ requestsFor key before) ++ requestsFor key [c])
                (api_id t) Hafter) as Ho.
  rewrite E in Ho. cbn [fst] in Ho. rewrite Ho, Hteams.
  apply cacheTeams_last. exact Hlast.
Qed.

Lemma team_cache_last_competition_wins_witness :
  fst (loadCompetitions (Some "key") sampleAnswer FREE_TIER_COMPETITIONS
         ∅ []) !! 57
  = Some (mkCachedTeam 57 "Arsenal FC" (Some "Arsenal") (Some "ARS") None
            "Champions League" "CL").
Proof.
  pose proof (team_cache_last_competition_wins (Some "key") sampleAnswer 0
                (firstn 8 FREE_TIER_COMPETITIONS)
                (skipn 9 FREE_TIER_COMPETITIONS)
                (mkCompetition "CL" "Champions League" "Europe")
                [] [] arsenalApi eq_refl) as H.
  unfold doLoadTeamCache in H.
  destruct (loadCompetitions (Some "key") sampleAnswer
              FREE_TIER_COMPETITIONS ∅ []) as [cache fetched].
  cbn [fst]. apply H.
  - intros c' Hc'. cbn in Hc'.
    repeat (destruct Hc' as [<-|Hc']; [reflexivity|]). destruct Hc'.
  - reflexivity.
  - intros t' [].
  - intros c' t' Hc'. cbn in Hc'.
    repeat (destruct Hc' as [<-|Hc']; [intros []|]). destruct Hc'.
Defined.

(** X24.  The first request that throws a message containing
    "Rate limit" ends the load: the competitions after it are not
    requested and the cache holds what the answers before it stored. *)
Theorem rate_limit_stops_load key answer (finished : Z)
    (before after : list Competition) (c : Competition) :
  FREE_TIER_COMPETITIONS = before ++ c :: after ->
  (forall c', In c' before -> rateLimited key answer c' = false) ->
  rateLimited key answer c = true ->
  let '(_, cache, fetched) := doLoadTeamCache key answer finished in
  fetched = map comp_code (before ++ [c])
  /\ cache = cacheAll key answer before ∅.
Proof.
  intros Hsplit Hbefore Hc. unfold doLoadTeamCache. rewrite Hsplit.
  rewrite loadCompetitions_through by exact Hbefore.
  rewrite loadCompetitions_step, Hc.
  unfold requestsFor. rewrite (rateLimited_key _ _ _ Hc).
  split; [|reflexivity].
  cbn [app]. rewrite map_app. reflexivity.
Qed.

Lemma rate_limit_stops_load_witness :
  snd (loadCompetitions (Some "key") busyAnswer FREE_TIER_COMPETITIONS
         ∅ []) = ["PL"]
  /\ fst (loadCompetitions (Some "key") busyAnswer FREE_TIER_COMPETITIONS
            ∅ []) = ∅.
Proof.
  pose proof (rate_limit_stops_load (Some "key") busyAnswer 0 []
                (skipn 1 FREE_TIER_COMPETITIONS)
                (mkCompetition "PL" "Premier League" "England")
                eq_refl) as H.
  unfold doLoadTeamCache in H.
  destruct (loadCompetitions (Some "key") busyAnswer
              FREE_TIER_COMPETITIONS ∅ []) as [cache fetched].
  cbn [fst snd]. apply H.
  - intros c' [].
  - reflexivity.
Defined.

(** X25.  When no request of a load throws a message containing
    "Rate limit", the load asks for all eleven competitions in order
    when a key is configured, and for none when the key is missing or
    the empty string; every team of every answer is in the cache. *)
Theorem full_load_caches_every_team key answer (finished : Z) :
  (forall c, In c FREE_TIER_COMPETITIONS ->
     rateLimited key answer c = false) ->
  let '(_, cache, fetched) := doLoadTeamCache key answer finished in
  fetched = requestsFor key FREE_TIER_COMPETITIONS
  /\ forall c t, In c FREE_TIER_COMPETITIONS ->
       In t (teamsOf key answer c) -> is_Some (cache !! api_id t).
Proof.
  intros Hr. unfold doLoadTeamCache.
  destruct (loadCompetitions key answer FREE_TIER_COMPETITIONS ∅ [])
    as [cache fetched] eqn:E.
  split.
  - pose proof (loadCompetitions_through key answer
                  FREE_TIER_COMPETITIONS [] ∅ [] Hr) as Ht.
    rewrite app_nil_r in Ht. rewrite E in Ht. cbn in Ht.
    inversion Ht. reflexivity.
  - intros c t Hc Ht.
    pose proof (loadCompetitions_complete key answer
                  FREE_TIER_COMPETITIONS ∅ [] (api_id t) Hr) as Hcomp.
    rewrite E in Hcomp. cbn [fst] in Hcomp. apply Hcomp.
    right. exists c, t. auto.
Qed.

Lemma full_load_caches_every_team_witness :
  snd (loadCompetitions (Some "key") patchyAnswer FREE_TIER_COMPETITIONS
         ∅ [])
  = ["PL"; "BL1"; "SA"; "PD"; "FL1"; "DED"; "PPL"; "ELC"; "CL"; "EC"; "WC"]
  /\ is_Some (fst (loadCompetitions (Some "key") patchyAnswer
                     FREE_TIER_COMPETITIONS ∅ []) !! 57).
Proof.
  pose proof (full_load_caches_every_team (Some "key") patchyAnswer 0) as H.
  unfold doLoadTeamCache in H.
  destruct (loadCompetitions (Some "key") patchyAnswer
              FREE_TIER_COMPETITIONS ∅ []) as [cache fetched].
  cbn [fst snd].
  assert (Hr : forall c, In c FREE_TIER_COMPETITIONS ->
                 rateLimited (Some "key") patchyAnswer c = false).
  { intros c Hc. cbn in Hc.
    repeat (destruct Hc as [<-|Hc]; [reflexivity|]). destruct Hc. }
  destruct (H Hr) as [Hf Hc]. split; [exact Hf|].
  apply (Hc (mkCompetition "PL" "Premier League" "England") arsenalApi).
  - left. reflexivity.
  - left. reflexivity.
Defined.

(** X26.  What a load leaves is served for 24 hours from the moment it
    finished, without a request and whatever the key and the remote
    side have become; this includes the empty cache of a load made
    without a key (missing or the empty string), for which
    [getTeamFromCache] then answers null for every team.  From the
    expiry on, the next call loads afresh. *)
Theorem team_cache_served_for_a_day key answer (finished : Z)
    key' answer' (now' finished' : Z) (teamId : Z) :
  0 <= finished ->
  let '(api, cache, fetched) := doLoadTeamCache key answer finished in
  (now' < finished + 86400000 ->
     loadTeamCache key' answer' now' finished' api = (api, cache, [])
     /\ getTeamFromCache key' answer' now' finished' api teamId
        = (api, cache !! teamId, []))
  /\ (finished + 86400000 <= now' ->
        loadTeamCache key' answer' now' finished' api
        = doLoadTeamCache key' answer' finished')
  /\ (configured key = false -> cache = ∅ /\ fetched = []).
Proof.
  intros Hf. unfold doLoadTeamCache.
  destruct (loadCompetitions key answer FREE_TIER_COMPETITIONS ∅ [])
    as [cache fetched] eqn:E.
  repeat split.
  - unfold loadTeamCache. cbn [teamCache teamCacheExpiry].
    rewrite !bool_decide_eq_true_2 by lia. reflexivity.
  - unfold getTeamFromCache, loadTeamCache. cbn [teamCache teamCacheExpiry].
    rewrite !bool_decide_eq_true_2 by lia. reflexivity.
  - intros Hn. unfold loadTeamCache. cbn [teamCache teamCacheExpiry].
    rewrite (bool_decide_eq_false_2 (now' < _)) by lia.
    rewrite andb_false_r. reflexivity.
  - rewrite loadCompetitions_unconfigured in E by assumption.
    inversion E. reflexivity.
  - rewrite loadCompetitions_unconfigured in E by assumption.
    inversion E. reflexivity.
Qed.

Lemma team_cache_served_for_a_day_witness :
  getTeamFromCache (Some "key") sampleAnswer 3600000 3700000
    (mkTeamCache (Some ∅) (Some 86400000)) 57
  = (mkTeamCache (Some ∅) (Some 86400000), None, []).
Proof.
  pose proof (team_cache_served_for_a_day None sampleAnswer 0
                (Some "key") sampleAnswer 3600000 3700000 57) as H.
  unfold doLoadTeamCache in H.
  destruct (loadCompetitions None sampleAnswer FREE_TIER_COMPETITIONS ∅ [])
    as [cache fetched] eqn:E.
  destruct (H ltac:(lia)) as (Hhit & _ & Hempty).
  destruct (Hempty eq_refl) as [-> _].
  destruct (Hhit ltac:(lia)) as [_ Hg].
  exact Hg.
Defined.

(** ** Lookups behind the device's conditions *)

Lemma includes_LIVE (s : string) :
  includes LIVE_STATUSES s = true
  <-> s = MATCH_STATUS.IN_PLAY \/ s = MATCH_STATUS.PAUSED.
Proof.
  unfold includes, LIVE_STATUSES. cbn [existsb].
  rewrite !orb_true_iff, !bool_decide_eq_true. split.
  - intros [H|[H|H]]; [left|right|discriminate]; symmetry; exact H.
  - intros [H|H]; [left|right; left]; symmetry; exact H.
Qed.

Lemma playsIn_spec (teamId : Z) (cached : MatchState) :
  bool_decide (homeTeamId cached = teamId)
  || bool_decide (awayTeamId cached = teamId) = true
  <-> playsIn teamId cached.
Proof.
  unfold playsIn. rewrite orb_true_iff, !bool_decide_eq_true. reflexivity.
Qed.

Lemma getTeamLiveMatch_Some entries (teamId : Z) (m : MatchState) :
  getTeamLiveMatch entries teamId = Some m ->
  In m (map snd entries) /\ liveStatus m /\ playsIn teamId m.
Proof.
  induction entries as [|[matchId cached] rest IH];
    cbn [getTeamLiveMatch map snd In]; [discriminate|].
  destruct (includes LIVE_STATUSES (st_status cached)) eqn:El.
  - destruct (bool_decide (homeTeamId cached = teamId)
              || bool_decide (awayTeamId cached = teamId)) eqn:Ep.
    + intros H. assert (cached = m) by congruence. subst cached.
      split; [left; reflexivity|].
      split; [apply includes_LIVE; exact El | apply playsIn_spec; exact Ep].
    + intros H. destruct (IH H) as (Hin & Hl & Hp). auto.
  - intros H. destruct (IH H) as (Hin & Hl & Hp). auto.
Qed.

Lemma getTeamLiveMatch_finds entries (teamId : Z) (m : MatchState) :
  In m (map snd entries) -> liveStatus m -> playsIn teamId m ->
  is_Some (getTeamLiveMatch entries teamId).
Proof.
  induction entries as [|[matchId cached] rest IH];
    cbn [getTeamLiveMatch map snd In]; [intros []|].
  intros [->|Hin] Hl Hp.
  - apply includes_LIVE in Hl. apply playsIn_spec in Hp.
    rewrite Hl, Hp. eauto.
  - destruct (includes LIVE_STATUSES (st_status cached));
      [destruct (_ || _); [eauto|]|]; apply IH; assumption.
Qed.

Lemma getTeamMatchToday_Some entries (teamId : Z) (m : MatchState) :
  getTeamMatchToday entries teamId = Some m ->
  In m (map snd entries) /\ playsIn teamId m.
Proof.
  induction entries as [|[matchId cached] rest IH];
    cbn [getTeamMatchToday map snd In]; [discriminate|].
  destruct (bool_decide (homeTeamId cached = teamId)
            || bool_decide (awayTeamId cached = teamId)) eqn:Ep.
  - intros H. assert (cached = m) by congruence. subst cached.
    split; [left; reflexivity|].
    apply playsIn_spec. exact Ep.
  - intros H. destruct (IH H) as (Hin & Hp). auto.
Qed.

Lemma getTeamLiveMatch_first entries (teamId : Z) (m : MatchState) :
  getTeamLiveMatch entries teamId = Some m
  <-> firstWith (fun c => liveStatus c /\ playsIn teamId c) entries m.
Proof.
  split.
  - induction entries as [|[matchId cached] rest IH];
      cbn [getTeamLiveMatch]; [discriminate|].
    destruct (includes LIVE_STATUSES (st_status cached)) eqn:El.
    + destruct (bool_decide (homeTeamId cached = teamId)
                || bool_decide (awayTeamId cached = teamId)) eqn:Ep.
      * intros H. assert (cached = m) by congruence. subst cached.
        exists [], matchId, rest. split; [reflexivity|].
        split; [|intros kv []].
        split; [apply includes_LIVE; exact El | apply playsIn_spec; exact Ep].
      * intros H. destruct (IH H) as (before & i & after & -> & HP & Hb).
        exists ((matchId, cached) :: before), i, after.
        split; [reflexivity|]. split; [exact HP|].
        intros kv [<-|Hin]; [|apply Hb; exact Hin].
        cbn [snd]. intros [_ Hp]. apply playsIn_spec in Hp. congruence.
    + intros H. destruct (IH H) as (before & i & after & -> & HP & Hb).
      exists ((matchId, cached) :: before), i, after.
      split; [reflexivity|]. split; [exact HP|].
      intros kv [<-|Hin]; [|apply Hb; exact Hin].
      cbn [snd]. intros [Hl _]. apply includes_LIVE in Hl. congruence.
  - intros (before & i & after & -> & [Hl Hp] & Hb).
    induction before as [|[matchId cached] before IH];
      cbn [app getTeamLiveMatch].
    + apply includes_LIVE in Hl. apply playsIn_spec in Hp.
      rewrite Hl, Hp. reflexivity.
    + assert (Hrest : forall kv, In kv before ->
                        ~ (liveStatus (snd kv) /\ playsIn teamId (snd kv)))
        by (intros kv Hin; apply Hb; right; exact Hin).
      specialize (IH Hrest).
      destruct (includes LIVE_STATUSES (st_status cached)) eqn:El;
        [|exact IH].
      destruct (bool_decide (homeTeamId cached = teamId)
                || bool_decide (awayTeamId cached = teamId)) eqn:Ep;
        [|exact IH].
      exfalso. apply (Hb (matchId, cached)); [left; reflexivity|].
      cbn [snd]. split; [apply includes_LIVE; exact El
                        | apply playsIn_spec; exact Ep].
Qed.

Lemma getTeamMatchToday_first entries (teamId : Z) (m : MatchState) :
  getTeamMatchToday entries teamId = Some m
  <-> firstWith (playsIn teamId) entries m.
Proof.
  split.
  - induction entries as [|[matchId cached] rest IH];
      cbn [getTeamMatchToday]; [discriminate|].
    destruct (bool_decide (homeTeamId cached = teamId)
              || bool_decide (awayTeamId cached = teamId)) eqn:Ep.
    + intros H. assert (cached = m) by congruence. subst cached.
      exists [], matchId, rest. split; [reflexivity|].
      split; [apply playsIn_spec; exact Ep | intros kv []].
    + intros H. destruct (IH H) as (before & i & after & -> & HP & Hb).
      exists ((matchId, cached) :: before), i, after.
      split; [reflexivity|]. split; [exact HP|].
      intros kv [<-|Hin]; [|apply Hb; exact Hin].
      cbn [snd]. intros Hp. apply playsIn_spec in Hp. congruence.
  - intros (before & i & after & -> & Hp & Hb).
    induction before as [|[matchId cached] before IH];
      cbn [app getTeamMatchToday].
    + apply playsIn_spec in Hp. rewrite Hp. reflexivity.
    + assert (Hrest : forall kv, In kv before -> ~ playsIn teamId (snd kv))
        by (intros kv Hin; apply Hb; right; exact Hin).
      specialize (IH Hrest).
      destruct (bool_decide (homeTeamId cached = teamId)
                || bool_decide (awayTeamId cached = teamId)) eqn:Ep;
        [|exact IH].
      exfalso. apply (Hb (matchId, cached)); [left; reflexivity|].
      cbn [snd]. apply playsIn_spec. exact Ep.
Qed.

(** X27.  Which match the device's conditions read.  [getTeamLiveMatch]
    answers exactly the first entry, in the order the cache iterates,
    that is in a live status and has the team on one side;
    [getTeamMatchToday] answers exactly the first entry that has the
    team on one side.  If the cache holds a live match of the team, the
    conditions read that first live one and treat it as live at any
    clock reading; if it holds none, they read the first cached match of
    the team and treat it as live exactly when its kickoff lies more
    than 0 and less than 120 minutes in the past. *)
Theorem conditions_read_live_match_first (entries : list (Z * MatchState))
    (now teamId : Z) :
  let cached := getTeamLiveMatch entries teamId in
  let today := getTeamMatchToday entries teamId in
  (forall m, cached = Some m
     <-> firstWith (fun c => liveStatus c /\ playsIn teamId c) entries m)
  /\ (forall m, today = Some m <-> firstWith (playsIn teamId) entries m)
  /\ (forall m', In m' (map snd entries) -> liveStatus m' ->
        playsIn teamId m' -> is_Some cached)
  /\ (forall m, cached = Some m ->
        matchToday cached today = Some m /\ isLive cached m now = true)
  /\ (cached = None ->
      matchToday cached today = today
      /\ forall m, today = Some m ->
           (isLive cached m now = true
            <-> exists kickoff, st_utcDate m = Some kickoff
                  /\ 0 < now - kickoff < 120 * 60000)).
Proof.
  cbv zeta. split; [|split; [|split; [|split]]].
  - intros m. apply getTeamLiveMatch_first.
  - intros m. apply getTeamMatchToday_first.
  - intros m' Hin Hl Hp.
    exact (getTeamLiveMatch_finds entries teamId m' Hin Hl Hp).
  - intros m Hm. rewrite Hm. split; reflexivity.
  - intros Hnone. rewrite Hnone. split; [reflexivity|].
    intros m Hm. unfold isLive. split.
    + destruct (st_utcDate m) as [kickoff|]; [|discriminate].
      intros H. apply andb_true_iff in H. destruct H as [H1 H2].
      apply Qltb_lt in H1, H2.
      apply (minutesBetween_gt now kickoff 0) in H1.
      apply (minutesBetween_lt now kickoff 120) in H2.
      exists kickoff. split; [reflexivity | lia].
    + intros (kickoff & Hk & Hr).
      rewrite Hk. apply andb_true_iff. split; apply Qltb_lt.
      * apply (minutesBetween_gt now kickoff 0). lia.
      * apply (minutesBetween_lt now kickoff 120). lia.
Qed.

(** Arsenal's finished early match is cached before their live one: the
    conditions read the live one. *)
Lemma conditions_read_live_match_first_witness :
  matchToday (getTeamLiveMatch twoMatchesCached 57)
    (getTeamMatchToday twoMatchesCached 57)
  = Some (createMatchState
            (mkMatch 3 "IN_PLAY" (Some 40000000) (Some 2) (Some 0)
               arsenal everton None None) None)
  /\ isLive (getTeamLiveMatch twoMatchesCached 57)
       (createMatchState
          (mkMatch 3 "IN_PLAY" (Some 40000000) (Some 2) (Some 0)
             arsenal everton None None) None) 90000000 = true.
Proof.
  destruct (conditions_read_live_match_first twoMatchesCached 90000000 57)
    as (_ & _ & _ & H & _).
  apply H. reflexivity.
Defined.

(** X28.  Which answers end a load.  With a key configured, a response
    with status 429 makes [request] throw a message that contains
    "Rate limit"; a response with status 403 and a response with a
    status from 200 to 299 do not, and neither does the error thrown
    when the key is missing or the empty string, so the load goes on to
    the next competition. *)
Theorem http_429_ends_load (key : option string) answer (c : Competition)
    (status : Z) (text : string) (teams : option (list ApiTeam)) :
  answer (comp_code c) = Responded status text teams ->
  (configured key = true -> status = 429 ->
     rateLimited key answer c = true)
  /\ (status = 403 -> rateLimited key answer c = false)
  /\ (200 <= status <= 299 -> rateLimited key answer c = false)
  /\ (configured key = false ->
        forall answer' c', rateLimited key answer' c' = false).
Proof.
  intros Ha. unfold rateLimited, thrown, getCompetitionTeams, responseJson.
  repeat split.
  - intros -> ->. cbn. rewrite Ha. reflexivity.
  - intros ->. destruct (configured key); cbn; [|reflexivity].
    rewrite Ha. reflexivity.
  - intros Hok. destruct (configured key); cbn; [|reflexivity].
    rewrite Ha, bool_decide_eq_true_2 by exact Hok. reflexivity.
  - intros -> answer' c'. reflexivity.
Qed.

Lemma http_429_ends_load_witness :
  rateLimited (Some "key") sampleAnswer
    (mkCompetition "WC" "World Cup" "International") = true
  /\ rateLimited (Some "") busyAnswer
       (mkCompetition "PL" "Premier League" "England") = false.
Proof.
  destruct (http_429_ends_load (Some "key") sampleAnswer
              (mkCompetition "WC" "World Cup" "International")
              429 "" None eq_refl) as [H _].
  destruct (http_429_ends_load (Some "") sampleAnswer
              (mkCompetition "WC" "World Cup" "International")
              429 "" None eq_refl) as (_ & _ & _ & H').
  split; [apply H; reflexivity | apply H'; reflexivity].
Defined.

(** ** One-shot markers over whole cycles *)

Lemma cleanupCache_latched (now : Z) (cache : gmap Z MatchState) (id : Z)
    (k : OneShot) :
  latched id k cache ->
  latched id k (cleanupCache now cache)
  \/ exists st, cache !! id = Some st /\ staleAt now st
               /\ cleanupCache now cache !! id = None.
Proof.
  intros (st & Hst & Hm).
  destruct (cleanupCache now cache !! id) as [st'|] eqn:E.
  - left. pose proof E as E'. apply cleanupCache_lookup in E'.
    destruct E' as [E' _].
    exists st'. split; [exact E|]. congruence.
  - right. exists st. split; [exact Hst|]. split; [|reflexivity].
    destruct (staleEntry now st) eqn:Es; [apply staleEntry_spec; exact Es|].
    exfalso.
    assert (H : cleanupCache now cache !! id = Some st).
    { apply cleanupCache_lookup. split; [exact Hst|].
      rewrite <- staleEntry_spec. congruence. }
    congruence.
Qed.

(** X29.  The one-shot markers over whole cycles.  A marker that is set
    silences the events it guards in the next run of the detector, and
    after the cleanup that follows it is still set unless the entry was
    removed, which happens only to an entry in status FINISHED or
    AWARDED more than four hours after its kickoff.  Over any sequence
    of cycles none of which removes the entry, the marker stays set and
    no event it guards is emitted for the match. *)
Theorem markers_latch_until_eviction
    (cycles : list (Z * gmap Z (gset nat) * list Match))
    (matchCache : gmap Z MatchState) (id : Z) (k : OneShot) :
  latched id k matchCache ->
  (forall now trackedTeams matches,
     let r := processMatchUpdates trackedTeams matches matchCache in
     Forall (silentFor id k) r.2
     /\ (latched id k (cleanupCache now r.1)
         \/ exists st, r.1 !! id = Some st /\ staleAt now st
                      /\ cleanupCache now r.1 !! id = None))
  /\ (keptThrough id cycles matchCache ->
      latched id k (cacheCycles cycles matchCache).1
      /\ Forall (silentFor id k) (cacheCycles cycles matchCache).2).
Proof.
  intros Hl. split.
  - intros now tt ms. cbv zeta.
    destruct (processMatchUpdates_keeps tt ms matchCache id k Hl)
      as [H1 H2].
    split; [exact H2|]. apply cleanupCache_latched. exact H1.
  - revert matchCache Hl.
    induction cycles as [|[[now tt] ms] rest IH]; intros cache Hl Hkept.
    + cbn. split; [exact Hl | apply Forall_nil_2].
    + cbn [keptThrough] in Hkept. cbv zeta in Hkept.
      destruct Hkept as [Hfresh Hrest].
      destruct (processMatchUpdates_keeps tt ms cache id k Hl) as [H1 H2].
      cbn [cacheCycles].
      destruct (processMatchUpdates tt ms cache) as [cache1 out1].
      cbn [fst snd] in *.
      assert (H3 : latched id k (cleanupCache now cache1)).
      { destruct (cleanupCache_latched now cache1 id k H1)
          as [H|(st & Hst & Hstale & _)]; [exact H|].
        exfalso. exact (Hfresh st Hst Hstale). }
      destruct (IH _ H3 Hrest) as [H4 H5].
      destruct (cacheCycles rest (cleanupCache now cache1))
        as [cache2 out2].
      cbn [fst snd] in *. split; [exact H4|].
      apply Forall_app. split; assumption.
Qed.

(** Match 1 was discovered IN_PLAY, so its kickoff marker is set; the
    same snapshot again, then the match PAUSED, then FINISHED: no
    second kickoff. *)
Lemma markers_latch_until_eviction_witness :
  Forall (silentFor 1 Kickoff)
    (cacheCycles
       [(3600000, bothTracked, [liveSnapshot]);
        (5700000, bothTracked, [match1 "PAUSED" 3000000 0 0]);
        (9300000, bothTracked, [match1 "FINISHED" 3000000 0 0])]
       cacheAfterKickoff).2.
Proof.
  assert (H : latched 1 Kickoff cacheAfterKickoff).
  { eexists. split; [vm_compute; reflexivity | reflexivity]. }
  destruct (markers_latch_until_eviction
              [(3600000, bothTracked, [liveSnapshot]);
               (5700000, bothTracked, [match1 "PAUSED" 3000000 0 0]);
               (9300000, bothTracked, [match1 "FINISHED" 3000000 0 0])]
              cacheAfterKickoff 1 Kickoff H) as [_ Hc].
  apply Hc.
  cbn [keptThrough]. cbv zeta.
  repeat split.
  all: intros st Hst (_ & kickoff & Hk & Hold).
  all: vm_compute in Hst.
  all: inversion Hst; subst st; cbn in Hk; inversion Hk; subst kickoff; lia.
Defined.
